(** * XMLTV programme-guide converter: a shallow embedding and its properties

    The development follows [scripts/update-epg.mjs]: the timestamp codec
    ([parseXmltvTime], [formatTimeIST]), the tag stripper ([stripTags]), the
    programme extractor ([parseEPGProgrammes]), the channel grouper
    ([groupByChannel]), the poster lookup ([loadImageMapFile],
    [attachImagesToProgrammes]) and what [main] writes; and
    [update-epg-db.mjs], which accumulates the poster database
    ([loadExistingChannelFile], [processChannel], [main]).

    JavaScript strings are sequences of UTF-16 code units, so a string is a
    list of code-unit values; numbers that the script manipulates are integers
    far below 2^53 and are modelled by [Z]; a [Map] whose iteration order is
    observed is an association list, one whose order is not observed is a
    [gmap]. *)

From Stdlib Require Import ZArith NArith List Lia Bool Ascii String DecimalString Sorted.
From stdpp Require Import gmap.
Import ListNotations.

Local Open Scope Z_scope.

(** ** Strings *)

Module JsString.

(** A UTF-16 code unit, and a string. *)
Abbreviation char := N (only parsing).
Abbreviation str := (list N) (only parsing).

(** A literal of the source text (all literals of the script are ASCII). *)
Definition lit (s : string) : str :=
  List.map N_of_ascii (list_ascii_of_string s).

Definition str_eqb (a b : str) : bool := bool_decide (a = b).

(** [WhiteSpace] and [LineTerminator] of ECMAScript: what [\s] matches and
    what [String.prototype.trim] removes. *)
Definition is_ws (c : char) : bool :=
  ((9 <=? c) && (c <=? 13) || (c =? 32) || (c =? 160) || (c =? 5760)
   || (8192 <=? c) && (c <=? 8202)
   || (c =? 8232) || (c =? 8233) || (c =? 8239) || (c =? 8287)
   || (c =? 12288) || (c =? 65279))%N.

(** [\d] *)
Definition is_digit (c : char) : bool := ((48 <=? c) && (c <=? 57))%N.

(** [\w] (no unicode flag: ASCII letters, digits and underscore) *)
Definition is_word (c : char) : bool :=
  ((65 <=? c) && (c <=? 90) || (97 <=? c) && (c <=? 122)
   || is_digit c || (c =? 95))%N.

Definition is_upper (c : char) : bool := ((65 <=? c) && (c <=? 90))%N.
Definition is_lower (c : char) : bool := ((97 <=? c) && (c <=? 122))%N.

(** Case-insensitive comparison of an input code unit [c] with an ASCII
    pattern character [p], as the [i] flag does without the [u] flag: a
    code unit above 127 never folds onto an ASCII one. *)
Definition ci_eq (p c : char) : bool :=
  ((c =? p)
   || (is_lower p && (c =? p - 32))
   || (is_upper p && (c =? p + 32)))%N.

Fixpoint dropWhile (f : char -> bool) (s : str) : str :=
  match s with
  | [] => []
  | c :: s' => if f c then dropWhile f s' else s
  end.

Fixpoint takeWhile (f : char -> bool) (s : str) : str :=
  match s with
  | [] => []
  | c :: s' => if f c then c :: takeWhile f s' else []
  end.

Definition trimStart (s : str) : str := dropWhile is_ws s.

Fixpoint trimEnd (s : str) : str :=
  match s with
  | [] => []
  | c :: s' =>
      match trimEnd s' with
      | [] => if is_ws c then [] else [c]
      | r => c :: r
      end
  end.

(** [String.prototype.trim] *)
Definition trim (s : str) : str := trimEnd (trimStart s).

(** [s.slice(a, b)] for [0 <= a <= b]. *)
Definition slice (a b : nat) (s : str) : str :=
  firstn (b - a) (skipn a s).

(** [Number(s)] on a slice made of decimal digits. *)
Definition Number (s : str) : Z :=
  fold_left (fun acc c => 10 * acc + (Z.of_N c - 48)) s 0.

(** ASCII part of [toLowerCase] / [toUpperCase]. *)
Definition lower_ascii (c : char) : char :=
  if is_upper c then (c + 32)%N else c.
Definition upper_ascii (c : char) : char :=
  if is_lower c then (c - 32)%N else c.

(** The literal [p] (case-insensitively) at the head of [s]: the rest of
    [s] after it. *)
Fixpoint strip_prefix_ci (p s : str) : option str :=
  match p with
  | [] => Some s
  | a :: p' =>
      match s with
      | [] => None
      | c :: s' => if ci_eq a c then strip_prefix_ci p' s' else None
      end
  end.

(** The first position at which [f] holds: the text before it and the
    text after it. *)
Fixpoint break_at (f : char -> bool) (s : str) : option (str * str) :=
  match s with
  | [] => None
  | c :: s' =>
      if f c then Some ([], s')
      else match break_at f s' with
           | Some (b, a) => Some (c :: b, a)
           | None => None
           end
  end.

(** The first position of [s] at which [strip] succeeds: the text before
    that position and what [strip] returns there. *)
Fixpoint find_with (strip : str -> option str) (s : str)
  : option (str * str) :=
  match strip s with
  | Some r => Some ([], r)
  | None =>
      match s with
      | [] => None
      | c :: s' =>
          match find_with strip s' with
          | Some (b, a) => Some (c :: b, a)
          | None => None
          end
      end
  end.

(** The first occurrence of the literal [p] (case-insensitively) in [s]:
    the text before it and the text after it. *)
Definition find_ci (p s : str) : option (str * str) :=
  find_with (strip_prefix_ci p) s.

(** Does the literal [p] occur (case-insensitively) in [s]? *)
Definition occurs_ci (p s : str) : bool :=
  match find_ci p s with Some _ => true | None => false end.

End JsString.
Import JsString.

(** ** Time values and the [Date] built-ins

    The definitions follow the abstract operations of ECMAScript (20.4.1):
    a time value is a number of milliseconds since the epoch, or NaN. *)

Module JsDate.

Definition msPerDay : Z := 86400000.
Definition msPerHour : Z := 3600000.
Definition msPerMinute : Z := 60000.
Definition msPerSecond : Z := 1000.

Definition Day (t : Z) : Z := t / msPerDay.
Definition TimeWithinDay (t : Z) : Z := t mod msPerDay.

Definition DaysInYear (y : Z) : Z :=
  if negb (y mod 4 =? 0) then 365
  else if negb (y mod 100 =? 0) then 366
  else if negb (y mod 400 =? 0) then 365
  else 366.

Definition DayFromYear (y : Z) : Z :=
  365 * (y - 1970) + (y - 1969) / 4 - (y - 1901) / 100 + (y - 1601) / 400.

Definition TimeFromYear (y : Z) : Z := msPerDay * DayFromYear y.

(** The largest [y] with [TimeFromYear y <= t]: an estimate from the mean
    length of a year, corrected by at most one (see [YearFromTime_spec]). *)
Definition YearFromTime (t : Z) : Z :=
  let d := Day t in
  let y := 1970 + (d * 400) / 146097 in
  if d <? DayFromYear y then y - 1
  else if DayFromYear (y + 1) <=? d then y + 1
  else y.

Definition InLeapYear (t : Z) : Z :=
  if DaysInYear (YearFromTime t) =? 366 then 1 else 0.

Definition DayWithinYear (t : Z) : Z :=
  Day t - DayFromYear (YearFromTime t).

Definition MonthFromTime (t : Z) : Z :=
  let d := DayWithinYear t in
  let l := InLeapYear t in
  if d <? 31 then 0
  else if d <? 59 + l then 1
  else if d <? 90 + l then 2
  else if d <? 120 + l then 3
  else if d <? 151 + l then 4
  else if d <? 181 + l then 5
  else if d <? 212 + l then 6
  else if d <? 243 + l then 7
  else if d <? 273 + l then 8
  else if d <? 304 + l then 9
  else if d <? 334 + l then 10
  else 11.

Definition DateFromTime (t : Z) : Z :=
  let d := DayWithinYear t in
  let l := InLeapYear t in
  match MonthFromTime t with
  | 0 => d + 1
  | 1 => d - 30
  | 2 => d - 58 - l
  | 3 => d - 89 - l
  | 4 => d - 119 - l
  | 5 => d - 150 - l
  | 6 => d - 180 - l
  | 7 => d - 211 - l
  | 8 => d - 242 - l
  | 9 => d - 272 - l
  | 10 => d - 303 - l
  | _ => d - 333 - l
  end.

Definition HourFromTime (t : Z) : Z := (t / msPerHour) mod 24.
Definition MinFromTime (t : Z) : Z := (t / msPerMinute) mod 60.
Definition SecFromTime (t : Z) : Z := (t / msPerSecond) mod 60.

Definition MakeTime (hour min sec ms : Z) : Z :=
  hour * msPerHour + min * msPerMinute + sec * msPerSecond + ms.

(** Number of days of year [ym] before its month [mn] (0-based). *)
Definition DaysBeforeMonth (ym mn : Z) : Z :=
  let l := if DaysInYear ym =? 366 then 1 else 0 in
  match mn with
  | 0 => 0
  | 1 => 31
  | 2 => 59 + l
  | 3 => 90 + l
  | 4 => 120 + l
  | 5 => 151 + l
  | 6 => 181 + l
  | 7 => 212 + l
  | 8 => 243 + l
  | 9 => 273 + l
  | 10 => 304 + l
  | _ => 334 + l
  end.

(** [MakeDay]: the day number of the first day of month [month mod 12] of
    year [year + floor(month / 12)], plus [date - 1]. *)
Definition MakeDay (year month date : Z) : Z :=
  let ym := year + month / 12 in
  let mn := month mod 12 in
  DayFromYear ym + DaysBeforeMonth ym mn + date - 1.

Definition MakeDate (day time : Z) : Z := day * msPerDay + time.

(** [None] is NaN. *)
Definition TimeClip (t : Z) : option Z :=
  if Z.abs t <=? 8640000000000000 then Some t else None.

(** [Date.UTC(year, month, date, hours, minutes, seconds)] on integers;
    a year from 0 to 99 stands for 1900 + year. *)
Definition Date_UTC (year month date hours minutes seconds : Z) : option Z :=
  let yr := if (0 <=? year) && (year <=? 99) then 1900 + year else year in
  TimeClip (MakeDate (MakeDay yr month date)
                     (MakeTime hours minutes seconds 0)).

(** A [Date] object: its time value. *)
Record Date : Type := mkDate { getTime : option Z }.

(** [new Date(value)] for a number [value]. *)
Definition new_Date (value : option Z) : Date :=
  mkDate (match value with Some v => TimeClip v | None => None end).

Section Host.
(** The offset of the host's local time zone, in milliseconds, at a UTC
    time value. *)
Variable LocalTZA : Z -> Z.

Definition LocalTime (t : Z) : Z := t + LocalTZA t.

Definition getFullYear (d : Date) : option Z :=
  option_map (fun t => YearFromTime (LocalTime t)) (getTime d).
Definition getMonth (d : Date) : option Z :=
  option_map (fun t => MonthFromTime (LocalTime t)) (getTime d).
Definition getDate (d : Date) : option Z :=
  option_map (fun t => DateFromTime (LocalTime t)) (getTime d).
Definition getHours (d : Date) : option Z :=
  option_map (fun t => HourFromTime (LocalTime t)) (getTime d).
Definition getMinutes (d : Date) : option Z :=
  option_map (fun t => MinFromTime (LocalTime t)) (getTime d).
Definition getSeconds (d : Date) : option Z :=
  option_map (fun t => SecFromTime (LocalTime t)) (getTime d).
End Host.

(** [String(n)] and template interpolation of a number: decimal digits of
    an integer, ["NaN"] for NaN. *)
Definition String_of_number (n : option Z) : str :=
  match n with
  | Some z => lit (NilZero.string_of_int (Z.to_int z))
  | None => lit "NaN"
  end.

(** [s.padStart(n, fill)] for a one-character [fill]. *)
Definition padStart (n : nat) (fill : char) (s : str) : str :=
  repeat fill (n - length s) ++ s.

End JsDate.
Import JsDate.

(** ** TimeCodec: [parseXmltvTime] and [formatTimeIST] *)

Module TimeCodec.

Definition is_sign (c : char) : bool := ((c =? 43) || (c =? 45))%N.

(** [\d{14}] anchored at the start: the capture and the text after it. *)
Definition digits14 (s : str) : option (str * str) :=
  let dt := firstn 14 s in
  if (length dt =? 14)%nat && forallb is_digit dt
  then Some (dt, skipn 14 s) else None.

(** [\d{2}] at the head of [r]. *)
Definition two_digits (r : str) : option (str * str) :=
  match r with
  | a :: b :: r' =>
      if is_digit a && is_digit b then Some ([a; b], r') else None
  | _ => None
  end.

(** First alternative, [[+-]\d{2}:?\d{2}]: the colon is taken when it is
    there, and given back when no two digits follow it. *)
Definition tz_alt1 (r : str) : option str :=
  match r with
  | sg :: r1 =>
      if is_sign sg then
        match two_digits r1 with
        | Some (hh, r2) =>
            let no_colon :=
              match two_digits r2 with
              | Some (mm, _) => Some (sg :: hh ++ mm)
              | None => None
              end in
            match r2 with
            | c :: r3 =>
                if (c =? 58)%N then
                  match two_digits r3 with
                  | Some (mm, _) => Some (sg :: hh ++ c :: mm)
                  | None => no_colon
                  end
                else no_colon
            | [] => no_colon
            end
        | None => None
        end
      else None
  | [] => None
  end.

(** Second alternative, [[+-]\d{4}]. *)
Definition tz_alt2 (r : str) : option str :=
  match r with
  | sg :: r1 =>
      if is_sign sg then
        match two_digits r1 with
        | Some (ab, r2) =>
            match two_digits r2 with
            | Some (cd, _) => Some (sg :: ab ++ cd)
            | None => None
            end
        | None => None
        end
      else None
  | [] => None
  end.

(** Third alternative, [Z] under the [i] flag. *)
Definition tz_altZ (r : str) : option str :=
  match r with
  | c :: _ => if ci_eq 90%N c then Some [c] else None
  | [] => None
  end.

Definition tz_token (r : str) : option str :=
  match tz_alt1 r with
  | Some t => Some t
  | None =>
      match tz_alt2 r with
      | Some t => Some t
      | None => tz_altZ r
      end
  end.

(** The optional group [(?:\s*(...))?]: [\s*] is greedy and gives
    whitespace back one character at a time until an alternative matches;
    [None] when the group does not take part in the match. *)
Fixpoint tz_group (r : str) : option str :=
  match r with
  | c :: r' =>
      if is_ws c then
        match tz_group r' with
        | Some t => Some t
        | None => tz_token r
        end
      else tz_token r
  | [] => tz_token []
  end.

(** [ts.match(/^(\d{14})(?:\s*([+-]\d{2}:?\d{2}|[+-]\d{4}|Z))?/i)]:
    the captures [m[1]] and [m[2]]. *)
Definition match_timestamp (ts : str) : option (str * option str) :=
  match digits14 ts with
  | Some (dt, rest) => Some (dt, tz_group rest)
  | None => None
  end.

(** [tz.replace(":", "")]: the first colon only. *)
Fixpoint remove_first_colon (s : str) : str :=
  match s with
  | [] => []
  | c :: s' => if (c =? 58)%N then s' else c :: remove_first_colon s'
  end.

(** Lines 133-137: the offset, in minutes, that the designator [tz]
    denotes. *)
Definition offsetMinutes (tz : str) : Z :=
  let tzClean := remove_first_colon tz in
  let sign :=
    match tzClean with
    | c :: _ => if (c =? 45)%N then -1 else 1
    | [] => 1
    end in
  let hh := Number (slice 1 3 tzClean) in
  let mm := Number (slice 3 5 tzClean) in
  sign * (hh * 60 + mm).

(** [parseXmltvTime(ts)]; [ts = None] is [null].  The designator [tz] is
    made of ASCII characters, on which [toUpperCase] is [upper_ascii]. *)
Definition parseXmltvTime (ts : option str) : option Date :=
  match ts with
  | None | Some [] => None
  | Some raw =>
      let ts := trim raw in
      match match_timestamp ts with
      | None => None
      | Some (dt, tz) =>
          let y := Number (slice 0 4 dt) in
          let mo := Number (slice 4 6 dt) - 1 in
          let d := Number (slice 6 8 dt) in
          let h := Number (slice 8 10 dt) in
          let min := Number (slice 10 12 dt) in
          let s := Number (slice 12 14 dt) in
          let utcMillis := Date_UTC y mo d h min s in
          let utcMillis :=
            match tz with
            | Some tz =>
                if negb (str_eqb (List.map upper_ascii tz) (lit "Z")) then
                  option_map (fun u => u - offsetMinutes tz * 60 * 1000)
                             utcMillis
                else utcMillis
            | None => utcMillis
            end in
          Some (new_Date utcMillis)
      end
  end.

Section Host.
Variable LocalTZA : Z -> Z.

(** [formatTimeIST(originalTs)] *)
Definition formatTimeIST (originalTs : option str) : str :=
  match parseXmltvTime originalTs with
  | None => match originalTs with Some s => s | None => [] end
  | Some dateUtc =>
      let istMillis :=
        option_map (fun t => t + 19800000) (getTime dateUtc) in
      let ist := new_Date istMillis in
      let yyyy := getFullYear LocalTZA ist in
      let plus1 := option_map (fun m => m + 1) in
      let mm :=
        padStart 2 48%N (String_of_number (plus1 (getMonth LocalTZA ist))) in
      let dd := padStart 2 48%N (String_of_number (getDate LocalTZA ist)) in
      let hh := padStart 2 48%N (String_of_number (getHours LocalTZA ist)) in
      let mi :=
        padStart 2 48%N (String_of_number (getMinutes LocalTZA ist)) in
      let ss :=
        padStart 2 48%N (String_of_number (getSeconds LocalTZA ist)) in
      String_of_number yyyy ++ lit "-" ++ mm ++ lit "-" ++ dd ++ lit " "
        ++ hh ++ lit ":" ++ mi ++ lit ":" ++ ss ++ lit " IST"
  end.
End Host.

End TimeCodec.
Import TimeCodec.

(** ** Regular-expression scanning

    A matcher tells, for the text that starts at the current position,
    whether the regular expression matches there: the captures and the
    number of characters matched.  [scan] is the loop behind a global
    regular expression ([replace], [matchAll], repeated [exec]): positions
    are tried from [lastIndex] on, and a match moves [lastIndex] to its end. *)

Module Regex.

Section Scan.
Context {A : Type}.
Variable m : str -> option (A * nat).

(** [skip] characters remain before [lastIndex].  The result lists, in
    order, the characters outside any match and the matches. *)
Fixpoint scan (skip : nat) (s : str) {struct s} : list (char + A) :=
  match s with
  | [] =>
      match skip with
      | O => match m [] with Some (a, _) => [inr a] | None => [] end
      | S _ => []
      end
  | c :: s' =>
      match skip with
      | S k => scan k s'
      | O =>
          match m s with
          | Some (a, S k) => inr a :: scan k s'
          | Some (a, O) => inr a :: inl c :: scan 0 s'
          | None => inl c :: scan 0 s'
          end
      end
  end.

(** The matches of a global regular expression, in order. *)
Definition matchAll (s : str) : list A :=
  flat_map (fun x => match x with inl _ => [] | inr a => [a] end)
           (scan 0 s).

(** [s.replace(re, rep)] for a global [re] and a constant [rep]. *)
Definition replaceAll (rep : str) (s : str) : str :=
  flat_map (fun x => match x with inl c => [c] | inr _ => rep end)
           (scan 0 s).

(** [s.match(re)] for a [re] without the global flag: the first
    position at which it matches. *)
Fixpoint matchFirst (s : str) : option A :=
  match m s with
  | Some (a, _) => Some a
  | None =>
      match s with
      | [] => None
      | _ :: s' => matchFirst s'
      end
  end.
End Scan.

End Regex.
Import Regex.

(** ** TagStripper: [stripTags] *)

Module TagStripper.

Definition is_gt (c : char) : bool := (c =? 62)%N.

(** [/<[^>]+>/]: a [<], one or more characters other than [>], and the
    first [>] after them. *)
Definition tag_match (s : str) : option (unit * nat) :=
  match s with
  | c :: s1 =>
      if (c =? 60)%N then
        match break_at is_gt s1 with
        | Some (b :: body, _) => Some (tt, S (S (S (length body))))
        | _ => None
        end
      else None
  | [] => None
  end.

(** [/\s+/]: a maximal run of whitespace. *)
Definition ws_match (s : str) : option (unit * nat) :=
  match takeWhile is_ws s with
  | [] => None
  | run => Some (tt, length run)
  end.

(** [s.replace(/<[^>]+>/g, "")] *)
Definition removeTags (s : str) : str := replaceAll tag_match [] s.

(** [s.replace(/\s+/g, " ")] *)
Definition collapseSpaces (s : str) : str := replaceAll ws_match (lit " ") s.

(** [stripTags(s)] *)
Definition stripTags (s : str) : str :=
  trim (collapseSpaces (removeTags s)).

End TagStripper.
Import TagStripper.

(** ** ProgrammeExtractor: [parseEPGProgrammes] *)

Module ProgrammeExtractor.

Record Programme : Type := mkProgramme {
  startRaw : str;
  stopRaw : str;
  start : str;
  stop : str;
  channel : str;
  title : str;
  subTitle : str;
  image : option str   (* absent until [attachImagesToProgrammes] sets it *)
}.

(** The [progRegex] at the head of [s]: [<programme] in any case, a word
    boundary, the capture [attrText] (characters other than [>], as
    many as there are), [>], the capture [inner] (any characters, as few
    as possible) and [</programme>] in any case. *)
Definition prog_match (s : str) : option ((str * str) * nat) :=
  match strip_prefix_ci (lit "<programme") s with
  | Some r1 =>
      let boundary :=
        match r1 with c :: _ => negb (is_word c) | [] => true end in
      if boundary then
        match break_at is_gt r1 with
        | Some (attrText, r2) =>
            match find_ci (lit "</programme>") r2 with
            | Some (inner, _) =>
                Some ((attrText, inner),
                      S (9 + length attrText + 1 + length inner + 12))
            | None => None
            end
        | None => None
        end
      else None
  | None => None
  end.

(** [[\w:\-]] *)
Definition is_name (c : char) : bool :=
  (is_word c || (c =? 58) || (c =? 45))%N.

Definition is_quote (c : char) : bool := (c =? 34)%N.

(** The attribute expression at the head of [s]: a name (one or more
    of [[\w:\-]], as many as there are), [=], a double quote, the value
    (characters other than a double quote) and a double quote. *)
Definition attr_match (s : str) : option ((str * str) * nat) :=
  match takeWhile is_name s with
  | [] => None
  | n :: name =>
      match skipn (S (length name)) s with
      | e :: q :: r =>
          if ((e =? 61) && (q =? 34))%N then
            match break_at is_quote r with
            | Some (value, _) =>
                Some ((n :: name, value),
                      S (length name + 2 + length value + 1))
            | None => None
            end
          else None
      | _ => None
      end
  end.

(** [Object.fromEntries(pairs)]: a later pair replaces an earlier one of
    the same name. *)
Definition fromEntries (pairs : list (str * str)) : gmap str str :=
  fold_left (fun o kv => <[fst kv := snd kv]> o) pairs ∅.

(** The title expression at the head of [s]: [<title] in any case,
    characters other than [>], [>], the captured content (as short as
    possible) and [</title>] in any case. *)
Definition title_match (s : str) : option (str * nat) :=
  match strip_prefix_ci (lit "<title") s with
  | Some r1 =>
      match break_at is_gt r1 with
      | Some (a, r2) =>
          match find_ci (lit "</title>") r2 with
          | Some (content, _) =>
              Some (content, 6 + length a + 1 + length content + 8)%nat
          | None => None
          end
      | None => None
      end
  | None => None
  end.

(** [(?:sub-title|sub_title)] after a given opening ([<] or [</]). *)
Definition strip_sub_title (opening : str) (s : str) : option str :=
  match strip_prefix_ci (opening ++ lit "sub-title") s with
  | Some r => Some r
  | None => strip_prefix_ci (opening ++ lit "sub_title") s
  end.

(** The sub-title expression at the head of [s]: as for the title, with
    either spelling in the opening tag and either spelling in the closing
    tag. *)
Definition subtitle_match (s : str) : option (str * nat) :=
  match strip_sub_title (lit "<") s with
  | Some r1 =>
      match break_at is_gt r1 with
      | Some (a, r2) =>
          match
            find_with (fun t =>
                         match strip_sub_title (lit "</") t with
                         | Some (c :: r) => if is_gt c then Some r else None
                         | _ => None
                         end) r2
          with
          | Some (content, _) =>
              Some (content, 10 + length a + 1 + length content + 12)%nat
          | None => None
          end
      | None => None
      end
  | None => None
  end.

Section Host.
Variable LocalTZA : Z -> Z.

(** The body of the loop: the record pushed for one match. *)
Definition programme_of (m : str * str) : Programme :=
  let attrText := fst m in
  let inner := snd m in
  let attrs := fromEntries (matchAll attr_match attrText) in
  let titleMatch := matchFirst title_match inner in
  let subtitleMatch := matchFirst subtitle_match inner in
  let startRaw := default [] (attrs !! lit "start") in
  let stopRaw := default [] (attrs !! lit "stop") in
  {| startRaw := startRaw;
     stopRaw := stopRaw;
     start := formatTimeIST LocalTZA (Some startRaw);
     stop := formatTimeIST LocalTZA (Some stopRaw);
     channel := default [] (attrs !! lit "channel");
     title := match titleMatch with
              | Some t => trim (stripTags t)
              | None => lit "Untitled"
              end;
     subTitle := match subtitleMatch with
                 | Some t => trim (stripTags t)
                 | None => []
                 end;
     image := None |}.

(** [parseEPGProgrammes(xml)]: one record per successive [exec] match. *)
Definition parseEPGProgrammes (xml : str) : list Programme :=
  List.map programme_of (matchAll prog_match xml).
End Host.

End ProgrammeExtractor.
Import ProgrammeExtractor.

(** ** ChannelGrouper: [groupByChannel] *)

Module ChannelGrouper.

(** A [Map] from channel id to an array of programmes; the list keeps the
    insertion order of the keys, which [entries()] observes. *)
Definition Buckets : Type := list (str * list Programme).

Fixpoint has (ch : str) (map : Buckets) : bool :=
  match map with
  | [] => false
  | (k, _) :: map' => str_eqb k ch || has ch map'
  end.

(** [map.set(ch, [])] for a key that is not in the map. *)
Definition set_empty (ch : str) (map : Buckets) : Buckets :=
  map ++ [(ch, [])].

(** [map.get(ch).push(p)] *)
Fixpoint push (ch : str) (p : Programme) (map : Buckets) : Buckets :=
  match map with
  | [] => []
  | (k, l) :: map' =>
      if str_eqb k ch then (k, l ++ [p]) :: map'
      else (k, l) :: push ch p map'
  end.

(** [p.channel || "unknown"] *)
Definition bucket_key (p : Programme) : str :=
  match channel p with
  | [] => lit "unknown"
  | ch => ch
  end.

Definition groupByChannel (programmes : list Programme) : Buckets :=
  fold_left
    (fun map p =>
       let ch := bucket_key p in
       let map := if has ch map then map else set_empty ch map in
       push ch p map)
    programmes [].

End ChannelGrouper.
Import ChannelGrouper.

(** ** ImageResolver: [loadImageMapFile] and [attachImagesToProgrammes] *)

Module ImageResolver.

Definition DEFAULT_IMAGE : str :=
  lit "https://upload.wikimedia.org/wikipedia/commons/thumb/4/47/TV_icon_black.svg/512px-TV_icon_black.svg.png".

(** An entry of [channelScheduleData]; [None] is an absent field. *)
Record ScheduleItem : Type := mkItem {
  item_title : option str;
  boxCoverImage : option str
}.

(** How a call completes: it throws, or it returns a value. *)
Inductive Completion (A : Type) : Type :=
| Throw
| Normal (a : A).
Arguments Throw {A}.
Arguments Normal {A} a.

(** What reading and parsing an image-database file gives.  [NotFound]:
    [existsSync] is false.  [BadJson]: reading or [JSON.parse] throws, in
    the [try].  [Malformed]: JSON on which the code throws outside the
    [try]: [null], whose [channelScheduleData] cannot be read, or a
    schedule with an entry that is [null] or whose title is neither a
    string nor falsy.  [Parsed]: any other JSON, with its schedule
    ([None]: [channelScheduleData] is not an array); the entries are taken
    with their title and image as strings, or absent. *)
Inductive ImageDbFile : Type :=
| NotFound
| BadJson
| Malformed
| Parsed (channelScheduleData : option (list ScheduleItem)).

(** A value of the table [CHANNEL_IMAGE_ID_MAP]: a number ([inl]), or a
    value that the object inherits from [Object.prototype] ([inr], by the
    text that a template literal makes of it). *)
Abbreviation MapValue := (Z + str)%type (only parsing).

(** The value of [imageFileId]: a value of the table ([inl]) or the
    channel id ([inr]). *)
Abbreviation FileId := ((Z + str) + str)%type (only parsing).

(** [`${fileId}.json`] *)
Definition fileName (id : FileId) : str :=
  match id with
  | inl (inl n) => String_of_number (Some n)
  | inl (inr text) => text
  | inr s => s
  end ++ lit ".json".

(** The functions that every object inherits, other than [constructor]. *)
Definition inherited_functions : list str :=
  [lit "__defineGetter__"; lit "__defineSetter__"; lit "hasOwnProperty";
   lit "__lookupGetter__"; lit "__lookupSetter__"; lit "isPrototypeOf";
   lit "propertyIsEnumerable"; lit "toString"; lit "valueOf";
   lit "toLocaleString"].

(** [CHANNEL_IMAGE_ID_MAP[epgChannelId]]: the entry of the table, or what
    the object literal inherits under that name (a function, printed as
    Node prints it, or [Object.prototype] under [__proto__]); [None] is
    [undefined]. *)
Definition CHANNEL_IMAGE_ID_MAP (epgChannelId : str) : option MapValue :=
  if str_eqb epgChannelId (lit "jio-559") then Some (inl 239)
  else if str_eqb epgChannelId (lit "__proto__")
  then Some (inr (lit "[object Object]"))
  else if str_eqb epgChannelId (lit "constructor")
  then Some (inr (lit "function Object() { [native code] }"))
  else if existsb (str_eqb epgChannelId) inherited_functions
  then Some (inr (lit "function " ++ epgChannelId ++ lit "() { [native code] }"))
  else None.

Section Env.
(** [toLowerCase] on a string with a character outside ASCII: the
    Unicode case mapping, which the sources do not contain. *)
Variable unicodeLowerCase : str -> str.
(** The files of [IMAGE_DB_DIR], by file name. *)
Variable readImageDb : str -> ImageDbFile.

Definition toLowerCase (s : str) : str :=
  if forallb (fun c => (c <? 128)%N) s then List.map lower_ascii s
  else unicodeLowerCase s.

(** [(x || "").trim().toLowerCase()] *)
Definition title_key (x : option str) : str :=
  toLowerCase (trim (default [] x)).

(** Lines 44-52: the title index of a schedule; the first entry of a
    title wins. *)
Definition buildTitleMap (schedule : list ScheduleItem) : gmap str str :=
  fold_left
    (fun map item =>
       let title := title_key (item_title item) in
       let img := default [] (boxCoverImage item) in
       match title, img with
       | [], _ | _, [] => map
       | _, _ =>
           match map !! title with
           | Some _ => map
           | None => <[title := img]> map
           end
       end)
    schedule ∅.

(** [loadImageMapFile(fileId)]: [null] ([Normal None]), the index, or an
    exception. *)
Definition loadImageMapFile (fileId : FileId)
  : Completion (option (gmap str str)) :=
  match readImageDb (fileName fileId) with
  | NotFound | BadJson => Normal None
  | Malformed => Throw
  | Parsed schedule => Normal (Some (buildTitleMap (default [] schedule)))
  end.

(** Lines 86-97: the image of one programme, given the title index of
    its channel ([None]: no index). *)
Definition resolveImage (titleToImage : option (gmap str str))
           (title : str) : str :=
  let key := title_key (Some title) in
  let img :=
    match titleToImage, key with
    | Some map, _ :: _ => map !! key
    | _, _ => None
    end in
  match img with
  | None | Some [] => DEFAULT_IMAGE
  | Some img => img
  end.

Definition set_image (img : str) (p : Programme) : Programme :=
  {| startRaw := startRaw p; stopRaw := stopRaw p;
     start := start p; stop := stop p; channel := channel p;
     title := title p; subTitle := subTitle p; image := Some img |}.

(** One iteration of the outer loop: the cache and the programmes of
    the channel after it, unless loading the index throws. *)
Definition attachChannel
           (imageMapCache : gmap FileId (option (gmap str str)))
           (entry : str * list Programme)
  : Completion (gmap FileId (option (gmap str str)) * (str * list Programme)) :=
  let epgChannelId := fst entry in
  let imageFileId : option FileId :=
    match CHANNEL_IMAGE_ID_MAP epgChannelId with
    | Some v => Some (inl v)
    | None =>
        match readImageDb (fileName (inr epgChannelId)) with
        | NotFound => None
        | _ =>
            (* [imageFileId = epgChannelId]; the empty string is falsy *)
            match epgChannelId with
            | [] => None
            | _ :: _ => Some (inr epgChannelId)
            end
        end
    end in
  let found : Completion (gmap FileId (option (gmap str str))
                          * option (gmap str str)) :=
    match imageFileId with
    | Some id =>
        match imageMapCache !! id with
        | Some (Some map) => Normal (imageMapCache, Some map)
        | _ =>
            match loadImageMapFile id with
            | Throw => Throw
            | Normal loaded => Normal (<[id := loaded]> imageMapCache, loaded)
            end
        end
    | None => Normal (imageMapCache, None)
    end in
  match found with
  | Throw => Throw
  | Normal (cache, titleToImage) =>
      Normal
        (cache,
         (epgChannelId,
          List.map (fun prog =>
                      set_image (resolveImage titleToImage (title prog)) prog)
                   (snd entry)))
  end.

(** The loop over [byChannel.entries()] from a given cache; an exception
    ends it. *)
Fixpoint attach_from
         (imageMapCache : gmap FileId (option (gmap str str)))
         (entries : Buckets) : Completion Buckets :=
  match entries with
  | [] => Normal []
  | entry :: rest =>
      match attachChannel imageMapCache entry with
      | Throw => Throw
      | Normal (cache, entry') =>
          match attach_from cache rest with
          | Throw => Throw
          | Normal done => Normal (entry' :: done)
          end
      end
  end.

(** [attachImagesToProgrammes(byChannel)]: the buckets with the images
    set, or an exception. *)
Definition attachImagesToProgrammes (byChannel : Buckets)
  : Completion Buckets :=
  attach_from ∅ byChannel.
End Env.

End ImageResolver.
Import ImageResolver.

(** ** The driver of [update-epg.mjs]: files, channel index, meta *)

Module EpgMain.

(** An entry [{channel, count}] of [channels.json]. *)
Definition IndexEntry : Type := (list N * nat)%type.

Section Sort.
(** [a.localeCompare(b)]: negative, zero or positive.  The collation of the
    host is not part of the sources. *)
Variable localeCompare : list N -> list N -> Z.

(** [channelsIndex.sort((a, b) => a.channel.localeCompare(b.channel))]:
    the sort of an array is stable; for a consistent comparator its result
    is the one that inserting the elements, last one first, gives. *)
Fixpoint sort_insert (x : IndexEntry) (l : list IndexEntry) : list IndexEntry :=
  match l with
  | [] => [x]
  | y :: l' =>
      if localeCompare (fst y) (fst x) <? 0 then y :: sort_insert x l'
      else x :: y :: l'
  end.

Definition sort (l : list IndexEntry) : list IndexEntry :=
  fold_right sort_insert [] l.
End Sort.

(** The counts of [meta.json]. *)
Record Meta : Type := mkMeta { totalProgrammes : nat; totalChannels : nat }.

(** What a file that the script writes holds; the JSON text is not
    modelled. *)
Inductive Content : Type :=
| ChannelJson (list : list Programme)
| IndexJson (channelsIndex : list IndexEntry)
| MetaJson (meta : Meta).

(** The calls of [fs.writeFileSync] that succeeded, in order: the file and
    what was written to it. *)
Definition Writes : Type := list (list N * Content).

(** How [main] ends once the programmes are parsed: normally, or in the
    [catch] with [process.exit(1)]; either way with the files that it
    wrote before. *)
Inductive Outcome : Type :=
| Done (writes : Writes)
| Exit1 (writes : Writes).

Definition writes_of (o : Outcome) : Writes :=
  match o with Done w | Exit1 w => w end.

Section Host.
Variable localeCompare : list N -> list N -> Z.
Variable unicodeLowerCase : list N -> list N.
Variable readImageDb : list N -> ImageDbFile.
(** The file that [path.join(epgDir, name)] denotes, and the one that
    [path.join(outRoot, name)] denotes: the joined path is normalised, and
    the file system decides which file it is. *)
Variable epgPath : list N -> list N.
Variable rootPath : list N -> list N.
(** [ensureDir(outRoot)] and [ensureDir(epgDir)] return. *)
Variable dirsReady : bool.
(** [fs.writeFileSync] on that file returns; it throws otherwise, as it
    does when the directory of the file does not exist. *)
Variable writable : list N -> bool.

(** The loop over [byChannel.entries()]: one write and one push per
    channel.  The result is the writes made and the index pushed, or
    [None] for the index when a write threw. *)
Fixpoint write_channels (entries : Buckets) (writes : Writes)
         (channelsIndex : list IndexEntry)
  : Writes * option (list IndexEntry) :=
  match entries with
  | [] => (writes, Some channelsIndex)
  | (channelId, list) :: rest =>
      let outPath := epgPath (channelId ++ lit ".json") in
      if writable outPath then
        write_channels rest
                       (writes ++ [(outPath, ChannelJson list)])
                       (channelsIndex ++ [(channelId, length list)])
      else (writes, None)
  end.

(** [main] from [ensureDir] on: the channel files, [channels.json] and
    [meta.json]. *)
Definition write_all (total : nat) (byChannel : Buckets) : Outcome :=
  if negb dirsReady then Exit1 []
  else
    match write_channels byChannel [] [] with
    | (writes, None) => Exit1 writes
    | (writes, Some pushed) =>
        let channelsIndex := sort localeCompare pushed in
        let indexPath := rootPath (lit "channels.json") in
        if writable indexPath then
          let writes := writes ++ [(indexPath, IndexJson channelsIndex)] in
          let meta := {| totalProgrammes := total;
                         totalChannels := length channelsIndex |} in
          let metaPath := rootPath (lit "meta.json") in
          if writable metaPath then
            Done (writes ++ [(metaPath, MetaJson meta)])
          else Exit1 writes
        else Exit1 writes
    end.

(** First script: [main] after [downloadAndParseEPG] has returned the
    programmes. *)
Definition run (programmes : list Programme) : Outcome :=
  match attachImagesToProgrammes unicodeLowerCase readImageDb
                                 (groupByChannel programmes) with
  | Throw => Exit1 []
  | Normal byChannel => write_all (length programmes) byChannel
  end.

(** Second script: the programmes of all sources are appended in the order
    of [EPG_SOURCES] before grouping; no images. *)
Definition run_sources (sources : list (list Programme)) : Outcome :=
  let allProgrammes := List.concat sources in
  write_all (length allProgrammes) (groupByChannel allProgrammes).
End Host.

End EpgMain.
Import EpgMain.

(** ** [update-epg-db.mjs]: the image database accumulator *)

Module DbUpdater.

Definition CHANNEL_IDS : list Z :=
  [239; 681; 433; 138; 681; 238; 119; 127; 867; 1340; 118; 114; 45; 144; 587].

(** [data.channelMeta]; [None] is an absent field. *)
Record ChannelMeta : Type := mkChannelMeta {
  meta_id : option Z;
  meta_name : option (list N)
}.

(** [apiData.data] *)
Record ApiPayload : Type := mkApiPayload {
  channelMeta : option ChannelMeta;
  api_schedule : option (list ScheduleItem)   (* [None]: not an array *)
}.

(** The body of the API's answer; a body without the field [code] is one
    whose code is not 0. *)
Record ApiData : Type := mkApiData {
  code : Z;
  data : option ApiPayload
}.

(** The object of a channel file: [None] is an absent (or [null]) field,
    and for [channelScheduleData] a value that is not an array. *)
Record ChannelFile : Type := mkChannelFile {
  channelId : option Z;
  channelName : option (list N);
  channelScheduleData : option (list ScheduleItem)
}.

(** A file of the data directory, as [loadExistingChannelFile] reads it:
    [Broken] is text that is not JSON, or JSON that is [null], a number, a
    string or a boolean (reading or setting [channelScheduleData] throws in
    the [try]); [Object] is a JSON object.  A file whose JSON is an array is
    left out: neither script writes one. *)
Inductive DbFile : Type :=
| Broken
| Object (json : ChannelFile).

(** The data directory: the file [<id>.json] of every channel id. *)
Abbreviation DataDir := (gmap Z DbFile) (only parsing).

(** [loadExistingChannelFile(channelId, channelName)]: the object to
    update. *)
Definition loadExistingChannelFile (dir : DataDir)
           (id : Z) (name : list N) : ChannelFile :=
  match dir !! id with
  | None | Some Broken =>
      {| channelId := Some id; channelName := Some name;
         channelScheduleData := Some [] |}
  | Some (Object parsed) =>
      {| channelId := Some (default id (channelId parsed));
         channelName := Some (default name (channelName parsed));
         channelScheduleData :=
           Some (default [] (channelScheduleData parsed)) |}
  end.

(** The state of the loop of [processChannel]: the schedule of the file,
    the set of titles seen and the number of titles added. *)
Record MergeState : Type := mkMergeState {
  schedule : list ScheduleItem;
  existingTitles : gset (option (list N));
  addedCount : nat
}.

(** One iteration of the loop over [scheduleRaw]. *)
Definition merge_step (st : MergeState) (item : ScheduleItem) : MergeState :=
  let title := trim (default [] (item_title item)) in
  let boxCoverImage := default [] (boxCoverImage item) in
  match title, boxCoverImage with
  | [], _ | _, [] => st
  | _, _ =>
      if bool_decide (Some title ∈ existingTitles st) then st
      else {| schedule := schedule st ++ [mkItem (Some title) (Some boxCoverImage)];
              existingTitles := {[Some title]} ∪ existingTitles st;
              addedCount := S (addedCount st) |}
  end.

(** Lines 89-106: the titles of the API's schedule that the file does not
    have are appended to it. *)
Definition mergeSchedule (existing scheduleRaw : list ScheduleItem)
  : MergeState :=
  fold_left merge_step scheduleRaw
            {| schedule := existing;
               existingTitles := list_to_set (List.map item_title existing);
               addedCount := 0 |}.

(** What [fetchChannel(pathId)] gives: the request, or the reading of its
    body, throws; the status is not OK, or the body is [null]; or the
    body. *)
Inductive Fetched : Type :=
| Throws
| NotOk
| Body (apiData : ApiData).

Section Fetch.
Variable fetchChannel : Z -> Fetched.

(** [processChannel(pathId)]: the data directory after it; [None] when the
    call throws, which it does before it writes. *)
Definition processChannel (dir : DataDir) (pathId : Z) : option DataDir :=
  match fetchChannel pathId with
  | Throws => None
  | NotOk => Some dir
  | Body apiData =>
      if negb (code apiData =? 0) then Some dir
      else
        let channelMeta :=
          match data apiData with Some d => channelMeta d | None => None end in
        let scheduleRaw :=
          match data apiData with
          | Some d => default [] (api_schedule d)
          | None => []
          end in
        match channelMeta with
        | Some cm =>
            match meta_id cm with
            | None | Some 0 => Some dir
            | Some id =>
                let name := default [] (meta_name cm) in
                let json := loadExistingChannelFile dir id name in
                let st :=
                  mergeSchedule (default [] (channelScheduleData json))
                                scheduleRaw in
                Some (<[id := Object
                               {| channelId := channelId json;
                                  channelName := channelName json;
                                  channelScheduleData := Some (schedule st) |}]>
                        dir)
            end
        | None => Some dir
        end
  end.

(** The loop of [main()] over the ids that remain; a call that throws ends
    the run. *)
Fixpoint main_from (ids : list Z) (dir : DataDir) : DataDir :=
  match ids with
  | [] => dir
  | id :: ids' =>
      match processChannel dir id with
      | Some dir' => main_from ids' dir'
      | None => dir
      end
  end.

(** [main()]: the channels of [CHANNEL_IDS], one after the other. *)
Definition main (dir : DataDir) : DataDir := main_from CHANNEL_IDS dir.
End Fetch.

End DbUpdater.
Import DbUpdater.

(** ** Definitions used to state the properties *)

Module Spec.

(** A literal in which every apostrophe stands for a double quote. *)
Definition litq (s : string) : str :=
  List.map (fun c => if (c =? 39)%N then 34%N else c) (lit s).

(** The distinct elements of [ks], in the order of their first occurrence. *)
Fixpoint first_occurrences (ks : list str) : list str :=
  match ks with
  | [] => []
  | k :: ks' =>
      k :: List.filter (fun k' => negb (str_eqb k k')) (first_occurrences ks')
  end.

(** The programmes of [ps] that go to the bucket [k], in the order of [ps]. *)
Definition bucket_of (k : str) (ps : list Programme) : list Programme :=
  List.filter (fun p => str_eqb k (bucket_key p)) ps.

(** The map that [groupByChannel] is to build from the programmes [ps]. *)
Definition grouped (ps : list Programme) : Buckets :=
  List.map (fun k => (k, bucket_of k ps))
           (first_occurrences (List.map bucket_key ps)).

(** Three programme blocks: two of channel [ch1] around one of [ch2]. *)
Definition three_blocks : str :=
  litq "<tv><programme channel='ch1'><title>A</title></programme>
<programme channel='ch2'><title>B</title></programme>
<programme channel='ch1'><title>C</title></programme></tv>".

(** The end-to-end scenario of the specification. *)
Definition scenario_xml : str :=
  litq "<programme channel='c1' start='20240101120000 +0530' stop='20240101123000 +0530'><title>News</title></programme>".

(** A title index is well formed when no key and no image is empty. *)
Definition index_ok (map : gmap str str) : Prop :=
  forall k v, map !! k = Some v -> k <> [] /\ v <> [].

(** The matcher [m] matches at no position of [s]. *)
Fixpoint no_match {A} (m : list N -> option (A * nat)) (s : str) : Prop :=
  m s = None /\
  match s with
  | [] => True
  | _ :: s' => no_match m s'
  end.

(** Every whitespace character of [s] is a space that no whitespace
    follows. *)
Fixpoint ws_normal (s : str) : Prop :=
  match s with
  | [] => True
  | c :: s' =>
      (is_ws c = true ->
       c = 32%N /\ match s' with [] => True | d :: _ => is_ws d = false end)
      /\ ws_normal s'
  end.

(** *** Calendar *)

(** Length of month [mo] (1 to 12) of year [y]. *)
Definition DaysInMonth (y mo : Z) : Z :=
  match mo with
  | 1 | 3 | 5 | 7 | 8 | 10 | 12 => 31
  | 4 | 6 | 9 | 11 => 30
  | 2 => if DaysInYear y =? 366 then 29 else 28
  | _ => 0
  end.

(** The components name a second of the proleptic Gregorian calendar. *)
Definition valid_civil (y mo d h mi s : Z) : Prop :=
  1 <= mo <= 12 /\ 1 <= d <= DaysInMonth y mo /\
  0 <= h <= 23 /\ 0 <= mi <= 59 /\ 0 <= s <= 59.

(** The instant (milliseconds since the epoch) whose UTC wall-clock reading
    is year [y], month [mo] (1-based), day [d], [h]:[mi]:[s]; components
    out of range roll over into the next unit. *)
Definition utc_instant (y mo d h mi s : Z) : Z :=
  MakeDate (MakeDay y (mo - 1) d) (MakeTime h mi s 0).

(** The UTC wall-clock reading of an instant. *)
Definition utc_reading (t : Z) : Z * Z * Z * Z * Z * Z :=
  (YearFromTime t, MonthFromTime t + 1, DateFromTime t,
   HourFromTime t, MinFromTime t, SecFromTime t).

(** *** Timestamps *)

(** The number that the decimal digits [ds] write. *)
Fixpoint decimal (ds : list N) : Z :=
  match ds with
  | [] => 0
  | c :: r => (Z.of_N c - 48) * 10 ^ Z.of_nat (length r) + decimal r
  end.

(** [n] decimal digits. *)
Definition all_digits (n : nat) (ds : str) : Prop :=
  length ds = n /\ forallb is_digit ds = true.

(** The field of [n] digits at position [i] of a timestamp. *)
Definition field (i n : nat) (ds : str) : Z :=
  decimal (firstn n (skipn i ds)).

(** The instant whose UTC wall-clock reading the 14 digits [ds] write. *)
Definition stamp_instant (ds : str) : Z :=
  utc_instant (field 0 4 ds) (field 4 2 ds) (field 6 2 ds)
              (field 8 2 ds) (field 10 2 ds) (field 12 2 ds).

(** The minutes that a numeric offset of sign [sg], hours [hh] and
    minutes [mm] denotes. *)
Definition offset_minutes (sg : N) (hh mm : str) : Z :=
  (if (sg =? 45)%N then -1 else 1) * (decimal hh * 60 + decimal mm).

(** A numeric offset: a sign, two digits, an optional colon, two digits. *)
Definition is_numeric_offset (tok : str) : Prop :=
  exists sg hh colon mm,
    is_sign sg = true /\ all_digits 2 hh /\ all_digits 2 mm /\
    (colon = [] \/ colon = [58%N]) /\ tok = sg :: hh ++ colon ++ mm.

(** The minutes that the numeric offset [tok] denotes: its sign, and the
    hours and minutes that its digits write. *)
Definition offset_value (tok : str) : Z :=
  match tok with
  | [] => 0
  | sg :: t =>
      let ds := List.filter is_digit t in
      (if (sg =? 45)%N then -1 else 1)
      * (decimal (firstn 2 ds) * 60 + decimal (skipn 2 ds))
  end.

(** The text does not continue with a sign or a [Z] after optional
    whitespace. *)
Definition no_designator (rest : str) : Prop :=
  match dropWhile is_ws rest with
  | [] => True
  | c :: _ => is_sign c = false /\ ci_eq 90%N c = false
  end.

(** *** Display strings *)

Definition digit_char (n : Z) : N := Z.to_N (48 + n).

(** [n] in two, and in four, decimal digits. *)
Definition two_digits_of (n : Z) : str :=
  [digit_char (n / 10); digit_char (n mod 10)].

Definition four_digits_of (n : Z) : str :=
  [digit_char (n / 1000); digit_char (n / 100 mod 10);
   digit_char (n / 10 mod 10); digit_char (n mod 10)].

(** [YYYY-MM-DD HH:MM:SS IST] *)
Definition display (y mo d h mi s : Z) : str :=
  four_digits_of y ++ lit "-" ++ two_digits_of mo ++ lit "-"
    ++ two_digits_of d ++ lit " " ++ two_digits_of h ++ lit ":"
    ++ two_digits_of mi ++ lit ":" ++ two_digits_of s ++ lit " IST".

(** Host time zones: UTC, and Asia/Kolkata (UTC+05:30, no daylight
    saving). *)
Definition host_utc : Z -> Z := fun _ => 0.
Definition host_kolkata : Z -> Z := fun _ => 19800000.

(** *** Documents *)

(** An attribute [name="value"] with the text [a_sep] before it. *)
Record Attr : Type := mkAttr { a_sep : list N; a_name : list N; a_value : list N }.

Definition render_attr (a : Attr) : str :=
  a_sep a ++ a_name a ++ [61%N; 34%N] ++ a_value a ++ [34%N].

Definition wf_attr (a : Attr) : Prop :=
  forallb (fun c => negb (is_name c)) (a_sep a) = true /\
  a_name a <> [] /\
  forallb is_name (a_name a) = true /\
  forallb (fun c => negb (is_quote c)) (a_value a) = true.

(** A [<programme ...> ... </programme>] block: the opening and closing
    literals as the document spells them, the attributes, the text [b_end]
    between the last attribute and [>], and the content. *)
Record Block : Type := mkBlock {
  b_open : list N;
  b_attrs : list Attr;
  b_end : list N;
  b_inner : list N;
  b_close : list N
}.

Definition attr_text (b : Block) : str :=
  List.concat (List.map render_attr (b_attrs b)) ++ b_end b.

Definition render_block (b : Block) : str :=
  b_open b ++ attr_text b ++ [62%N] ++ b_inner b ++ b_close b.

(** [s] is the literal [p] up to the case of its letters. *)
Definition same_ci (p s : str) : Prop := strip_prefix_ci p s = Some [].

Definition wf_block (b : Block) : Prop :=
  same_ci (lit "<programme") (b_open b) /\
  Forall wf_attr (b_attrs b) /\
  List.NoDup (List.map a_name (b_attrs b)) /\
  forallb (fun c => negb (is_name c)) (b_end b) = true /\
  forallb (fun c => negb (is_gt c)) (attr_text b) = true /\
  match attr_text b with [] => True | c :: _ => is_word c = false end /\
  occurs_ci (lit "</programme>") (b_inner b) = false /\
  same_ci (lit "</programme>") (b_close b).

(** A document: blocks, each after some text without [<programme], and the
    text after the last block. *)
Definition render_doc (items : list (list N * Block)) (tail : str) : str :=
  List.concat (List.map (fun it => fst it ++ render_block (snd it)) items)
    ++ tail.

Definition wf_doc (items : list (list N * Block)) (tail : str) : Prop :=
  Forall (fun it => occurs_ci (lit "<programme") (fst it) = false /\
                    wf_block (snd it)) items /\
  occurs_ci (lit "<programme") tail = false.

(** The block has no title element, and no sub-title element: no opening
    tag or no closing tag of it. *)
Definition no_title (inner : str) : Prop :=
  occurs_ci (lit "<title") inner = false \/
  occurs_ci (lit "</title>") inner = false.

Definition no_subtitle (inner : str) : Prop :=
  (occurs_ci (lit "<sub-title") inner = false /\
   occurs_ci (lit "<sub_title") inner = false) \/
  (occurs_ci (lit "</sub-title>") inner = false /\
   occurs_ci (lit "</sub_title>") inner = false).

(** What a block's attributes say of the attribute [name]: its value, or
    nothing. *)
Definition attr_is (b : Block) (name : str) (v : str) : Prop :=
  (exists a, In a (b_attrs b) /\ a_name a = name /\ a_value a = v) \/
  ((forall a, In a (b_attrs b) -> a_name a <> name) /\ v = []).

(** A sample document: one block, in upper-case closing tag, whose start
    attribute is not a timestamp and which has no stop attribute and no
    title. *)
Definition sample_block : Block :=
  mkBlock (lit "<programme")
          [mkAttr (lit " ") (lit "channel") (lit "c1");
           mkAttr (lit "  ") (lit "start") (lit "garbage")]
          (lit " ") (lit "<desc>x</desc>") (lit "</PROGRAMME>").

Definition sample_items : list (list N * Block) := [(lit "<tv>", sample_block)].

(** The attribute written with apostrophes around its value, as XML allows
    as well. *)
Definition render_attr_apos (a : Attr) : str :=
  a_sep a ++ a_name a ++ [61%N; 39%N] ++ a_value a ++ [39%N].

(** The raw timestamps of the second record are those of the first. *)
Definition same_raw (p p' : Programme) : Prop :=
  startRaw p' = startRaw p /\ stopRaw p' = stopRaw p.

(** [m] fails at every position of [s] when [x] follows [s]. *)
Definition never_in {A} (m : list N -> option A) (s x : list N) : Prop :=
  forall a b, s = a ++ b -> b <> [] -> m (b ++ x) = None.

End Spec.
Import Spec.

(** ** Definitions used to state further properties *)

Module Props.

(** The last character of a string, if any. *)
Definition last_char (s : list N) : option N := List.last (List.map Some s) None.

(** A tag in the sense of [stripTags]: [<], one or more characters other
    than [>], and [>]. *)
Definition is_tag (t : list N) : Prop :=
  exists body, body <> [] /\ forallb (fun c => negb (is_gt c)) body = true /\
               t = 60%N :: body ++ [62%N].

(** The text has no tag, only single spaces as whitespace, and no
    whitespace at either end. *)
Definition plain_text (s : list N) : Prop :=
  (forall a t b, is_tag t -> s <> a ++ t ++ b) /\
  ws_normal s /\
  match s with [] => True | c :: _ => is_ws c = false end /\
  match last_char s with None => True | Some c => is_ws c = false end.

(** An entry of a schedule that the title index takes: its title, trimmed
    and lower-cased, and its image are not empty. *)
Definition indexable (unicodeLowerCase : list N -> list N) (item : ScheduleItem)
  : bool :=
  match title_key unicodeLowerCase (item_title item),
        default [] (boxCoverImage item) with
  | [], _ | _, [] => false
  | _, _ => true
  end.

(** The image of the first indexable entry of [schedule] whose key is [k]. *)
Definition first_image (unicodeLowerCase : list N -> list N)
           (k : list N) (schedule : list ScheduleItem) : option (list N) :=
  match List.find (fun item =>
                     indexable unicodeLowerCase item
                     && str_eqb (title_key unicodeLowerCase (item_title item)) k)
                  schedule with
  | Some item => Some (default [] (boxCoverImage item))
  | None => None
  end.

(** The title index that a channel gets, without the cache: that of the
    file of the table's value, else that of the file named after the
    channel when there is one, else none. *)
Definition index_for (unicodeLowerCase : list N -> list N)
           (readImageDb : list N -> ImageDbFile) (epgChannelId : list N)
  : Completion (option (gmap (list N) (list N))) :=
  match CHANNEL_IMAGE_ID_MAP epgChannelId with
  | Some v => loadImageMapFile unicodeLowerCase readImageDb (inl v)
  | None =>
      match readImageDb (fileName (inr epgChannelId)), epgChannelId with
      | NotFound, _ | _, [] => Normal None
      | _, _ => loadImageMapFile unicodeLowerCase readImageDb (inr epgChannelId)
      end
  end.

(** The file has no entry to offer: it is missing, is not JSON, or has no
    schedule or an empty one. *)
Definition unusable (f : ImageDbFile) : bool :=
  match f with
  | NotFound | BadJson | Parsed None | Parsed (Some []) => true
  | Malformed | Parsed (Some (_ :: _)) => false
  end.

(** The file in which the images of a channel are looked up: the one of
    the table's value, else the one named after the channel. *)
Definition image_file (epgChannelId : list N) : FileId :=
  match CHANNEL_IMAGE_ID_MAP epgChannelId with
  | Some v => inl v
  | None => inr epgChannelId
  end.

(** The programmes of a channel with the images that their titles resolve
    to in a given index. *)
Definition set_images (unicodeLowerCase : list N -> list N)
           (index : option (gmap (list N) (list N)))
           (e : list N * list Programme) : list N * list Programme :=
  (fst e,
   List.map (fun p => set_image
                        (resolveImage unicodeLowerCase index (title p)) p)
            (snd e)).

(** The programmes of a channel with their images, without the cache. *)
Definition with_images (unicodeLowerCase : list N -> list N)
           (readImageDb : list N -> ImageDbFile)
           (e : list N * list Programme)
  : Completion (list N * list Programme) :=
  match index_for unicodeLowerCase readImageDb (fst e) with
  | Throw => Throw
  | Normal index => Normal (set_images unicodeLowerCase index e)
  end.

(** The values of calls that all return, in order; an exception if one
    throws. *)
Fixpoint collect {A : Type} (l : list (Completion A)) : Completion (list A) :=
  match l with
  | [] => Normal []
  | Throw :: _ => Throw
  | Normal a :: l' =>
      match collect l' with
      | Throw => Throw
      | Normal r => Normal (a :: r)
      end
  end.

(** What the cache holds is what loading the file gives. *)
Definition cache_ok (unicodeLowerCase : list N -> list N)
           (readImageDb : list N -> ImageDbFile)
           (cache : gmap FileId (option (gmap (list N) (list N)))) : Prop :=
  forall id m, cache !! id = Some (Some m) ->
               loadImageMapFile unicodeLowerCase readImageDb id
               = Normal (Some m).

(** The record as the extractor made it, before an image was set. *)
Definition forget_image (p : Programme) : Programme :=
  {| startRaw := startRaw p; stopRaw := stopRaw p;
     start := start p; stop := stop p; channel := channel p;
     title := title p; subTitle := subTitle p; image := None |}.

(** The value of the last attribute of the name [name], or the empty
    string. *)
Definition last_value (name : list N) (attrs : list Attr) : list N :=
  match List.find (fun a => str_eqb (a_name a) name) (rev attrs) with
  | Some a => a_value a
  | None => []
  end.

(** The write that the loop of [main] makes for a channel. *)
Definition channel_write (epgPath : list N -> list N)
           (e : list N * list Programme) : list N * Content :=
  (epgPath (fst e ++ lit ".json"), ChannelJson (snd e)).

(** The entry that the loop of [main] pushes for a channel. *)
Definition index_entry (e : list N * list Programme) : IndexEntry :=
  (fst e, length (snd e)).

(** What a file holds after the writes [w]: what the last write to it
    put there. *)
Definition read_back (w : Writes) (file : list N) : option Content :=
  fold_left (fun held wr => if str_eqb (fst wr) file then Some (snd wr) else held)
            w None.

(** The order of two entries of the channel index under a comparator. *)
Definition in_order (cmp : list N -> list N -> Z) (a b : IndexEntry) : Prop :=
  cmp (fst a) (fst b) <= 0.

(** The comparator is consistent: a total preorder. *)
Definition consistent (cmp : list N -> list N -> Z) : Prop :=
  (forall a b, 0 <= cmp b a -> cmp a b <= 0) /\
  (forall a b c, cmp a b <= 0 -> cmp b c <= 0 -> cmp a c <= 0).

(** A comparator: shorter strings first. *)
Definition by_length (a b : list N) : Z :=
  Z.of_nat (length a) - Z.of_nat (length b).

(** An entry of the API's schedule that the accumulator takes: its trimmed
    title and its image are not empty. *)
Definition storable (item : ScheduleItem) : bool :=
  match trim (default [] (item_title item)), default [] (boxCoverImage item) with
  | [], _ | _, [] => false
  | _, _ => true
  end.

(** The entry that the accumulator stores for a storable one. *)
Definition stored (item : ScheduleItem) : ScheduleItem :=
  mkItem (Some (trim (default [] (item_title item))))
         (Some (default [] (boxCoverImage item))).

(** The titles of a schedule, in order; [None] is an entry without one. *)
Definition titles (l : list ScheduleItem) : list (option (list N)) :=
  List.map item_title l.

(** The title under which the accumulator stores an entry. *)
Definition stored_title (item : ScheduleItem) : option (list N) :=
  Some (trim (default [] (item_title item))).

(** The schedule [l] has the title of every entry of [raw] that the
    accumulator takes. *)
Definition absorbed (l raw : list ScheduleItem) : Prop :=
  forall r, In r raw -> storable r = true -> In (stored_title r) (titles l).

(** The set of titles seen is the set of titles of the schedule. *)
Definition titles_seen (st : MergeState) : Prop :=
  forall t, t ∈ existingTitles st <-> In t (titles (schedule st)).

(** The file [f'] keeps what the file [f] has: its id and name, and its
    schedule as the beginning of its own. *)
Definition keeps (f f' : ChannelFile) : Prop :=
  (forall l, channelScheduleData f = Some l ->
             exists added, channelScheduleData f' = Some (l ++ added)) /\
  (forall c, channelId f = Some c -> channelId f' = Some c) /\
  (forall n, channelName f = Some n -> channelName f' = Some n).

(** The object that [processChannel] writes to the file [id], for the name
    and the schedule of the API's answer. *)
Definition written (d : DataDir) (id : Z) (name : list N)
           (raw : list ScheduleItem) : ChannelFile :=
  let json := loadExistingChannelFile d id name in
  {| channelId := channelId json;
     channelName := channelName json;
     channelScheduleData :=
       Some (schedule (mergeSchedule (default [] (channelScheduleData json))
                                     raw)) |}.

(** The directory [d'] has every file of [d], and keeps what the files
    that could be read have. *)
Definition dir_keeps (d d' : DataDir) : Prop :=
  forall id,
    match d !! id with
    | None => True
    | Some Broken => is_Some (d' !! id)
    | Some (Object f) => exists f', d' !! id = Some (Object f') /\ keeps f f'
    end.

(** Processing the path id [p] again does not change the directory [d]. *)
Definition settled (fetchChannel : Z -> Fetched) (d : DataDir) (p : Z) : Prop :=
  processChannel fetchChannel d p = Some d \/
  processChannel fetchChannel d p = None.

End Props.
Import Props.

(** ** Basic facts about strings *)

Module StringFacts.

Lemma str_eqb_eq (a b : str) : str_eqb a b = true <-> a = b.
Proof. unfold str_eqb. apply bool_decide_eq_true. Qed.

Lemma str_eqb_refl (a : str) : str_eqb a a = true.
Proof. apply str_eqb_eq. reflexivity. Qed.

Lemma str_eqb_neq (a b : str) : str_eqb a b = false <-> a <> b.
Proof. unfold str_eqb. apply bool_decide_eq_false. Qed.

Lemma str_eqb_sym (a b : str) : str_eqb a b = str_eqb b a.
Proof.
  destruct (str_eqb b a) eqn:E.
  - apply str_eqb_eq in E. subst. apply str_eqb_refl.
  - apply str_eqb_neq. apply str_eqb_neq in E. congruence.
Qed.

End StringFacts.
Import StringFacts.

(** ** ChannelGrouper *)

Module ChannelGrouperFacts.

Lemma has_map_keys (f : str -> list Programme) (ks : list str) (k : str) :
  has k (List.map (fun x => (x, f x)) ks) = true <-> In k ks.
Proof.
  induction ks as [|a ks IH]; simpl.
  - split; [discriminate | tauto].
  - rewrite orb_true_iff, IH, str_eqb_eq. tauto.
Qed.

Lemma first_occurrences_In (ks : list str) (k : str) :
  In k (first_occurrences ks) <-> In k ks.
Proof.
  induction ks as [|a ks IH]; simpl; [tauto|].
  rewrite filter_In, IH, negb_true_iff, str_eqb_neq.
  destruct (decide (a = k)); intuition congruence.
Qed.

Lemma filter_snoc {A} (f : A -> bool) (l : list A) (x : A) :
  List.filter f (l ++ [x]) = List.filter f l ++ (if f x then [x] else []).
Proof. rewrite List.filter_app. reflexivity. Qed.

Lemma first_occurrences_snoc (ks : list str) (k : str) :
  first_occurrences (ks ++ [k]) =
  first_occurrences ks ++ (if has k (List.map (fun x => (x, @nil Programme)) ks)
                           then [] else [k]).
Proof.
  induction ks as [|a ks IH]; simpl; [reflexivity|].
  rewrite IH, List.filter_app. f_equal. f_equal.
  destruct (has k _) eqn:H; simpl.
  - rewrite orb_true_r. reflexivity.
  - rewrite orb_false_r. rewrite (str_eqb_sym a k).
    destruct (str_eqb k a); reflexivity.
Qed.

Lemma has_irrelevant (f g : str -> list Programme) (ks : list str) (k : str) :
  has k (List.map (fun x => (x, f x)) ks) =
  has k (List.map (fun x => (x, g x)) ks).
Proof. induction ks as [|a ks IH]; simpl; congruence. Qed.

Lemma push_absent (f : str -> list Programme) (ks : list str)
      (k : str) (p : Programme) :
  ~ In k ks ->
  push k p (List.map (fun x => (x, f x)) ks) = List.map (fun x => (x, f x)) ks.
Proof.
  induction ks as [|a ks IH]; simpl; intros H; [reflexivity|].
  destruct (str_eqb a k) eqn:E.
  - apply str_eqb_eq in E. tauto.
  - rewrite IH by tauto. reflexivity.
Qed.

Lemma bucket_of_snoc (k : str) (ps : list Programme) (p : Programme) :
  bucket_of k (ps ++ [p]) =
  bucket_of k ps ++ (if str_eqb k (bucket_key p) then [p] else []).
Proof. unfold bucket_of. rewrite filter_snoc. reflexivity. Qed.

Lemma push_grouped (ps : list Programme) (ks : list str) (p : Programme) :
  List.NoDup ks ->
  push (bucket_key p) p (List.map (fun k => (k, bucket_of k ps)) ks) =
  List.map (fun k => (k, bucket_of k (ps ++ [p]))) ks.
Proof.
  induction 1 as [|a ks Ha Hks IH]; simpl; [reflexivity|].
  rewrite bucket_of_snoc.
  destruct (str_eqb a (bucket_key p)) eqn:E.
  - apply str_eqb_eq in E. f_equal.
    apply map_ext_in. intros k Hk. rewrite bucket_of_snoc.
    destruct (str_eqb k (bucket_key p)) eqn:E'; [|now rewrite app_nil_r].
    apply str_eqb_eq in E'. exfalso. apply Ha. congruence.
  - rewrite app_nil_r. f_equal. apply IH.
Qed.

Lemma first_occurrences_NoDup (ks : list str) :
  List.NoDup (first_occurrences ks).
Proof.
  induction ks as [|a ks IH]; simpl; constructor.
  - rewrite filter_In, negb_true_iff, str_eqb_neq. tauto.
  - apply List.NoDup_filter, IH.
Qed.

Lemma push_app_absent (l1 l2 : Buckets) (k : str) (p : Programme) :
  ~ In k (List.map fst l1) ->
  push k p (l1 ++ l2) = l1 ++ push k p l2.
Proof.
  induction l1 as [|[a b] l1 IH]; simpl; intros H; [reflexivity|].
  destruct (str_eqb a k) eqn:E.
  - apply str_eqb_eq in E. tauto.
  - rewrite IH by tauto. reflexivity.
Qed.

Lemma bucket_of_absent (ps : list Programme) (k : str) :
  ~ In k (List.map bucket_key ps) -> bucket_of k ps = [].
Proof.
  unfold bucket_of. induction ps as [|q ps IH]; simpl; intros H; [reflexivity|].
  destruct (str_eqb k (bucket_key q)) eqn:E.
  - apply str_eqb_eq in E. intuition congruence.
  - apply IH. tauto.
Qed.

Lemma group_step (ps : list Programme) (p : Programme) :
  push (bucket_key p) p
       (if has (bucket_key p) (grouped ps) then grouped ps
        else set_empty (bucket_key p) (grouped ps))
  = grouped (ps ++ [p]).
Proof.
  set (k := bucket_key p).
  unfold grouped at 4.
  rewrite List.map_app. simpl List.map. fold k.
  rewrite first_occurrences_snoc, List.map_app.
  destruct (has k (grouped ps)) eqn:E.
  - assert (HIn : In k (List.map bucket_key ps)).
    { apply (proj1 (first_occurrences_In _ _)). unfold grouped in E.
      now apply (proj1 (has_map_keys _ _ _)) in E. }
    apply (proj2 (has_map_keys (fun _ => []) _ _)) in HIn. rewrite HIn.
    simpl. rewrite app_nil_r.
    apply push_grouped, first_occurrences_NoDup.
  - assert (Hn : ~ In k (List.map bucket_key ps)).
    { intros HIn. apply (proj2 (first_occurrences_In _ _)) in HIn.
      apply (proj2 (has_map_keys (fun x => bucket_of x ps) _ _)) in HIn.
      unfold grouped in E. congruence. }
    assert (Hh : has k (List.map (fun x => (x, @nil Programme))
                                 (List.map bucket_key ps)) = false).
    { apply not_true_is_false. intros E'.
      apply (proj1 (has_map_keys _ _ _)) in E'. tauto. }
    rewrite Hh. unfold set_empty, grouped.
    rewrite push_app_absent.
    + simpl. rewrite str_eqb_refl. f_equal.
      * apply map_ext_in. intros a Ha. f_equal.
        rewrite bucket_of_snoc. fold k.
        destruct (str_eqb a k) eqn:Ea; [|now rewrite app_nil_r].
        apply str_eqb_eq in Ea.
        apply (proj1 (first_occurrences_In _ _)) in Ha.
        exfalso. apply Hn. rewrite <- Ea. exact Ha.
      * rewrite bucket_of_snoc. fold k.
        rewrite str_eqb_refl. now rewrite bucket_of_absent.
    + rewrite List.map_map. simpl. rewrite List.map_id.
      now rewrite first_occurrences_In.
Qed.

Lemma groupByChannel_from (done ps : list Programme) :
  fold_left
    (fun map p =>
       let ch := bucket_key p in
       let map := if has ch map then map else set_empty ch map in
       push ch p map)
    ps (grouped done)
  = grouped (done ++ ps).
Proof.
  revert done. induction ps as [|p ps IH]; intros done; simpl.
  - now rewrite app_nil_r.
  - rewrite group_step, IH, <- app_assoc. reflexivity.
Qed.

Lemma groupByChannel_grouped (ps : list Programme) :
  groupByChannel ps = grouped ps.
Proof. apply (groupByChannel_from [] ps). Qed.

End ChannelGrouperFacts.

(** ** ImageResolver *)

Module ImageResolverFacts.

Section Env.
Variable unicodeLowerCase : str -> str.

Lemma buildTitleMap_ok (schedule : list ScheduleItem) :
  index_ok (buildTitleMap unicodeLowerCase schedule).
Proof.
  unfold buildTitleMap.
  assert (H : index_ok (∅ : gmap str str)).
  { intros k v Hk. rewrite lookup_empty in Hk. discriminate. }
  revert H. generalize (∅ : gmap str str).
  induction schedule as [|item schedule IH]; intros map Hmap; simpl; [exact Hmap|].
  apply IH.
  repeat case_match; try exact Hmap.
  intros k v Hk.
  match type of Hk with (<[?key := _]> _) !! _ = _ =>
    destruct (decide (key = k)) as [<-|Hne] end.
  - rewrite lookup_insert_eq in Hk. inversion Hk. split; congruence.
  - rewrite lookup_insert_ne in Hk by exact Hne. eapply Hmap, Hk.
Qed.

Lemma resolveImage_index (map : gmap str str) (title : str) :
  index_ok map ->
  resolveImage unicodeLowerCase (Some map) title =
  default DEFAULT_IMAGE (map !! title_key unicodeLowerCase (Some title)).
Proof.
  intros Hok. unfold resolveImage.
  generalize (Hok (title_key unicodeLowerCase (Some title))).
  generalize (title_key unicodeLowerCase (Some title)). intros key.
  destruct (map !! key) as [v|]; intros H.
  - destruct (H v eq_refl) as [Hk Hv].
    destruct key; [congruence|]. destruct v; [congruence|]. reflexivity.
  - destruct key; reflexivity.
Qed.

End Env.

End ImageResolverFacts.

(** ** Scanning and [stripTags] *)

Module TagStripperFacts.

#[local] Arguments tag_match : simpl never.
#[local] Arguments ws_match : simpl never.
#[local] Arguments removeTags : simpl never.
#[local] Arguments collapseSpaces : simpl never.

Lemma str_length_ind (P : list N -> Prop) :
  (forall s, (forall t, (length t < length s)%nat -> P t) -> P s) ->
  forall s, P s.
Proof.
  intros H s. remember (length s) as n eqn:Hn. revert s Hn.
  induction n as [n IH] using lt_wf_ind. intros s ->.
  apply H. intros t Ht. eapply IH; [exact Ht | reflexivity].
Qed.

Lemma scan_skip_app {A} (m : list N -> option (A * nat)) (k : nat) (a b : str) :
  k = length a -> scan m k (a ++ b) = scan m 0 b.
Proof.
  intros ->. induction a as [|c a IH]; simpl; [|exact IH].
  destruct b; reflexivity.
Qed.

Lemma break_at_Some (f : N -> bool) (s a b : str) :
  break_at f s = Some (a, b) ->
  exists c, f c = true /\ s = a ++ c :: b /\ forallb (fun x => negb (f x)) a = true.
Proof.
  revert a b. induction s as [|x s IH]; simpl; intros a b H; [discriminate|].
  destruct (f x) eqn:Hx.
  - inversion H; subst. exists x. auto.
  - destruct (break_at f s) as [[a' b']|]; [|discriminate].
    inversion H; subst. destruct (IH _ _ eq_refl) as (c & Hc & -> & Ha).
    exists c. simpl. rewrite Hx. auto.
Qed.

Lemma break_at_None (f : N -> bool) (s : str) :
  break_at f s = None <-> forallb (fun x => negb (f x)) s = true.
Proof.
  induction s as [|x s IH]; simpl; [tauto|].
  destruct (f x); simpl; [split; discriminate|].
  rewrite <- IH. destruct (break_at f s) as [[? ?]|]; split; congruence.
Qed.

Lemma break_at_app (f : N -> bool) (a b : str) (c : N) :
  forallb (fun x => negb (f x)) a = true -> f c = true ->
  break_at f (a ++ c :: b) = Some (a, b).
Proof.
  induction a as [|x a IH]; simpl; intros Ha Hc.
  - now rewrite Hc.
  - apply andb_true_iff in Ha. destruct Ha as [Hx Ha].
    apply negb_true_iff in Hx. rewrite Hx, IH by assumption. reflexivity.
Qed.

Lemma takeWhile_dropWhile (f : N -> bool) (s : str) :
  takeWhile f s ++ dropWhile f s = s.
Proof.
  induction s as [|c s IH]; simpl; [reflexivity|].
  destruct (f c); simpl; congruence.
Qed.

Lemma dropWhile_head (f : N -> bool) (s : str) :
  match dropWhile f s with [] => True | d :: _ => f d = false end.
Proof.
  induction s as [|c s IH]; simpl; [exact I|].
  destruct (f c) eqn:E; [exact IH | exact E].
Qed.

Lemma dropWhile_length (f : N -> bool) (s : str) :
  (length (dropWhile f s) <= length s)%nat.
Proof.
  induction s as [|c s IH]; simpl; [lia|]. destruct (f c); simpl; lia.
Qed.

Lemma dropWhile_id (f : N -> bool) (s : str) :
  match s with [] => True | d :: _ => f d = false end -> dropWhile f s = s.
Proof. destruct s as [|d s]; simpl; [reflexivity|]. now intros ->. Qed.

(** *** Unfolding the two replacements of [stripTags] *)

Lemma removeTags_cons (c : N) (s : str) :
  removeTags (c :: s) =
  match tag_match (c :: s) with
  | Some _ =>
      match break_at is_gt s with
      | Some (_, rest) => removeTags rest
      | None => []
      end
  | None => c :: removeTags s
  end.
Proof.
  unfold removeTags, replaceAll. simpl scan. unfold tag_match.
  destruct (c =? 60)%N; [|reflexivity].
  destruct (break_at is_gt s) as [[[|b body] rest]|] eqn:Hb; try reflexivity.
  apply break_at_Some in Hb. destruct Hb as (g & _ & -> & _).
  simpl.
  replace (body ++ g :: rest) with ((body ++ [g]) ++ rest)
    by now rewrite <- app_assoc.
  rewrite (scan_skip_app _ _ (body ++ [g]) rest); [reflexivity|].
  rewrite length_app. simpl. lia.
Qed.

Lemma collapseSpaces_cons (c : N) (s : str) :
  collapseSpaces (c :: s) =
  if is_ws c then 32%N :: collapseSpaces (dropWhile is_ws s)
  else c :: collapseSpaces s.
Proof.
  unfold collapseSpaces, replaceAll. simpl scan. unfold ws_match. simpl takeWhile.
  destruct (is_ws c); [|reflexivity].
  simpl length. simpl flat_map.
  rewrite <- (takeWhile_dropWhile is_ws s) at 2.
  rewrite scan_skip_app; reflexivity.
Qed.

Lemma removeTags_nil : removeTags [] = [].
Proof. reflexivity. Qed.

Lemma collapseSpaces_nil : collapseSpaces [] = [].
Proof. reflexivity. Qed.

(** *** The characters of the results come from the input *)

Lemma removeTags_chars (P : N -> bool) (s : str) :
  forallb P s = true -> forallb P (removeTags s) = true.
Proof.
  induction s as [s IH] using str_length_ind. destruct s as [|c s].
  - reflexivity.
  - rewrite removeTags_cons. simpl. intros H.
    apply andb_true_iff in H. destruct H as [Hc Hs].
    destruct (tag_match (c :: s)).
    + destruct (break_at is_gt s) as [[a rest]|] eqn:Hb; [|reflexivity].
      apply break_at_Some in Hb. destruct Hb as (g & _ & -> & _).
      rewrite forallb_app in Hs. simpl in Hs.
      apply andb_true_iff in Hs. destruct Hs as [_ Hs].
      apply andb_true_iff in Hs. destruct Hs as [_ Hs].
      apply IH; [|exact Hs]. simpl. rewrite length_app. simpl. lia.
    + simpl. rewrite Hc. apply IH; [simpl; lia | exact Hs].
Qed.

Lemma forallb_dropWhile (P f : N -> bool) (s : str) :
  forallb P s = true -> forallb P (dropWhile f s) = true.
Proof.
  induction s as [|c s IH]; simpl; [reflexivity|]. intros H.
  destruct (f c); [|exact H].
  apply andb_true_iff in H. apply IH, H.
Qed.

Lemma collapseSpaces_chars (P : N -> bool) (s : str) :
  P 32%N = true -> forallb P s = true -> forallb P (collapseSpaces s) = true.
Proof.
  intros H32. induction s as [s IH] using str_length_ind.
  destruct s as [|c s]; [reflexivity|].
  rewrite collapseSpaces_cons. simpl. intros H.
  apply andb_true_iff in H. destruct H as [Hc Hs].
  destruct (is_ws c); simpl.
  - rewrite H32. apply IH.
    + pose proof (dropWhile_length is_ws s). simpl. lia.
    + now apply forallb_dropWhile.
  - rewrite Hc. apply IH; [simpl; lia | exact Hs].
Qed.

(** *** No tag is left *)

Lemma no_match_dropWhile {A} (m : list N -> option (A * nat))
      (f : N -> bool) (s : str) :
  no_match m s -> no_match m (dropWhile f s).
Proof.
  induction s as [|c s IH]; simpl; [tauto|]. intros [H1 H2].
  destruct (f c); [apply IH, H2 | split; assumption].
Qed.

Lemma tag_match_None (c : N) (s : str) :
  tag_match (c :: s) = None <->
  c <> 60%N \/ break_at is_gt s = None \/ exists g r, is_gt g = true /\ s = g :: r.
Proof.
  unfold tag_match. destruct (N.eqb_spec c 60) as [->|Hc].
  - destruct (break_at is_gt s) as [[[|b body] rest]|] eqn:Hb.
    + apply break_at_Some in Hb. destruct Hb as (g & Hg & -> & _).
      split; [|reflexivity]. intros _. right. right. exists g, rest. auto.
    + split; [discriminate|]. intros [H|[H|(g & r & Hg & ->)]];
        [congruence | discriminate |].
      simpl in Hb. rewrite Hg in Hb. discriminate.
    + tauto.
  - tauto.
Qed.

Lemma removeTags_no_match (s : str) : no_match tag_match (removeTags s).
Proof.
  induction s as [s IH] using str_length_ind. destruct s as [|c s].
  - simpl. auto.
  - rewrite removeTags_cons. destruct (tag_match (c :: s)) eqn:Ht.
    + destruct (break_at is_gt s) as [[a rest]|] eqn:Hb; [|simpl; auto].
      apply break_at_Some in Hb. destruct Hb as (g & _ & -> & _).
      apply IH. simpl. rewrite length_app. simpl. lia.
    + split; [|apply IH; simpl; lia].
      apply tag_match_None. apply tag_match_None in Ht.
      destruct Ht as [H|[H|(g & r & Hg & ->)]]; [tauto | |].
      * right. left. apply break_at_None. apply break_at_None in H.
        now apply removeTags_chars.
      * right. right. exists g, (removeTags r). split; [exact Hg|].
        rewrite removeTags_cons.
        assert (Hn : tag_match (g :: r) = None).
        { apply tag_match_None. left. unfold is_gt in Hg.
          apply N.eqb_eq in Hg. lia. }
        now rewrite Hn.
Qed.

Lemma collapseSpaces_no_tag (s : str) :
  no_match tag_match s -> no_match tag_match (collapseSpaces s).
Proof.
  induction s as [s IH] using str_length_ind. destruct s as [|c s].
  - simpl. auto.
  - intros [Ht Hs]. rewrite collapseSpaces_cons.
    destruct (is_ws c) eqn:Hc.
    + split; [reflexivity|]. apply IH.
      * pose proof (dropWhile_length is_ws s). simpl. lia.
      * now apply no_match_dropWhile.
    + split; [|apply IH; [simpl; lia | exact Hs]].
      apply tag_match_None. apply tag_match_None in Ht.
      destruct Ht as [H|[H|(g & r & Hg & ->)]]; [tauto | |].
      * right. left. apply break_at_None. apply break_at_None in H.
        now apply collapseSpaces_chars.
      * right. right. exists g, (collapseSpaces r). split; [exact Hg|].
        rewrite collapseSpaces_cons.
        unfold is_gt in Hg. apply N.eqb_eq in Hg. subst g. reflexivity.
Qed.

Lemma no_tag_prefix (a b : str) :
  no_match tag_match (a ++ b) -> no_match tag_match a.
Proof.
  induction a as [|c a IH]; simpl app.
  - intros _. simpl. auto.
  - intros [Ht Hs]. split; [|apply IH, Hs].
    apply tag_match_None. apply tag_match_None in Ht.
    destruct Ht as [H|[H|(g & r & Hg & Hr)]]; [tauto | |].
    + right. left. apply break_at_None. apply break_at_None in H.
      rewrite forallb_app in H. now apply andb_true_iff in H.
    + destruct a as [|x a].
      * right. left. reflexivity.
      * right. right. exists g, a. simpl in Hr. inversion Hr. auto.
Qed.

Lemma trimEnd_app (s : str) : exists w, s = trimEnd s ++ w.
Proof.
  induction s as [|c s [w IH]]; [exists []; reflexivity|].
  simpl. destruct (trimEnd s) as [|x r] eqn:Hr.
  - destruct (is_ws c).
    + exists (c :: s). reflexivity.
    + exists w. simpl. f_equal. exact IH.
  - exists w. simpl. f_equal. exact IH.
Qed.

Lemma trim_no_tag (s : str) :
  no_match tag_match s -> no_match tag_match (trim s).
Proof.
  intros H. unfold trim, trimStart.
  apply (no_match_dropWhile _ is_ws) in H.
  destruct (trimEnd_app (dropWhile is_ws s)) as [w Hw].
  rewrite Hw in H. now apply no_tag_prefix in H.
Qed.

Lemma stripTags_no_tag (s : str) : no_match tag_match (stripTags s).
Proof.
  apply trim_no_tag, collapseSpaces_no_tag, removeTags_no_match.
Qed.

Lemma removeTags_id (s : str) : no_match tag_match s -> removeTags s = s.
Proof.
  induction s as [|c s IH]; [reflexivity|].
  intros [Ht Hs]. rewrite removeTags_cons, Ht, IH by exact Hs. reflexivity.
Qed.

(** *** Whitespace is normalised *)

Lemma collapseSpaces_head (s : str) :
  match s with [] => True | d :: _ => is_ws d = false end ->
  match collapseSpaces s with [] => True | d :: _ => is_ws d = false end.
Proof.
  destruct s as [|d s]; [intros _; exact I|].
  intros Hd. rewrite collapseSpaces_cons, Hd. exact Hd.
Qed.

Lemma collapseSpaces_normal (s : str) : ws_normal (collapseSpaces s).
Proof.
  induction s as [s IH] using str_length_ind. destruct s as [|c s].
  - exact I.
  - rewrite collapseSpaces_cons. destruct (is_ws c) eqn:Hc.
    + split.
      * intros _. split; [reflexivity|].
        apply collapseSpaces_head, dropWhile_head.
      * apply IH. pose proof (dropWhile_length is_ws s). simpl. lia.
    + split; [congruence|]. apply IH. simpl. lia.
Qed.

Lemma collapseSpaces_id (s : str) : ws_normal s -> collapseSpaces s = s.
Proof.
  induction s as [|c s IH]; [reflexivity|].
  intros [Hc Hs]. rewrite collapseSpaces_cons.
  destruct (is_ws c) eqn:Hw.
  - destruct (Hc eq_refl) as [-> Hd].
    rewrite dropWhile_id by exact Hd. now rewrite IH.
  - now rewrite IH.
Qed.

Lemma ws_normal_dropWhile (f : N -> bool) (s : str) :
  ws_normal s -> ws_normal (dropWhile f s).
Proof.
  induction s as [|c s IH]; simpl; [tauto|]. intros [H1 H2].
  destruct (f c); [apply IH, H2 | split; assumption].
Qed.

Lemma ws_normal_prefix (a b : str) : ws_normal (a ++ b) -> ws_normal a.
Proof.
  induction a as [|c a IH]; simpl app; [intros _; exact I|].
  intros [Hc Hs]. split; [|apply IH, Hs].
  intros Hw. destruct (Hc Hw) as [-> Hd]. split; [reflexivity|].
  destruct a; [exact I | exact Hd].
Qed.

Lemma trim_ws_normal (s : str) : ws_normal s -> ws_normal (trim s).
Proof.
  intros H. unfold trim, trimStart.
  apply (ws_normal_dropWhile is_ws) in H.
  destruct (trimEnd_app (dropWhile is_ws s)) as [w Hw].
  rewrite Hw in H. now apply ws_normal_prefix in H.
Qed.

(** *** [trim] is idempotent *)

Lemma trimEnd_idem (s : str) : trimEnd (trimEnd s) = trimEnd s.
Proof.
  induction s as [|c s IH]; [reflexivity|].
  simpl. destruct (trimEnd s) as [|x r] eqn:Hr.
  - destruct (is_ws c) eqn:Hc; [reflexivity|]. simpl. now rewrite Hc.
  - change (trimEnd (c :: x :: r)) with
      (match trimEnd (x :: r) with
       | [] => if is_ws c then [] else [c]
       | y :: r' => c :: y :: r'
       end).
    now rewrite IH.
Qed.

Lemma trimEnd_head (s : str) :
  match s with [] => True | d :: _ => is_ws d = false end ->
  match trimEnd s with [] => True | d :: _ => is_ws d = false end.
Proof.
  destruct s as [|d s]; [intros _; exact I|].
  intros Hd. simpl. destruct (trimEnd s); [rewrite Hd|]; exact Hd.
Qed.

Lemma trim_idem (s : str) : trim (trim s) = trim s.
Proof.
  unfold trim, trimStart.
  rewrite (dropWhile_id is_ws (trimEnd _)).
  - apply trimEnd_idem.
  - apply trimEnd_head, dropWhile_head.
Qed.

Lemma stripTags_fixed (s : str) : stripTags (stripTags s) = stripTags s.
Proof.
  unfold stripTags at 1.
  rewrite removeTags_id by apply stripTags_no_tag.
  rewrite collapseSpaces_id.
  - unfold stripTags. apply trim_idem.
  - unfold stripTags. apply trim_ws_normal, collapseSpaces_normal.
Qed.

(** C6: [stripTags] is idempotent, [stripTags(stripTags(x))] is
    [stripTags(x)] for every string [x], and
    [stripTags("<b>Hello</b>  World")] is ["Hello World"]. *)
Theorem stripTags_idempotent :
  (forall x : str, stripTags (stripTags x) = stripTags x)
  /\ stripTags (lit "<b>Hello</b>  World") = lit "Hello World".
Proof.
  split; [exact stripTags_fixed | reflexivity].
Qed.

End TagStripperFacts.

(** ** The calendar arithmetic of [Date] *)

Module DateFacts.

Ltac zdm := Z.div_mod_to_equations; lia.

Ltac case_zeqb :=
  repeat match goal with
         | |- context [?a =? ?b] => destruct (Z.eqb_spec a b)
         end.

Lemma DaysInYear_cases (y : Z) : DaysInYear y = 365 \/ DaysInYear y = 366.
Proof. unfold DaysInYear. case_zeqb; simpl; auto. Qed.

Lemma DayFromYear_step (y : Z) :
  DayFromYear (y + 1) = DayFromYear y + DaysInYear y.
Proof.
  unfold DayFromYear, DaysInYear. case_zeqb; simpl negb; cbv iota; zdm.
Qed.

Lemma DayFromYear_mono (a b : Z) : a <= b -> DayFromYear a <= DayFromYear b.
Proof. intros H. unfold DayFromYear. zdm. Qed.

(** [YearFromTime t] is the year that contains the day of [t]. *)
Lemma YearFromTime_spec (t : Z) :
  DayFromYear (YearFromTime t) <= Day t < DayFromYear (YearFromTime t + 1).
Proof.
  unfold YearFromTime. generalize (Day t). intros d. cbv zeta.
  destruct (Z.ltb_spec d (DayFromYear (1970 + d * 400 / 146097))).
  - unfold DayFromYear in *. zdm.
  - destruct (Z.leb_spec (DayFromYear (1970 + d * 400 / 146097 + 1)) d).
    + unfold DayFromYear in *. zdm.
    + lia.
Qed.

Lemma YearFromTime_unique (t y : Z) :
  DayFromYear y <= Day t < DayFromYear (y + 1) -> YearFromTime t = y.
Proof.
  intros H. pose proof (YearFromTime_spec t) as S.
  destruct (Z.lt_trichotomy (YearFromTime t) y) as [L|[E|G]]; [|exact E|].
  - pose proof (DayFromYear_mono (YearFromTime t + 1) y). lia.
  - pose proof (DayFromYear_mono (y + 1) (YearFromTime t)). lia.
Qed.

Lemma DayWithinYear_range (t : Z) :
  0 <= DayWithinYear t < DaysInYear (YearFromTime t).
Proof.
  unfold DayWithinYear. pose proof (YearFromTime_spec t) as S.
  rewrite DayFromYear_step in S. lia.
Qed.

Lemma time_of_day (day tod : Z) :
  0 <= tod < msPerDay -> Day (MakeDate day tod) = day.
Proof. unfold Day, MakeDate, msPerDay. intros H. zdm. Qed.

Lemma InLeapYear_eq (t : Z) :
  InLeapYear t = if DaysInYear (YearFromTime t) =? 366 then 1 else 0.
Proof. reflexivity. Qed.

Lemma MakeDay_in_year (y mo d : Z) :
  1 <= mo <= 12 ->
  MakeDay y (mo - 1) d = DayFromYear y + DaysBeforeMonth y (mo - 1) + d - 1.
Proof.
  intros H. unfold MakeDay.
  replace ((mo - 1) / 12) with 0 by zdm.
  replace ((mo - 1) mod 12) with (mo - 1) by zdm.
  now rewrite Z.add_0_r.
Qed.

Ltac month_cases mo H :=
  assert (mo = 1 \/ mo = 2 \/ mo = 3 \/ mo = 4 \/ mo = 5 \/ mo = 6 \/
          mo = 7 \/ mo = 8 \/ mo = 9 \/ mo = 10 \/ mo = 11 \/ mo = 12)
    as H by lia;
  repeat (destruct H as [H|H]); subst mo.

Ltac case_ltb :=
  repeat match goal with
         | |- context [?a <? ?b] => destruct (Z.ltb_spec a b); try lia
         end.

(** Reading back the instant of a valid wall-clock time gives that time. *)
Lemma reading_of_instant (y mo d h mi s : Z) :
  valid_civil y mo d h mi s ->
  utc_reading (utc_instant y mo d h mi s) = (y, mo, d, h, mi, s).
Proof.
  intros (Hmo & Hd & Hh & Hmi & Hs).
  unfold utc_reading, utc_instant.
  set (tod := MakeTime h mi s 0).
  assert (Htod : 0 <= tod < msPerDay).
  { unfold tod, MakeTime, msPerDay, msPerHour, msPerMinute, msPerSecond. lia. }
  set (t := MakeDate (MakeDay y (mo - 1) d) tod).
  assert (HD : Day t = MakeDay y (mo - 1) d) by now apply time_of_day.
  rewrite MakeDay_in_year in HD by exact Hmo.
  pose proof (DaysInYear_cases y) as Hly.
  assert (Hdwy : 0 <= DaysBeforeMonth y (mo - 1) + d - 1 < DaysInYear y).
  { unfold DaysBeforeMonth, DaysInMonth in *.
    month_cases mo Hc; simpl in *; destruct Hly as [E|E]; rewrite E in *; simpl in *; lia. }
  assert (HY : YearFromTime t = y).
  { apply YearFromTime_unique. rewrite DayFromYear_step. lia. }
  assert (HW : DayWithinYear t = DaysBeforeMonth y (mo - 1) + d - 1).
  { unfold DayWithinYear. rewrite HY. lia. }
  assert (HM : MonthFromTime t = mo - 1).
  { unfold MonthFromTime. rewrite HW, InLeapYear_eq, HY.
    unfold DaysBeforeMonth, DaysInMonth in *.
    month_cases mo Hc; simpl in *; destruct Hly as [E|E]; rewrite E in *; simpl in *;
      cbv zeta; case_ltb. }
  assert (HDt : DateFromTime t = d).
  { unfold DateFromTime. rewrite HM, HW, InLeapYear_eq, HY.
    unfold DaysBeforeMonth.
    month_cases mo Hc; simpl; destruct Hly as [E|E]; rewrite E in *; simpl; lia. }
  rewrite HY, HM, HDt.
  assert (Ht : t = (DayFromYear y + DaysBeforeMonth y (mo - 1) + d - 1) * 86400000
                   + h * 3600000 + mi * 60000 + s * 1000).
  { unfold t, MakeDate, tod, MakeTime, msPerDay, msPerHour, msPerMinute,
      msPerSecond. rewrite MakeDay_in_year by exact Hmo. lia. }
  unfold HourFromTime, MinFromTime, SecFromTime, msPerHour, msPerMinute,
    msPerSecond. rewrite Ht.
  generalize (DayFromYear y + DaysBeforeMonth y (mo - 1) + d - 1). intros day.
  repeat f_equal; [lia | zdm | zdm | zdm].
Qed.

Lemma calendar_of_day (t : Z) :
  0 <= MonthFromTime t <= 11 /\
  1 <= DateFromTime t <= DaysInMonth (YearFromTime t) (MonthFromTime t + 1) /\
  DaysBeforeMonth (YearFromTime t) (MonthFromTime t) + DateFromTime t - 1
  = DayWithinYear t.
Proof.
  pose proof (DayWithinYear_range t) as R.
  unfold DateFromTime, MonthFromTime, DaysBeforeMonth, DaysInMonth.
  rewrite InLeapYear_eq.
  revert R. generalize (DayWithinYear t). intros dwy R.
  destruct (DaysInYear_cases (YearFromTime t)) as [E|E]; rewrite E in *;
    simpl; cbv zeta;
    repeat (match goal with
            | |- context [?a <? ?b] =>
                destruct (Z.ltb_spec a b); simpl; try lia
            end).
Qed.

(** The wall-clock reading of an instant is a valid time, and names the
    instant up to its milliseconds. *)
Lemma instant_of_reading (t : Z) :
  let '(y, mo, d, h, mi, s) := utc_reading t in
  valid_civil y mo d h mi s /\ utc_instant y mo d h mi s = t - t mod 1000.
Proof.
  unfold utc_reading, valid_civil, utc_instant.
  destruct (calendar_of_day t) as (HM & HD & HW).
  split.
  - split; [lia|]. split; [exact HD|].
    unfold HourFromTime, MinFromTime, SecFromTime. zdm.
  - replace (MonthFromTime t + 1 - 1) with (MonthFromTime t) by lia.
    unfold MakeDay.
    replace (MonthFromTime t / 12) with 0 by zdm.
    replace (MonthFromTime t mod 12) with (MonthFromTime t) by zdm.
    rewrite Z.add_0_r.
    replace (DayFromYear (YearFromTime t)
             + DaysBeforeMonth (YearFromTime t) (MonthFromTime t)
             + DateFromTime t - 1) with (Day t)
      by (unfold DayWithinYear in HW; lia).
    unfold MakeDate, MakeTime, Day, HourFromTime, MinFromTime, SecFromTime,
      msPerDay, msPerHour, msPerMinute, msPerSecond.
    zdm.
Qed.

End DateFacts.

(** ** TimeCodec *)

Module TimeCodecFacts.
Import DateFacts.

(** Boolean tests on code units, as propositions. *)
Ltac bool_N :=
  unfold is_ws, is_sign, is_digit, is_word, is_upper, is_lower, ci_eq, is_gt,
    is_name, is_quote in *;
  repeat match goal with
         | H : _ && _ = true |- _ => apply andb_true_iff in H; destruct H
         | H : _ || _ = true |- _ => apply orb_true_iff in H; destruct H
         | H : _ || _ = false |- _ => apply orb_false_iff in H; destruct H
         | H : (_ =? _)%N = true |- _ => apply N.eqb_eq in H
         | H : (_ =? _)%N = false |- _ => apply N.eqb_neq in H
         | H : (_ <=? _)%N = true |- _ => apply N.leb_le in H
         | H : (_ <=? _)%N = false |- _ => apply N.leb_gt in H
         end.

Lemma digit_range (c : N) : is_digit c = true -> (48 <= c <= 57)%N.
Proof. intros H. bool_N. lia. Qed.

Lemma eqb_of_digit (c k : N) :
  is_digit c = true -> (k < 48 \/ 57 < k)%N -> (c =? k)%N = false.
Proof. intros H Hk. apply digit_range in H. apply N.eqb_neq. lia. Qed.

Lemma ws_not_designator (c : N) :
  is_ws c = true -> is_sign c = false /\ ci_eq 90%N c = false.
Proof.
  intros H. unfold is_sign, ci_eq, is_lower, is_upper. simpl.
  bool_N; subst;
    repeat match goal with
           | |- context [(?a =? ?b)%N] => destruct (N.eqb_spec a b); try lia
           end; auto.
Qed.

Lemma tz_token_ws (c : N) (r : str) : is_ws c = true -> tz_token (c :: r) = None.
Proof.
  intros H. destruct (ws_not_designator c H) as [Hs Hz].
  unfold tz_token, tz_alt1, tz_alt2, tz_altZ. now rewrite Hs, Hz.
Qed.

Lemma tz_group_dropWhile (r : str) :
  tz_group r = tz_token (dropWhile is_ws r).
Proof.
  induction r as [|c r IH]; [reflexivity|].
  simpl. destruct (is_ws c) eqn:Hc; [|reflexivity].
  rewrite IH. destruct (tz_token (dropWhile is_ws r)); [reflexivity|].
  now apply tz_token_ws.
Qed.

Lemma dropWhile_app_all (f : N -> bool) (a b : str) :
  forallb f a = true -> dropWhile f (a ++ b) = dropWhile f b.
Proof.
  induction a as [|c a IH]; simpl; [reflexivity|]. intros H.
  apply andb_true_iff in H. destruct H as [-> H]. now apply IH.
Qed.

Lemma match_timestamp_app (ds rest : str) :
  all_digits 14 ds ->
  match_timestamp (ds ++ rest) = Some (ds, tz_token (dropWhile is_ws rest)).
Proof.
  intros [Hl Hd]. unfold match_timestamp, digits14.
  rewrite firstn_app, Hl, firstn_all2 by lia. simpl firstn. rewrite app_nil_r.
  rewrite Hd, Hl. simpl.
  rewrite skipn_app, Hl, skipn_all2 by lia. simpl.
  now rewrite tz_group_dropWhile.
Qed.

Lemma Number_decimal (s : str) : Number s = decimal s.
Proof.
  unfold Number.
  assert (H : forall acc,
             fold_left (fun a c => 10 * a + (Z.of_N c - 48)) s acc
             = acc * 10 ^ Z.of_nat (length s) + decimal s).
  { induction s as [|c s IH]; intros acc; simpl decimal; simpl fold_left.
    - simpl. lia.
    - rewrite IH. simpl length. rewrite Nat2Z.inj_succ, Z.pow_succ_r by lia.
      ring. }
  rewrite H. lia.
Qed.

Lemma all_digits_2 (s : str) :
  all_digits 2 s ->
  exists a b, s = [a; b] /\ is_digit a = true /\ is_digit b = true.
Proof.
  intros [Hl Hd]. destruct s as [|a [|b [|c s]]]; try discriminate.
  simpl in Hd. apply andb_true_iff in Hd. destruct Hd as [Ha Hb].
  rewrite andb_true_r in Hb. eauto.
Qed.

Lemma decimal_2 (a b : N) :
  is_digit a = true -> is_digit b = true -> 0 <= decimal [a; b] <= 99.
Proof.
  intros Ha Hb. apply digit_range in Ha, Hb. simpl. lia.
Qed.

(** A numeric offset at the head of the text is the designator taken. *)
Lemma tz_token_numeric (sg : N) (hh colon mm rest : str) :
  is_sign sg = true -> all_digits 2 hh -> all_digits 2 mm ->
  colon = [] \/ colon = [58%N] ->
  tz_token (sg :: hh ++ colon ++ mm ++ rest) = Some (sg :: hh ++ colon ++ mm).
Proof.
  intros Hs Hh Hm Hc.
  destruct (all_digits_2 _ Hh) as (a & b & -> & Ha & Hb).
  destruct (all_digits_2 _ Hm) as (c & d & -> & Hc' & Hd).
  assert (Hc58 : (c =? 58)%N = false) by (apply eqb_of_digit; auto; lia).
  unfold tz_token, tz_alt1, two_digits.
  destruct Hc as [-> | ->]; simpl; cbv zeta;
    rewrite ?Hs, ?Ha, ?Hb, ?Hc', ?Hd, ?Hc58; simpl;
    rewrite ?Hs, ?Ha, ?Hb, ?Hc', ?Hd, ?Hc58; reflexivity.
Qed.

Lemma offsetMinutes_numeric (sg : N) (hh colon mm : str) :
  is_sign sg = true -> all_digits 2 hh -> all_digits 2 mm ->
  colon = [] \/ colon = [58%N] ->
  offsetMinutes (sg :: hh ++ colon ++ mm) = offset_minutes sg hh mm.
Proof.
  intros Hs Hh Hm Hc.
  destruct (all_digits_2 _ Hh) as (a & b & -> & Ha & Hb).
  destruct (all_digits_2 _ Hm) as (c & d & -> & Hc' & Hd).
  assert (Hsg : (sg =? 58)%N = false) by (bool_N; subst; reflexivity).
  unfold offsetMinutes, offset_minutes.
  destruct Hc as [-> | ->]; simpl remove_first_colon;
    rewrite Hsg, ?(eqb_of_digit a 58), ?(eqb_of_digit b 58),
      ?(eqb_of_digit c 58), ?(eqb_of_digit d 58) by (auto; lia);
    unfold slice; simpl firstn; rewrite !Number_decimal; reflexivity.
Qed.

Lemma numeric_not_Z (sg : N) (t : str) :
  is_sign sg = true ->
  negb (str_eqb (List.map upper_ascii (sg :: t)) (lit "Z")) = true.
Proof.
  intros Hs. apply negb_true_iff, str_eqb_neq. simpl.
  assert (upper_ascii sg <> 90%N).
  { bool_N; subst; discriminate. }
  intros E. inversion E. contradiction.
Qed.

(** What the designator can be. *)
Lemma tz_token_shape (r tok : str) :
  tz_token r = Some tok ->
  (exists z, ci_eq 90%N z = true /\ tok = [z]) \/
  (exists sg hh colon mm,
      is_sign sg = true /\ all_digits 2 hh /\ all_digits 2 mm /\
      (colon = [] \/ colon = [58%N]) /\ tok = sg :: hh ++ colon ++ mm).
Proof.
  unfold tz_token.
  assert (H2 : forall x hh' r', two_digits x = Some (hh', r') -> all_digits 2 hh').
  { intros x hh' r'. unfold two_digits.
    destruct x as [|a [|b x]]; try discriminate.
    destruct (is_digit a) eqn:Ha; [|discriminate].
    destruct (is_digit b) eqn:Hb; [|discriminate].
    simpl. intros E. inversion E; subst. split; [reflexivity|].
    simpl. now rewrite Ha, Hb. }
  destruct (tz_alt1 r) as [t1|] eqn:E1.
  { intros E. inversion E; subst tok. right. unfold tz_alt1 in E1.
    destruct r as [|sg r1]; [discriminate|].
    destruct (is_sign sg) eqn:Hs; [|discriminate].
    destruct (two_digits r1) as [[hh r2]|] eqn:Eh; [|discriminate].
    assert (Hnc : match two_digits r2 with
                  | Some (mm, _) => Some (sg :: hh ++ mm)
                  | None => None
                  end = Some t1 ->
                  exists sg hh colon mm,
                    is_sign sg = true /\ all_digits 2 hh /\ all_digits 2 mm /\
                    (colon = [] \/ colon = [58%N]) /\ t1 = sg :: hh ++ colon ++ mm).
    { destruct (two_digits r2) as [[mm r3]|] eqn:Em; [|discriminate].
      intros E'. inversion E'. exists sg, hh, [], mm. eauto 10. }
    destruct r2 as [|c r3]; [exact (Hnc E1)|].
    destruct (c =? 58)%N eqn:Hc; [|exact (Hnc E1)].
    destruct (two_digits r3) as [[mm r4]|] eqn:Em; [|exact (Hnc E1)].
    inversion E1. apply N.eqb_eq in Hc. subst c.
    exists sg, hh, [58%N], mm. eauto 10. }
  destruct (tz_alt2 r) as [t2|] eqn:E2.
  { intros E. inversion E; subst tok. right. unfold tz_alt2 in E2.
    destruct r as [|sg r1]; [discriminate|].
    destruct (is_sign sg) eqn:Hs; [|discriminate].
    destruct (two_digits r1) as [[hh r2]|] eqn:Eh; [|discriminate].
    destruct (two_digits r2) as [[mm r3]|] eqn:Em; [|discriminate].
    inversion E2. exists sg, hh, [], mm. eauto 10. }
  unfold tz_altZ. destruct r as [|z r]; [discriminate|].
  destruct (ci_eq 90%N z) eqn:Hz; [|discriminate].
  intros E. inversion E. left. eauto.
Qed.


Lemma DaysBeforeMonth_range (ym mn : Z) : 0 <= DaysBeforeMonth ym mn <= 335.
Proof.
  unfold DaysBeforeMonth. destruct (DaysInYear ym =? 366);
    repeat match goal with
           | |- context [match ?x with _ => _ end] => destruct x
           end; lia.
Qed.

(** The six fields of a timestamp, as the slices that the parser takes. *)
Lemma fields_of_slices (ds : str) :
  Number (slice 0 4 ds) = field 0 4 ds /\
  Number (slice 4 6 ds) = field 4 2 ds /\
  Number (slice 6 8 ds) = field 6 2 ds /\
  Number (slice 8 10 ds) = field 8 2 ds /\
  Number (slice 10 12 ds) = field 10 2 ds /\
  Number (slice 12 14 ds) = field 12 2 ds.
Proof. unfold slice, field. rewrite !Number_decimal. tauto. Qed.

Lemma fields_range (ds : str) :
  all_digits 14 ds ->
  0 <= field 0 4 ds <= 9999 /\ 0 <= field 4 2 ds <= 99 /\
  0 <= field 6 2 ds <= 99 /\ 0 <= field 8 2 ds <= 99 /\
  0 <= field 10 2 ds <= 99 /\ 0 <= field 12 2 ds <= 99.
Proof.
  intros [Hl Hd].
  do 14 (destruct ds as [|? ds]; [discriminate|]).
  destruct ds; [|discriminate].
  simpl in Hd.
  repeat match goal with
         | H : _ && _ = true |- _ => apply andb_true_iff in H; destruct H
         end.
  repeat match goal with
         | H : is_digit _ = true |- _ => apply digit_range in H
         end.
  unfold field. simpl. lia.
Qed.

(** [Date.UTC] on the fields of a timestamp never gives NaN; from year 100
    on it is the instant that the fields write. *)
Lemma Date_UTC_fields (y mo d h mi s : Z) :
  0 <= y <= 9999 -> 0 <= mo <= 99 -> 0 <= d <= 99 -> 0 <= h <= 99 ->
  0 <= mi <= 99 -> 0 <= s <= 99 ->
  exists u, Date_UTC y (mo - 1) d h mi s = Some u /\
            Z.abs u <= 400000000000000 /\
            (100 <= y -> u = utc_instant y mo d h mi s).
Proof.
  intros Hy Hmo Hd Hh Hmi Hs. unfold Date_UTC, utc_instant.
  set (yr := if (0 <=? y) && (y <=? 99) then 1900 + y else y).
  assert (Hyr : 0 <= yr <= 9999 /\ (100 <= y -> yr = y)).
  { unfold yr. destruct (Z.leb_spec 0 y), (Z.leb_spec y 99); simpl; lia. }
  set (u := MakeDate (MakeDay yr (mo - 1) d) (MakeTime h mi s 0)).
  assert (Hu : Z.abs u <= 400000000000000).
  { unfold u, MakeDate, MakeDay, MakeTime, msPerDay, msPerHour, msPerMinute,
      msPerSecond, DayFromYear.
    pose proof (DaysBeforeMonth_range (yr + (mo - 1) / 12) ((mo - 1) mod 12)).
    zdm. }
  exists u. split; [|split].
  - unfold TimeClip. destruct (Z.leb_spec (Z.abs u) 8640000000000000);
      [reflexivity | lia].
  - exact Hu.
  - intros H. unfold u. destruct Hyr as [_ Hyr]. now rewrite Hyr.
Qed.

Lemma trim_nil : trim [] = [].
Proof. reflexivity. Qed.

(** The parser on a text whose trimmed form starts with 14 digits. *)
Lemma parse_digits (raw ds rest : str) :
  all_digits 14 ds -> trim raw = ds ++ rest ->
  parseXmltvTime (Some raw) =
  Some (new_Date
          (let utcMillis :=
             Date_UTC (field 0 4 ds) (field 4 2 ds - 1) (field 6 2 ds)
                      (field 8 2 ds) (field 10 2 ds) (field 12 2 ds) in
           match tz_token (dropWhile is_ws rest) with
           | Some tz =>
               if negb (str_eqb (List.map upper_ascii tz) (lit "Z")) then
                 option_map (fun u => u - offsetMinutes tz * 60 * 1000)
                            utcMillis
               else utcMillis
           | None => utcMillis
           end)).
Proof.
  intros Hds Ht. destruct raw as [|c raw].
  - destruct Hds as [Hl _]. rewrite trim_nil in Ht.
    destruct ds; discriminate.
  - unfold parseXmltvTime. rewrite Ht, match_timestamp_app by exact Hds.
    cbv zeta.
    destruct (fields_of_slices ds) as (-> & -> & -> & -> & -> & ->).
    reflexivity.
Qed.


Lemma offset_value_numeric (sg : N) (hh colon mm : str) :
  all_digits 2 hh -> all_digits 2 mm -> colon = [] \/ colon = [58%N] ->
  offset_value (sg :: hh ++ colon ++ mm) = offset_minutes sg hh mm.
Proof.
  intros Hh Hm Hc.
  destruct (all_digits_2 _ Hh) as (a & b & -> & Ha & Hb).
  destruct (all_digits_2 _ Hm) as (c & d & -> & Hc' & Hd).
  unfold offset_value, offset_minutes.
  destruct Hc as [-> | ->]; simpl List.filter;
    rewrite Ha, Hb, Hc', Hd; reflexivity.
Qed.

Lemma offset_minutes_range (sg : N) (hh mm : str) :
  all_digits 2 hh -> all_digits 2 mm ->
  Z.abs (offset_minutes sg hh mm) <= 6039.
Proof.
  intros Hh Hm.
  destruct (all_digits_2 _ Hh) as (a & b & -> & Ha & Hb).
  destruct (all_digits_2 _ Hm) as (c & d & -> & Hc' & Hd).
  pose proof (decimal_2 a b Ha Hb). pose proof (decimal_2 c d Hc' Hd).
  unfold offset_minutes. destruct (sg =? 45)%N; lia.
Qed.

Lemma new_Date_small (u : Z) :
  Z.abs u <= 500000000000000 -> new_Date (Some u) = mkDate (Some u).
Proof.
  intros H. unfold new_Date, TimeClip.
  destruct (Z.leb_spec (Z.abs u) 8640000000000000); [reflexivity | lia].
Qed.

Lemma sign_not_ws (sg : N) : is_sign sg = true -> is_ws sg = false.
Proof.
  intros H. destruct (is_ws sg) eqn:E; [|reflexivity].
  apply ws_not_designator in E. destruct E. congruence.
Qed.

Lemma ci_eq_Z (z : N) : ci_eq 90%N z = true -> z = 90%N \/ z = 122%N.
Proof.
  unfold ci_eq. change (is_lower 90) with false. change (is_upper 90) with true.
  change (90 + 32)%N with 122%N. simpl andb. rewrite orb_false_r.
  intros H. apply orb_true_iff in H.
  destruct H as [H|H]; apply N.eqb_eq in H; auto.
Qed.

Lemma Z_not_ws (z : N) : ci_eq 90%N z = true -> is_ws z = false.
Proof.
  intros H. destruct (is_ws z) eqn:E; [|reflexivity].
  apply ws_not_designator in E. destruct E. congruence.
Qed.

(** The parser on 14 digits followed by a numeric offset. *)
Lemma parse_numeric (raw ds ws tok rest : str) :
  all_digits 14 ds -> forallb is_ws ws = true -> is_numeric_offset tok ->
  trim raw = ds ++ ws ++ tok ++ rest ->
  exists u,
    Date_UTC (field 0 4 ds) (field 4 2 ds - 1) (field 6 2 ds)
             (field 8 2 ds) (field 10 2 ds) (field 12 2 ds) = Some u /\
    (100 <= field 0 4 ds -> u = stamp_instant ds) /\
    parseXmltvTime (Some raw) =
    Some (mkDate (Some (u - offset_value tok * 60000))).
Proof.
  intros Hds Hws (sg & hh & colon & mm & Hs & Hh & Hm & Hc & ->) Ht.
  destruct (fields_range ds Hds) as (Ry & Rmo & Rd & Rh & Rmi & Rs).
  destruct (Date_UTC_fields _ _ _ _ _ _ Ry Rmo Rd Rh Rmi Rs)
    as (u & Hu & Hb & Hy).
  exists u. split; [exact Hu|]. split; [exact Hy|].
  rewrite (parse_digits raw ds _ Hds Ht). cbv zeta.
  rewrite dropWhile_app_all by exact Hws.
  replace ((sg :: hh ++ colon ++ mm) ++ rest)
    with (sg :: hh ++ colon ++ mm ++ rest)
    by (simpl; now rewrite <- !app_assoc).
  simpl dropWhile. rewrite (sign_not_ws sg Hs).
  rewrite tz_token_numeric, numeric_not_Z by assumption.
  rewrite Hu. simpl option_map.
  rewrite offsetMinutes_numeric, offset_value_numeric by assumption.
  pose proof (offset_minutes_range sg hh mm Hh Hm).
  rewrite new_Date_small by lia. do 3 f_equal. lia.
Qed.

(** The parser on 14 digits followed by no designator, or by [Z]. *)
Lemma parse_plain (raw ds rest : str) :
  all_digits 14 ds ->
  no_designator rest \/
  (exists ws z rest', forallb is_ws ws = true /\ ci_eq 90%N z = true /\
                      rest = ws ++ z :: rest') ->
  trim raw = ds ++ rest ->
  exists u,
    Date_UTC (field 0 4 ds) (field 4 2 ds - 1) (field 6 2 ds)
             (field 8 2 ds) (field 10 2 ds) (field 12 2 ds) = Some u /\
    (100 <= field 0 4 ds -> u = stamp_instant ds) /\
    parseXmltvTime (Some raw) = Some (mkDate (Some u)).
Proof.
  intros Hds Hr Ht.
  destruct (fields_range ds Hds) as (Ry & Rmo & Rd & Rh & Rmi & Rs).
  destruct (Date_UTC_fields _ _ _ _ _ _ Ry Rmo Rd Rh Rmi Rs)
    as (u & Hu & Hb & Hy).
  exists u. split; [exact Hu|]. split; [exact Hy|].
  rewrite (parse_digits raw ds _ Hds Ht). cbv zeta. rewrite Hu.
  assert (Hn : new_Date (Some u) = mkDate (Some u))
    by (apply new_Date_small; lia).
  destruct Hr as [Hr | (ws & z & rest' & Hws & Hz & ->)].
  - unfold no_designator in Hr.
    destruct (dropWhile is_ws rest) as [|c r];
      [change (tz_token []) with (@None (list N)); cbv iota; now rewrite Hn|].
    destruct Hr as [Hs Hz].
    unfold tz_token, tz_alt1, tz_alt2, tz_altZ.
    cbv beta iota. rewrite Hs. cbv beta iota. rewrite Hz. exact (f_equal _ Hn).
  - rewrite dropWhile_app_all by exact Hws.
    simpl dropWhile. rewrite (Z_not_ws z Hz).
    assert (Hs : is_sign z = false).
    { destruct (ci_eq_Z z Hz); subst; reflexivity. }
    assert (Hu' : str_eqb (List.map upper_ascii [z]) (lit "Z") = true).
    { apply str_eqb_eq. destruct (ci_eq_Z z Hz); subst; reflexivity. }
    unfold tz_token, tz_alt1, tz_alt2, tz_altZ.
    cbv beta iota. rewrite Hs. cbv beta iota. rewrite Hz. cbv beta iota.
    rewrite Hu'. exact (f_equal _ Hn).
Qed.

(** Components out of range roll over into the next unit. *)
Lemma utc_instant_rollover (y mo d h mi s : Z) :
  utc_instant y (mo + 12) d h mi s = utc_instant (y + 1) mo d h mi s /\
  (1 <= mo <= 12 ->
   utc_instant y mo (DaysInMonth y mo + d) h mi s
   = utc_instant y (mo + 1) d h mi s) /\
  utc_instant y mo d (h + 24) mi s = utc_instant y mo (d + 1) h mi s /\
  utc_instant y mo d h (mi + 60) s = utc_instant y mo d (h + 1) mi s /\
  utc_instant y mo d h mi (s + 60) = utc_instant y mo d h (mi + 1) s.
Proof.
  unfold utc_instant, MakeDate, MakeTime, msPerDay, msPerHour, msPerMinute,
    msPerSecond.
  split; [|split; [|repeat split; unfold MakeDay; lia]].
  - unfold MakeDay.
    replace ((mo + 12 - 1) / 12) with ((mo - 1) / 12 + 1) by zdm.
    replace ((mo + 12 - 1) mod 12) with ((mo - 1) mod 12) by zdm.
    replace (y + ((mo - 1) / 12 + 1)) with (y + 1 + (mo - 1) / 12) by lia.
    reflexivity.
  - intros Hmo. rewrite MakeDay_in_year by exact Hmo.
    destruct (Z.eq_dec mo 12) as [->|Hne].
    + unfold MakeDay. change ((12 + 1 - 1) / 12) with 1.
      change ((12 + 1 - 1) mod 12) with 0.
      rewrite DayFromYear_step. unfold DaysBeforeMonth, DaysInMonth.
      simpl. destruct (DaysInYear_cases y) as [E|E]; rewrite E; simpl; lia.
    + rewrite (MakeDay_in_year y (mo + 1)) by lia.
      unfold DaysBeforeMonth, DaysInMonth.
      month_cases mo Hc; simpl; try lia;
        destruct (DaysInYear y =? 366); lia.
Qed.

End TimeCodecFacts.

(** ** TimeCodec: the claims *)

Module TimeCodecClaims.
Import DateFacts TimeCodecFacts.

(** C1 (amended): for every input whose trimmed form begins with 14 digits
    whose year field is at least 0100, followed (after optional whitespace)
    by a numeric offset [+-HHMM] or [+-HH:MM], [parseXmltvTime] returns the
    instant that the digits write as UTC wall-clock components, minus the
    offset in minutes; when no designator or a [Z] follows the digits, it
    returns the instant that the digits write, with nothing subtracted. *)
Theorem parse_subtracts_offset (raw ds : list N) :
  all_digits 14 ds -> 100 <= field 0 4 ds ->
  (forall ws tok rest,
      forallb is_ws ws = true -> is_numeric_offset tok ->
      trim raw = ds ++ ws ++ tok ++ rest ->
      parseXmltvTime (Some raw) =
      Some (mkDate (Some (stamp_instant ds - offset_value tok * 60000))))
  /\ (forall ws z rest,
         forallb is_ws ws = true -> ci_eq 90%N z = true ->
         trim raw = ds ++ ws ++ z :: rest ->
         parseXmltvTime (Some raw) = Some (mkDate (Some (stamp_instant ds))))
  /\ (forall rest,
         no_designator rest -> trim raw = ds ++ rest ->
         parseXmltvTime (Some raw) = Some (mkDate (Some (stamp_instant ds)))).
Proof.
  intros Hds Hy. split; [|split].
  - intros ws tok rest Hws Htok Ht.
    destruct (parse_numeric raw ds ws tok rest Hds Hws Htok Ht)
      as (u & _ & Hu & ->).
    now rewrite (Hu Hy).
  - intros ws z rest Hws Hz Ht.
    destruct (parse_plain raw ds (ws ++ z :: rest) Hds) as (u & _ & Hu & ->);
      [right; eauto 10 | exact Ht |].
    now rewrite (Hu Hy).
  - intros rest Hr Ht.
    destruct (parse_plain raw ds rest Hds) as (u & _ & Hu & ->);
      [left; exact Hr | exact Ht |].
    now rewrite (Hu Hy).
Qed.

Lemma parse_subtracts_offset_witness :
  parseXmltvTime (Some (lit "20240101120000 +0530")) =
  Some (mkDate (Some (stamp_instant (lit "20240101120000")
                      - offset_value (lit "+0530") * 60000))).
Proof.
  refine (proj1 (parse_subtracts_offset (lit "20240101120000 +0530")
                   (lit "20240101120000") _ _)
                (lit " ") (lit "+0530") [] _ _ _).
  - split; reflexivity.
  - vm_compute. discriminate.
  - reflexivity.
  - exists 43%N, (lit "05"), [], (lit "30"). repeat split; auto.
  - reflexivity.
Defined.

(** C1 as stated fails for a year below 0100: the digits [0050...] are read
    as the year 1950, so the result is not the instant that the digits
    write. *)
Lemma parse_year_0050 :
  all_digits 14 (lit "00500101000000") /\
  is_numeric_offset (lit "+0000") /\
  trim (lit "00500101000000 +0000")
  = lit "00500101000000" ++ lit " " ++ lit "+0000" ++ [] /\
  parseXmltvTime (Some (lit "00500101000000 +0000"))
  = Some (mkDate (Some (utc_instant 1950 1 1 0 0 0))) /\
  parseXmltvTime (Some (lit "00500101000000 +0000"))
  <> Some (mkDate (Some (stamp_instant (lit "00500101000000")
                         - offset_value (lit "+0000") * 60000))).
Proof.
  split; [split; reflexivity|]. split.
  { exists 43%N, (lit "00"), [], (lit "00"). repeat split; auto. }
  split; [reflexivity|]. split; [reflexivity|].
  vm_compute. discriminate.
Qed.

(** C4: for a fixed 14-digit string and two numeric offsets, the two
    instants that [parseXmltvTime] computes differ by exactly the difference
    of the offsets in minutes. *)
Theorem offset_change_shifts_instant
        (raw1 raw2 ds ws1 tok1 rest1 ws2 tok2 rest2 : list N) :
  all_digits 14 ds ->
  forallb is_ws ws1 = true -> is_numeric_offset tok1 ->
  forallb is_ws ws2 = true -> is_numeric_offset tok2 ->
  trim raw1 = ds ++ ws1 ++ tok1 ++ rest1 ->
  trim raw2 = ds ++ ws2 ++ tok2 ++ rest2 ->
  exists t1 t2,
    parseXmltvTime (Some raw1) = Some (mkDate (Some t1)) /\
    parseXmltvTime (Some raw2) = Some (mkDate (Some t2)) /\
    t2 - t1 = (offset_value tok1 - offset_value tok2) * 60000.
Proof.
  intros Hds Hw1 Hk1 Hw2 Hk2 H1 H2.
  destruct (parse_numeric raw1 ds ws1 tok1 rest1 Hds Hw1 Hk1 H1)
    as (u1 & Hu1 & _ & P1).
  destruct (parse_numeric raw2 ds ws2 tok2 rest2 Hds Hw2 Hk2 H2)
    as (u2 & Hu2 & _ & P2).
  rewrite Hu1 in Hu2. inversion Hu2; subst u2.
  eexists _, _. split; [exact P1|]. split; [exact P2|]. lia.
Qed.

Lemma offset_change_shifts_instant_witness :
  exists t1 t2,
    parseXmltvTime (Some (lit "20240101120000 +0530"))
    = Some (mkDate (Some t1)) /\
    parseXmltvTime (Some (lit "20240101120000-01:00"))
    = Some (mkDate (Some t2)) /\
    t2 - t1 = (offset_value (lit "+0530") - offset_value (lit "-01:00")) * 60000.
Proof.
  refine (offset_change_shifts_instant
            (lit "20240101120000 +0530") (lit "20240101120000-01:00")
            (lit "20240101120000") (lit " ") (lit "+0530") []
            [] (lit "-01:00") [] _ _ _ _ _ _ _).
  - split; reflexivity.
  - reflexivity.
  - exists 43%N, (lit "05"), [], (lit "30"). repeat split; auto.
  - reflexivity.
  - exists 45%N, (lit "01"), (lit ":"), (lit "00"). repeat split; auto.
  - reflexivity.
  - reflexivity.
Defined.

(** C5: [parseXmltvTime] returns [null] on [null] and on the empty string;
    [formatTimeIST] returns the empty string for the empty string (and for
    [null]), and returns its input unchanged whenever [parseXmltvTime] fails
    on it, as for ["garbage"]; both are total, so a malformed timestamp
    raises nothing. *)
Theorem parse_failure_passes_through (LocalTZA : Z -> Z) :
  parseXmltvTime None = None /\
  parseXmltvTime (Some []) = None /\
  formatTimeIST LocalTZA (Some []) = [] /\
  formatTimeIST LocalTZA None = [] /\
  (forall raw, parseXmltvTime (Some raw) = None ->
               formatTimeIST LocalTZA (Some raw) = raw) /\
  parseXmltvTime (Some (lit "garbage")) = None /\
  formatTimeIST LocalTZA (Some (lit "garbage")) = lit "garbage".
Proof.
  repeat split; try reflexivity.
  intros raw H. unfold formatTimeIST. now rewrite H.
Qed.

Lemma parse_failure_passes_through_witness :
  parseXmltvTime (Some (lit "2024-01-01")) = None /\
  formatTimeIST (fun _ => 0) (Some (lit "2024-01-01")) = lit "2024-01-01".
Proof.
  split; [reflexivity|].
  apply (proj1 (proj2 (proj2 (proj2 (proj2
           (parse_failure_passes_through (fun _ => 0))))))).
  reflexivity.
Defined.

(** C10: for every input whose trimmed form begins with 14 digits,
    [parseXmltvTime] returns a date with a valid instant, whatever the digit
    fields are; fields out of the calendar's range (month 00 or 13, day 32,
    hour 25) roll over into the adjacent months and days. *)
Theorem parse_never_rejects_digits :
  (forall raw ds rest,
      all_digits 14 ds -> trim raw = ds ++ rest ->
      exists t, parseXmltvTime (Some raw) = Some (mkDate (Some t))) /\
  (forall raw ds,
      all_digits 14 ds -> 100 <= field 0 4 ds -> trim raw = ds ->
      parseXmltvTime (Some raw)
      = Some (mkDate (Some (utc_instant (field 0 4 ds) (field 4 2 ds)
                              (field 6 2 ds) (field 8 2 ds)
                              (field 10 2 ds) (field 12 2 ds))))) /\
  (forall y mo d h mi s,
      utc_instant y (mo + 12) d h mi s = utc_instant (y + 1) mo d h mi s /\
      (1 <= mo <= 12 ->
       utc_instant y mo (DaysInMonth y mo + d) h mi s
       = utc_instant y (mo + 1) d h mi s) /\
      utc_instant y mo d (h + 24) mi s = utc_instant y mo (d + 1) h mi s) /\
  parseXmltvTime (Some (lit "20241301000000"))
  = parseXmltvTime (Some (lit "20250101000000")) /\
  parseXmltvTime (Some (lit "20240001000000"))
  = parseXmltvTime (Some (lit "20231201000000")) /\
  parseXmltvTime (Some (lit "20240132000000"))
  = parseXmltvTime (Some (lit "20240201000000")) /\
  parseXmltvTime (Some (lit "20240101250000"))
  = parseXmltvTime (Some (lit "20240102010000")).
Proof.
  split; [|split; [|split; [|repeat split; reflexivity]]].
  - intros raw ds rest Hds Ht.
    pose proof (parse_digits raw ds rest Hds Ht) as P. cbv zeta in P.
    destruct (fields_range ds Hds) as (Ry & Rmo & Rd & Rh & Rmi & Rs).
    destruct (Date_UTC_fields _ _ _ _ _ _ Ry Rmo Rd Rh Rmi Rs)
      as (u & Hu & Hb & _).
    rewrite Hu in P.
    destruct (tz_token (dropWhile is_ws rest)) as [tok|] eqn:Etok.
    + destruct (tz_token_shape _ _ Etok)
        as [(z & Hz & ->) | (sg & hh & colon & mm & Hs & Hh & Hm & Hc & ->)].
      * assert (Hu' : str_eqb (List.map upper_ascii [z]) (lit "Z") = true).
        { apply str_eqb_eq. destruct (ci_eq_Z z Hz); subst; reflexivity. }
        rewrite Hu' in P. simpl negb in P. cbv iota in P.
        rewrite new_Date_small in P by lia. eauto.
      * rewrite numeric_not_Z in P by exact Hs. simpl option_map in P.
        rewrite offsetMinutes_numeric in P by assumption.
        pose proof (offset_minutes_range sg hh mm Hh Hm).
        rewrite new_Date_small in P by lia. eauto.
    + rewrite new_Date_small in P by lia. eauto.
  - intros raw ds Hds Hy Ht.
    destruct (parse_plain raw ds [] Hds) as (u & _ & Hu & ->);
      [left; exact I | now rewrite app_nil_r |].
    now rewrite (Hu Hy).
  - intros y mo d h mi s.
    destruct (utc_instant_rollover y mo d h mi s) as (H1 & H2 & H3 & _).
    auto.
Qed.

Lemma parse_never_rejects_digits_witness :
  exists t, parseXmltvTime (Some (lit " 20241332256199 +9x "))
            = Some (mkDate (Some t)).
Proof.
  apply (proj1 parse_never_rejects_digits
               (lit " 20241332256199 +9x ") (lit "20241332256199")
               (lit " +9x")).
  - split; reflexivity.
  - reflexivity.
Defined.

End TimeCodecClaims.

(** ** TimeCodec: the display string *)

Module FormatFacts.
Import DateFacts TimeCodecFacts.

Lemma pad2_small :
  forallb (fun k => str_eqb (padStart 2 48%N
                               (String_of_number (Some (Z.of_nat k))))
                            (two_digits_of (Z.of_nat k)))
          (seq 0 100) = true.
Proof. vm_compute. reflexivity. Qed.

Lemma pad2 (n : Z) :
  0 <= n <= 99 ->
  padStart 2 48%N (String_of_number (Some n)) = two_digits_of n.
Proof.
  intros H. pose proof pad2_small as P.
  rewrite forallb_forall in P.
  specialize (P (Z.to_nat n)). rewrite Z2Nat.id in P by lia.
  apply str_eqb_eq, P, in_seq. lia.
Qed.

Lemma year4_small :
  forallb (fun k => str_eqb (String_of_number (Some (1000 + Z.of_nat k)))
                            (four_digits_of (1000 + Z.of_nat k)))
          (seq 0 (Z.to_nat 9000)) = true.
Proof. vm_compute. reflexivity. Qed.

Lemma year4 (n : Z) :
  1000 <= n <= 9999 -> String_of_number (Some n) = four_digits_of n.
Proof.
  intros H. pose proof year4_small as P.
  rewrite forallb_forall in P.
  specialize (P (Z.to_nat (n - 1000))).
  replace (1000 + Z.of_nat (Z.to_nat (n - 1000))) with n in P by lia.
  apply str_eqb_eq, P, in_seq. lia.
Qed.

(** Five and a half hours later is the same year or the next one. *)
Lemma year_after_offset (t y : Z) :
  YearFromTime t = y ->
  y <= YearFromTime (t + 19800000) <= y + 1.
Proof.
  intros <-. pose proof (YearFromTime_spec t) as S.
  pose proof (YearFromTime_spec (t + 19800000)) as S'.
  assert (HD : Day t <= Day (t + 19800000) <= Day t + 1).
  { unfold Day, msPerDay. zdm. }
  pose proof (DayFromYear_step (YearFromTime t + 1)) as St.
  pose proof (DaysInYear_cases (YearFromTime t + 1)) as Hc.
  split.
  - destruct (Z.le_gt_cases (YearFromTime t) (YearFromTime (t + 19800000)))
      as [L|G]; [exact L|].
    pose proof (DayFromYear_mono (YearFromTime (t + 19800000) + 1)
                                 (YearFromTime t)). lia.
  - destruct (Z.le_gt_cases (YearFromTime (t + 19800000)) (YearFromTime t + 1))
      as [L|G]; [exact L|].
    pose proof (DayFromYear_mono (YearFromTime t + 1 + 1)
                                 (YearFromTime (t + 19800000))). lia.
Qed.

Lemma stamp_instant_seconds (ds : list N) : stamp_instant ds mod 1000 = 0.
Proof.
  unfold stamp_instant, utc_instant, MakeDate, MakeTime, msPerDay, msPerHour,
    msPerMinute, msPerSecond.
  generalize (MakeDay (field 0 4 ds) (field 4 2 ds - 1) (field 6 2 ds)).
  intros. zdm.
Qed.

(** On a host whose local time zone is UTC, a valid timestamp with a [Z]
    suffix and a year from 1000 to 9998 is displayed as the wall-clock
    time five and a half hours later. *)
Lemma format_on_utc_host (LocalTZA : Z -> Z) (raw ds ws rest : list N) (z : N) :
  (forall t, LocalTZA t = 0) ->
  all_digits 14 ds ->
  1000 <= field 0 4 ds <= 9998 ->
  valid_civil (field 0 4 ds) (field 4 2 ds) (field 6 2 ds)
              (field 8 2 ds) (field 10 2 ds) (field 12 2 ds) ->
  forallb is_ws ws = true -> ci_eq 90%N z = true ->
  trim raw = ds ++ ws ++ z :: rest ->
  exists y mo d h mi s,
    valid_civil y mo d h mi s /\
    utc_instant y mo d h mi s = stamp_instant ds + 19800000 /\
    formatTimeIST LocalTZA (Some raw) = display y mo d h mi s.
Proof.
  intros Hz0 Hds Hy Hv Hws Hz Ht.
  destruct (parse_plain raw ds (ws ++ z :: rest) Hds) as (u & Hu & Hs & P);
    [right; eauto 10 | exact Ht |].
  rewrite (Hs ltac:(lia)) in *. clear Hs.
  set (t := stamp_instant ds) in *.
  assert (Hb : Z.abs t <= 400000000000000).
  { destruct (fields_range ds Hds) as (Ry & Rmo & Rd & Rh & Rmi & Rs).
    destruct (Date_UTC_fields _ _ _ _ _ _ Ry Rmo Rd Rh Rmi Rs)
      as (u' & Hu' & Hb & _).
    rewrite Hu in Hu'. inversion Hu'. subst u'. exact Hb. }
  pose proof (reading_of_instant _ _ _ _ _ _ Hv) as R.
  fold (stamp_instant ds) in R. fold t in R.
  assert (HY : YearFromTime t = field 0 4 ds).
  { unfold utc_reading in R. now inversion R. }
  pose proof (year_after_offset t _ HY) as HY'.
  pose proof (instant_of_reading (t + 19800000)) as I.
  unfold utc_reading in I. destruct I as [Iv Ii].
  exists (YearFromTime (t + 19800000)), (MonthFromTime (t + 19800000) + 1),
    (DateFromTime (t + 19800000)), (HourFromTime (t + 19800000)),
    (MinFromTime (t + 19800000)), (SecFromTime (t + 19800000)).
  split; [exact Iv|]. split.
  - rewrite Ii. pose proof (stamp_instant_seconds ds). fold t in H. zdm.
  - unfold formatTimeIST. rewrite P. simpl getTime. simpl option_map.
    rewrite new_Date_small by lia.
    unfold getFullYear, getMonth, getDate, getHours, getMinutes, getSeconds,
      LocalTime. simpl getTime. simpl option_map.
    rewrite Hz0, Z.add_0_r.
    destruct Iv as (Imo & Id & Ih & Imi & Is).
    assert (Hdim : DaysInMonth (YearFromTime (t + 19800000))
                               (MonthFromTime (t + 19800000) + 1) <= 31).
    { unfold DaysInMonth.
      repeat match goal with
             | |- context [match ?x with _ => _ end] => destruct x
             end; lia. }
    rewrite year4 by lia.
    rewrite !pad2 by lia.
    reflexivity.
Qed.


(** C3 (the code departs from the claim): the display string is built with
    the getters of the host's local time zone, so it is five and a half
    hours ahead of UTC only on a host whose zone is UTC; on a host in
    Asia/Kolkata the same timestamp is displayed eleven hours ahead. *)
Theorem formatTimeIST_follows_host_zone :
  formatTimeIST host_kolkata (Some (lit "20240101000000Z"))
  = lit "2024-01-01 11:00:00 IST" /\
  formatTimeIST host_utc (Some (lit "20240101000000Z"))
  = lit "2024-01-01 05:30:00 IST".
Proof. split; vm_compute; reflexivity. Qed.

(** On a UTC host, the year is printed without padding and may take five
    digits. *)
Lemma formatTimeIST_year_width :
  formatTimeIST host_utc (Some (lit "09990101000000Z"))
  = lit "999-01-01 05:30:00 IST" /\
  formatTimeIST host_utc (Some (lit "99991231235959Z"))
  = lit "10000-01-01 05:29:59 IST".
Proof. split; vm_compute; reflexivity. Qed.

End FormatFacts.

(** ** ProgrammeExtractor *)

Module ScanFacts.
Import TagStripperFacts TimeCodecFacts.

Lemma never_in_tail {A} (strip : list N -> option A) c s x :
  never_in strip (c :: s) x -> never_in strip s x.
Proof. intros H a b -> Hb. apply (H (c :: a) b); [reflexivity | exact Hb]. Qed.

Lemma never_in_head {A} (strip : list N -> option A) c s x :
  never_in strip (c :: s) x -> strip (c :: s ++ x) = None.
Proof. intros H. apply (H [] (c :: s)); [reflexivity | discriminate]. Qed.

Lemma find_with_app strip s x r :
  never_in strip s x -> strip x = Some r ->
  find_with strip (s ++ x) = Some (s, r).
Proof.
  induction s as [|c s IH]; intros Hn Hx.
  - destruct x; simpl; now rewrite Hx.
  - simpl app. simpl find_with. rewrite (never_in_head _ _ _ _ Hn).
    rewrite IH; [reflexivity | eapply never_in_tail, Hn | exact Hx].
Qed.

Lemma find_with_None strip s :
  find_with strip s = None <-> (forall a b, s = a ++ b -> strip b = None).
Proof.
  induction s as [|c s IH].
  - simpl. destruct (strip []) eqn:E.
    + split; [discriminate|]. intros H. now rewrite (H [] []) in E.
    + split; [|reflexivity]. intros _ a b Hab.
      destruct a, b; try discriminate. exact E.
  - simpl. destruct (strip (c :: s)) eqn:E.
    + split; [discriminate|]. intros H. now rewrite (H [] (c :: s)) in E.
    + split.
      * intros F a' b' Hab.
        assert (F' : find_with strip s = None).
        { destruct (find_with strip s) as [[? ?]|]; [discriminate|reflexivity]. }
        destruct a' as [|c' a'].
        -- simpl in Hab. subst b'. exact E.
        -- inversion Hab. subst. apply (proj1 IH F' a' b'). reflexivity.
      * intros H.
        assert (F' : find_with strip s = None).
        { apply IH. intros a' b' ->. apply (H (c :: a') b'). reflexivity. }
        now rewrite F'.
Qed.

Lemma scan_through {A} (m : list N -> option (A * nat)) (f rest : list N) :
  never_in m f rest ->
  scan m 0 (f ++ rest) = List.map inl f ++ scan m 0 rest.
Proof.
  induction f as [|c f IH]; intros Hn; [reflexivity|].
  simpl app. simpl scan. rewrite (never_in_head _ _ _ _ Hn).
  simpl. f_equal. apply IH. eapply never_in_tail, Hn.
Qed.

Lemma scan_at_match {A} (m : list N -> option (A * nat))
      (blk rest : list N) (a : A) :
  blk <> [] -> m (blk ++ rest) = Some (a, length blk) ->
  scan m 0 (blk ++ rest) = inr a :: scan m 0 rest.
Proof.
  destruct blk as [|c blk]; [congruence|]. intros _ Hm.
  simpl app in *. simpl scan. rewrite Hm. simpl length.
  f_equal. now apply scan_skip_app.
Qed.

Lemma matchAll_through {A} (m : list N -> option (A * nat)) (f rest : list N) :
  never_in m f rest -> matchAll m (f ++ rest) = matchAll m rest.
Proof.
  intros Hn. unfold matchAll. rewrite scan_through by exact Hn.
  rewrite flat_map_app.
  assert (H : forall l : list N,
             flat_map (fun x : N + A => match x with inl _ => [] | inr a => [a] end)
                      (List.map inl l) = []).
  { induction l; simpl; auto. }
  now rewrite H.
Qed.

Lemma matchAll_at_match {A} (m : list N -> option (A * nat))
      (blk rest : list N) (a : A) :
  blk <> [] -> m (blk ++ rest) = Some (a, length blk) ->
  matchAll m (blk ++ rest) = a :: matchAll m rest.
Proof.
  intros Hb Hm. unfold matchAll. now rewrite (scan_at_match m blk rest a).
Qed.

Lemma matchAll_nil {A} (m : list N -> option (A * nat)) :
  m [] = None -> matchAll m [] = [].
Proof. intros H. unfold matchAll. simpl. now rewrite H. Qed.

Lemma matchFirst_None {A} (m : list N -> option (A * nat)) (s : list N) :
  (forall a b, s = a ++ b -> m b = None) -> matchFirst m s = None.
Proof.
  induction s as [|c s IH]; intros H.
  - simpl. now rewrite (H [] []).
  - simpl. rewrite (H [] (c :: s)) by reflexivity.
    apply IH. intros a b ->. apply (H (c :: a) b). reflexivity.
Qed.

(** *** Literals *)

Lemma strip_prefix_ci_app (p o x : list N) :
  same_ci p o -> strip_prefix_ci p (o ++ x) = Some x.
Proof.
  unfold same_ci. revert o. induction p as [|a p IH]; intros o H.
  - simpl in H. inversion H. reflexivity.
  - destruct o as [|c o]; [discriminate|]. simpl in *.
    destruct (ci_eq a c); [now apply IH | discriminate].
Qed.

Lemma same_ci_length (p o : list N) : same_ci p o -> length o = length p.
Proof.
  unfold same_ci. revert o. induction p as [|a p IH]; intros o H.
  - simpl in H. now inversion H.
  - destruct o as [|c o]; [discriminate|]. simpl in *.
    destruct (ci_eq a c); [f_equal; now apply IH | discriminate].
Qed.

(** A match of [p] in [a ++ b] lies in [a], or a proper, non-empty suffix
    of [p] matches at the head of [b]. *)
Lemma strip_prefix_ci_split (p a b r : list N) :
  strip_prefix_ci p (a ++ b) = Some r ->
  (exists r', strip_prefix_ci p a = Some r') \/
  (exists p1 p2, p = p1 ++ p2 /\ p2 <> [] /\ length p1 = length a /\
                 strip_prefix_ci p2 b = Some r).
Proof.
  revert a. induction p as [|x p IH]; intros a H.
  - left. exists a. reflexivity.
  - destruct a as [|c a].
    + right. exists [], (x :: p). simpl in H.
      repeat split; auto; discriminate.
    + simpl in H. simpl. destruct (ci_eq x c); [|discriminate].
      destruct (IH a H) as [(r' & Hr) | (p1 & p2 & -> & Hp2 & Hl & Hs)].
      * left. eauto.
      * right. exists (x :: p1), p2. simpl. auto.
Qed.

Lemma occurs_ci_false (p s : list N) :
  occurs_ci p s = false <->
  (forall a b, s = a ++ b -> strip_prefix_ci p b = None).
Proof.
  unfold occurs_ci, find_ci. rewrite <- find_with_None.
  destruct (find_with (strip_prefix_ci p) s); split; congruence.
Qed.

(** A literal that has [<] at its head only does not occur across the end
    of a text that is followed by [<] or by nothing. *)
Lemma occurs_never (p f x : list N) :
  forallb (fun c => negb (ci_eq c 60%N)) (tl p) = true ->
  match x with [] => True | c :: _ => c = 60%N end ->
  occurs_ci p f = false ->
  never_in (strip_prefix_ci p) f x.
Proof.
  intros Hp Hx Ho a b -> Hb.
  destruct (strip_prefix_ci p (b ++ x)) as [r|] eqn:E; [|reflexivity].
  exfalso. apply strip_prefix_ci_split in E.
  destruct E as [(r' & Hr) | (p1 & p2 & -> & Hp2 & Hl & Hs)].
  - rewrite (proj1 (occurs_ci_false _ _) Ho a b eq_refl) in Hr. discriminate.
  - destruct b as [|c b]; [congruence|].
    destruct p1 as [|y p1]; [discriminate|].
    destruct p2 as [|z p2]; [congruence|].
    simpl tl in Hp. rewrite forallb_app in Hp.
    apply andb_true_iff in Hp. destruct Hp as [_ Hp]. simpl in Hp.
    apply andb_true_iff in Hp. destruct Hp as [Hz _].
    destruct x as [|c' x]; [discriminate|]. subst c'.
    simpl in Hs. apply negb_true_iff in Hz. rewrite Hz in Hs. discriminate.
Qed.

Lemma same_ci_head (p o : list N) (c : N) :
  same_ci (c :: p) o -> is_lower c = false -> is_upper c = false ->
  exists o', o = c :: o'.
Proof.
  unfold same_ci. destruct o as [|d o]; [discriminate|]. simpl.
  unfold ci_eq. intros H Hl Hu. rewrite Hl, Hu in H. simpl in H.
  rewrite orb_false_r in H.
  destruct (N.eqb_spec d c) as [->|]; [eauto | discriminate].
Qed.

(** *** The programme expression on a block *)

Lemma prog_match_None (s : list N) :
  strip_prefix_ci (lit "<programme") s = None -> prog_match s = None.
Proof. intros H. unfold prog_match. now rewrite H. Qed.

Lemma render_block_head (b : Block) (rest : list N) :
  wf_block b ->
  exists t, render_block b ++ rest = 60%N :: t.
Proof.
  intros (Ho & _). destruct (same_ci_head _ _ _ Ho eq_refl eq_refl) as [o' E].
  unfold render_block. rewrite E. simpl. eauto.
Qed.

Lemma prog_match_block (b : Block) (rest : list N) :
  wf_block b ->
  prog_match (render_block b ++ rest)
  = Some ((attr_text b, b_inner b), length (render_block b)).
Proof.
  intros (Ho & _ & _ & _ & Hgt & Hhd & Hin & Hc).
  unfold prog_match, render_block.
  rewrite <- !app_assoc. rewrite (strip_prefix_ci_app _ _ _ Ho).
  assert (Hb : match attr_text b ++ [62%N] ++ b_inner b ++ b_close b ++ rest with
               | c :: _ => negb (is_word c)
               | [] => true
               end = true).
  { destruct (attr_text b) as [|c t]; [reflexivity|].
    simpl. now rewrite Hhd. }
  rewrite Hb.
  simpl app at 1.
  rewrite (break_at_app is_gt (attr_text b) _ 62%N Hgt eq_refl).
  destruct (same_ci_head _ _ _ Hc eq_refl eq_refl) as [c' Ec].
  unfold find_ci.
  rewrite (find_with_app (strip_prefix_ci (lit "</programme>"))
                         (b_inner b) (b_close b ++ rest) rest).
  - f_equal. f_equal. rewrite !length_app.
    rewrite (same_ci_length _ _ Ho), (same_ci_length _ _ Hc). simpl. lia.
  - apply occurs_never; [reflexivity | rewrite Ec; reflexivity | exact Hin].
  - now apply strip_prefix_ci_app.
Qed.

Lemma prog_never_in (f x : list N) :
  match x with [] => True | c :: _ => c = 60%N end ->
  occurs_ci (lit "<programme") f = false ->
  never_in prog_match f x.
Proof.
  intros Hx Ho a b E Hb. apply prog_match_None.
  now apply (occurs_never (lit "<programme") f x eq_refl Hx Ho a b).
Qed.

(** The matches of the programme expression in a document are its blocks,
    in order. *)
Lemma matchAll_doc (items : list (list N * Block)) (tail : list N) :
  wf_doc items tail ->
  matchAll prog_match (render_doc items tail)
  = List.map (fun it => (attr_text (snd it), b_inner (snd it))) items.
Proof.
  intros [Hi Ht]. unfold render_doc.
  induction Hi as [|[f b] items [Hf Hb] Hi IH]; simpl.
  - rewrite <- (app_nil_r tail).
    rewrite matchAll_through by (apply prog_never_in; [exact I | exact Ht]).
    now apply matchAll_nil.
  - simpl in Hf, Hb. rewrite <- !app_assoc.
    destruct (render_block_head b
                (List.concat (List.map (fun it => fst it ++ render_block (snd it)) items)
                 ++ tail) Hb) as [t Et].
    rewrite matchAll_through
      by (apply prog_never_in; [rewrite Et; reflexivity | exact Hf]).
    rewrite (matchAll_at_match prog_match (render_block b) _
                               (attr_text b, b_inner b)).
    + f_equal. exact IH.
    + intros E. destruct Hb as (Ho & _).
      destruct (same_ci_head _ _ _ Ho eq_refl eq_refl) as [o' Eo].
      unfold render_block in E. rewrite Eo in E. discriminate.
    + now apply prog_match_block.
Qed.

(** *** The attribute expression on an attribute list *)

Lemma takeWhile_app (f : N -> bool) (a b : list N) (c : N) :
  forallb f a = true -> f c = false -> takeWhile f (a ++ c :: b) = a.
Proof.
  induction a as [|x a IH]; simpl; intros Ha Hc.
  - now rewrite Hc.
  - apply andb_true_iff in Ha. destruct Ha as [-> Ha]. now rewrite IH.
Qed.

Lemma skipn_length_app {A} (a b : list A) : skipn (length a) (a ++ b) = b.
Proof. induction a; simpl; auto. Qed.

Lemma attr_match_attr (a : Attr) (rest : list N) :
  wf_attr a ->
  attr_match (a_name a ++ [61%N; 34%N] ++ a_value a ++ [34%N] ++ rest)
  = Some ((a_name a, a_value a),
          length (a_name a ++ [61%N; 34%N] ++ a_value a ++ [34%N])).
Proof.
  intros (_ & Hne & Hn & Hv). unfold attr_match.
  simpl app. rewrite (takeWhile_app is_name (a_name a) _ 61%N Hn eq_refl).
  destruct (a_name a) as [|n name] eqn:En; [congruence|].
  change (S (length name)) with (length (n :: name)).
  rewrite skipn_length_app. simpl.
  rewrite (break_at_app is_quote (a_value a) rest 34%N Hv eq_refl).
  do 2 f_equal. rewrite !length_app. simpl. rewrite length_app. simpl. lia.
Qed.

Lemma attr_never_in (sep x : list N) :
  forallb (fun c => negb (is_name c)) sep = true ->
  never_in attr_match sep x.
Proof.
  intros Hs a b -> Hb. rewrite forallb_app in Hs.
  apply andb_true_iff in Hs. destruct Hs as [_ Hs].
  destruct b as [|c b]; [congruence|]. simpl in Hs.
  apply andb_true_iff in Hs. destruct Hs as [Hc _].
  apply negb_true_iff in Hc. unfold attr_match. simpl. now rewrite Hc.
Qed.

Lemma matchAll_attrs (attrs : list Attr) (tail : list N) :
  Forall wf_attr attrs ->
  forallb (fun c => negb (is_name c)) tail = true ->
  matchAll attr_match (List.concat (List.map render_attr attrs) ++ tail)
  = List.map (fun a => (a_name a, a_value a)) attrs.
Proof.
  intros Ha Ht. induction Ha as [|a attrs Hw Ha IH]; simpl.
  - rewrite <- (app_nil_r tail).
    rewrite matchAll_through by now apply attr_never_in.
    now apply matchAll_nil.
  - unfold render_attr at 1. rewrite <- !app_assoc.
    rewrite matchAll_through by (apply attr_never_in, Hw).
    pose proof (attr_match_attr a
                  (List.concat (List.map render_attr attrs) ++ tail) Hw) as M.
    assert (E : forall r,
               a_name a ++ [61%N; 34%N] ++ a_value a ++ [34%N] ++ r
               = (a_name a ++ [61%N; 34%N] ++ a_value a ++ [34%N]) ++ r)
      by (intros; now rewrite <- !app_assoc).
    rewrite E in M |- *.
    rewrite (matchAll_at_match attr_match
               (a_name a ++ [61%N; 34%N] ++ a_value a ++ [34%N])
               (List.concat (List.map render_attr attrs) ++ tail)
               (a_name a, a_value a)).
    + now rewrite IH.
    + destruct Hw as (_ & Hne & _). destruct (a_name a); [congruence|discriminate].
    + exact M.
Qed.

(** *** [Object.fromEntries] *)

Lemma fromEntries_snoc (l : list (list N * list N)) (k v : list N) :
  fromEntries (l ++ [(k, v)]) = <[k := v]> (fromEntries l).
Proof. unfold fromEntries. now rewrite fold_left_app. Qed.

Lemma fromEntries_absent (l : list (list N * list N)) (k : list N) :
  ~ In k (List.map fst l) -> fromEntries l !! k = None.
Proof.
  induction l as [|[k' v'] l IH] using rev_ind; intros H.
  - apply lookup_empty.
  - rewrite fromEntries_snoc. rewrite List.map_app, in_app_iff in H. simpl in H.
    rewrite lookup_insert_ne by (intros ->; tauto).
    apply IH. tauto.
Qed.

Lemma fromEntries_present (l : list (list N * list N)) (k v : list N) :
  List.NoDup (List.map fst l) -> In (k, v) l -> fromEntries l !! k = Some v.
Proof.
  induction l as [|[k' v'] l IH] using rev_ind; intros Hd Hin; [destruct Hin|].
  rewrite fromEntries_snoc. rewrite List.map_app in Hd. simpl in Hd.
  apply List.NoDup_remove in Hd. rewrite app_nil_r in Hd.
  destruct Hd as [Hd Hk]. apply in_app_iff in Hin.
  destruct Hin as [Hin | [Hin | []]].
  - rewrite lookup_insert_ne.
    + now apply IH.
    + intros ->. apply Hk. now apply (in_map fst) in Hin.
  - inversion Hin; subst. apply lookup_insert_eq.
Qed.

(** The value that the parser reads for an attribute name. *)
Lemma attrs_lookup (b : Block) (name : list N) :
  wf_block b ->
  attr_is b name
          (default [] (fromEntries (matchAll attr_match (attr_text b)) !! name)).
Proof.
  intros (_ & Ha & Hd & He & _). unfold attr_text.
  rewrite matchAll_attrs by assumption.
  destruct (List.in_dec (fun x y : list N => decide (x = y)) name
                        (List.map a_name (b_attrs b)))
    as [Hin | Hout].
  - left. apply in_map_iff in Hin. destruct Hin as (a & Hn & Hin).
    exists a. split; [exact Hin|]. split; [exact Hn|].
    rewrite (fromEntries_present _ name (a_value a)).
    + reflexivity.
    + now rewrite List.map_map.
    + apply in_map_iff. exists a. subst. auto.
  - right. split.
    + intros a Hin Hn. apply Hout, in_map_iff. eauto.
    + rewrite fromEntries_absent; [reflexivity|].
      now rewrite List.map_map.
Qed.

(** *** Title and sub-title *)

Lemma strip_prefix_ci_suffix (p s r : list N) :
  strip_prefix_ci p s = Some r -> exists o, s = o ++ r.
Proof.
  revert s. induction p as [|x p IH]; intros s H.
  - exists []. simpl in H. now inversion H.
  - destruct s as [|c s]; [discriminate|]. simpl in H.
    destruct (ci_eq x c); [|discriminate].
    destruct (IH s H) as [o ->]. now exists (c :: o).
Qed.

Lemma strip_prefix_ci_snoc (p t r : list N) (g c : N) :
  strip_prefix_ci p t = Some (c :: r) -> ci_eq g c = true ->
  strip_prefix_ci (p ++ [g]) t = Some r.
Proof.
  revert t. induction p as [|x p IH]; intros t H Hg.
  - simpl in H. inversion H. simpl. now rewrite Hg.
  - destruct t as [|d t]; [discriminate|]. simpl in *.
    destruct (ci_eq x d); [now apply IH | discriminate].
Qed.

Lemma occurs_ci_suffix (p a b : list N) :
  occurs_ci p (a ++ b) = false -> occurs_ci p b = false.
Proof.
  rewrite !occurs_ci_false. intros H a' b' ->.
  apply (H (a ++ a') b'). now rewrite app_assoc.
Qed.

Lemma find_ci_absent (p s : list N) :
  occurs_ci p s = false -> find_ci p s = None.
Proof.
  unfold occurs_ci. destruct (find_ci p s); [discriminate | reflexivity].
Qed.

Lemma title_absent (inner : list N) :
  no_title inner -> matchFirst title_match inner = None.
Proof.
  intros H. apply matchFirst_None. intros a b ->. unfold title_match.
  destruct (strip_prefix_ci (lit "<title") b) as [r1|] eqn:E1; [|reflexivity].
  destruct H as [H | H].
  - rewrite (proj1 (occurs_ci_false _ _) H a b eq_refl) in E1. discriminate.
  - destruct (break_at is_gt r1) as [[x r2]|] eqn:E2; [|reflexivity].
    destruct (strip_prefix_ci_suffix _ _ _ E1) as [o ->].
    destruct (break_at_Some _ _ _ _ E2) as (c & _ & -> & _).
    rewrite find_ci_absent; [reflexivity|].
    apply (occurs_ci_suffix _ (a ++ o ++ x ++ [c]) r2).
    replace ((a ++ o ++ x ++ [c]) ++ r2) with (a ++ o ++ x ++ c :: r2);
      [exact H|].
    repeat rewrite <- app_assoc. reflexivity.
Qed.

Lemma subtitle_absent (inner : list N) :
  no_subtitle inner -> matchFirst subtitle_match inner = None.
Proof.
  intros H. apply matchFirst_None. intros a b ->. unfold subtitle_match.
  destruct (strip_sub_title (lit "<") b) as [r1|] eqn:E1; [|reflexivity].
  destruct H as [[H1 H2] | [H1 H2]].
  - unfold strip_sub_title in E1.
    change (lit "<" ++ lit "sub-title") with (lit "<sub-title") in E1.
    change (lit "<" ++ lit "sub_title") with (lit "<sub_title") in E1.
    rewrite (proj1 (occurs_ci_false _ _) H1 a b eq_refl) in E1.
    rewrite (proj1 (occurs_ci_false _ _) H2 a b eq_refl) in E1.
    discriminate.
  - destruct (break_at is_gt r1) as [[x r2]|] eqn:E2; [|reflexivity].
    assert (Hs : exists o, a ++ b = o ++ r2).
    { unfold strip_sub_title in E1.
      destruct (break_at_Some _ _ _ _ E2) as (c & _ & -> & _).
      destruct (strip_prefix_ci (lit "<" ++ lit "sub-title") b) eqn:E.
      - inversion E1; subst. destruct (strip_prefix_ci_suffix _ _ _ E) as [o ->].
        exists (a ++ o ++ x ++ [c]). repeat rewrite <- app_assoc. reflexivity.
      - destruct (strip_prefix_ci_suffix _ _ _ E1) as [o ->].
        exists (a ++ o ++ x ++ [c]). repeat rewrite <- app_assoc. reflexivity. }
    destruct Hs as [o Hs]. rewrite Hs in H1, H2.
    apply occurs_ci_suffix in H1, H2.
    match goal with
    | |- context [find_with ?f r2] =>
        assert (F : find_with f r2 = None); [|now rewrite F]
    end.
    apply find_with_None. intros a' b' ->.
    unfold strip_sub_title.
    change (lit "</" ++ lit "sub-title") with (lit "</sub-title").
    change (lit "</" ++ lit "sub_title") with (lit "</sub_title").
    assert (G : forall p, strip_prefix_ci (p ++ [62%N]) b' = None ->
                match strip_prefix_ci p b' with
                | Some (c :: r) => if is_gt c then Some r else None
                | _ => None
                end = None).
    { intros p Hp. destruct (strip_prefix_ci p b') as [[|c r]|] eqn:E;
        try reflexivity.
      destruct (is_gt c) eqn:Hc; [|reflexivity].
      rewrite (strip_prefix_ci_snoc p b' r 62%N c E) in Hp; [discriminate|].
      unfold is_gt in Hc. apply N.eqb_eq in Hc. now subst c. }
    pose proof (G (lit "</sub-title")
                  (proj1 (occurs_ci_false _ _) H1 a' b' eq_refl)) as G1.
    pose proof (G (lit "</sub_title")
                  (proj1 (occurs_ci_false _ _) H2 a' b' eq_refl)) as G2.
    destruct (strip_prefix_ci (lit "</sub-title") b') as [[|c r]|];
      [reflexivity | exact G1 | exact G2].
Qed.

End ScanFacts.

(** ** ProgrammeExtractor: the claims *)

Module ExtractorClaims.
Import TagStripperFacts TimeCodecFacts ScanFacts.

Section Host.
Variable LocalTZA : Z -> Z.

(** The record of a well-formed block. *)
Lemma programme_of_block (b : Block) :
  wf_block b ->
  let p := programme_of LocalTZA (attr_text b, b_inner b) in
  attr_is b (lit "start") (startRaw p) /\
  attr_is b (lit "stop") (stopRaw p) /\
  attr_is b (lit "channel") (channel p) /\
  (no_title (b_inner b) -> title p = lit "Untitled") /\
  (no_subtitle (b_inner b) -> subTitle p = []) /\
  start p = formatTimeIST LocalTZA (Some (startRaw p)) /\
  stop p = formatTimeIST LocalTZA (Some (stopRaw p)) /\
  image p = None.
Proof.
  intros Hb. cbv zeta. unfold programme_of. simpl.
  repeat split; try (now apply attrs_lookup).
  - intros H. now rewrite title_absent.
  - intros H. now rewrite subtitle_absent.
Qed.

Lemma extract_doc (items : list (list N * Block)) (tail : list N) :
  wf_doc items tail ->
  parseEPGProgrammes LocalTZA (render_doc items tail)
  = List.map (fun it => programme_of LocalTZA (attr_text (snd it), b_inner (snd it)))
             items.
Proof.
  intros H. unfold parseEPGProgrammes.
  now rewrite matchAll_doc, List.map_map.
Qed.

Lemma Forall2_map_r {A B} (R : A -> B -> Prop) (f : A -> B) (l : list A) :
  Forall (fun x => R x (f x)) l -> Forall2 R l (List.map f l).
Proof. induction 1; simpl; constructor; auto. Qed.

End Host.

(** C2: for a document of well-formed [<programme>] blocks, the extractor
    emits exactly one record per block, in document order; a block without
    a [start], [stop] or [channel] attribute has the empty string in that
    field, a block without a title element has the title ["Untitled"], and
    a block without a sub-title element has the empty sub-title. *)
Theorem extract_one_record_per_block
        (LocalTZA : Z -> Z) (items : list (list N * Block)) (tail : list N) :
  wf_doc items tail ->
  Forall2
    (fun it p =>
       attr_is (snd it) (lit "start") (startRaw p) /\
       attr_is (snd it) (lit "stop") (stopRaw p) /\
       attr_is (snd it) (lit "channel") (channel p) /\
       (no_title (b_inner (snd it)) -> title p = lit "Untitled") /\
       (no_subtitle (b_inner (snd it)) -> subTitle p = []))
    items (parseEPGProgrammes LocalTZA (render_doc items tail)).
Proof.
  intros H. rewrite extract_doc by exact H.
  apply Forall2_map_r. destruct H as [Hi _].
  eapply List.Forall_impl; [|exact Hi]. intros [f b] [_ Hb]. simpl.
  destruct (programme_of_block LocalTZA b Hb) as (H1 & H2 & H3 & H4 & H5 & _).
  auto.
Qed.


Lemma sample_wf : wf_doc sample_items (lit "</tv>").
Proof.
  split; [|reflexivity]. constructor; [|constructor].
  split; [reflexivity|]. unfold wf_block, sample_block. simpl b_attrs.
  split; [reflexivity|]. split.
  { repeat constructor; simpl; try reflexivity; discriminate. }
  split.
  { simpl. repeat constructor; simpl; intuition discriminate. }
  repeat split; reflexivity.
Qed.

Lemma extract_one_record_per_block_witness :
  Forall2
    (fun it p =>
       attr_is (snd it) (lit "start") (startRaw p) /\
       attr_is (snd it) (lit "stop") (stopRaw p) /\
       attr_is (snd it) (lit "channel") (channel p) /\
       (no_title (b_inner (snd it)) -> title p = lit "Untitled") /\
       (no_subtitle (b_inner (snd it)) -> subTitle p = []))
    sample_items
    (parseEPGProgrammes host_utc (render_doc sample_items (lit "</tv>"))).
Proof.
  apply (extract_one_record_per_block host_utc sample_items (lit "</tv>")).
  split; [|reflexivity]. constructor; [|constructor].
  split; [reflexivity|]. unfold wf_block, sample_block. simpl b_attrs.
  split; [reflexivity|]. split.
  { repeat constructor; simpl; try reflexivity; discriminate. }
  split.
  { simpl. repeat constructor; simpl; intuition discriminate. }
  repeat split; reflexivity.
Defined.

Lemma NoDup_map_inj_in {A B} (f : A -> B) (l : list A) (x y : A) :
  List.NoDup (List.map f l) -> In x l -> In y l -> f x = f y -> x = y.
Proof.
  induction l as [|a l IH]; simpl; intros Hd Hx Hy E; [tauto|].
  inversion Hd as [|? ? Hn Hd']; subst.
  destruct Hx as [-> | Hx], Hy as [-> | Hy]; auto.
  - exfalso. apply Hn. rewrite E. now apply in_map.
  - exfalso. apply Hn. rewrite <- E. now apply in_map.
Qed.

Lemma attr_is_unique (b : Block) (name v : list N) (a : Attr) :
  wf_block b -> attr_is b name v ->
  In a (b_attrs b) -> a_name a = name -> v = a_value a.
Proof.
  intros (_ & _ & Hd & _) [(a0 & Hin0 & Hn0 & Hv0) | [Hno _]] Hin Hn.
  - rewrite <- Hv0. f_equal.
    apply (NoDup_map_inj_in a_name (b_attrs b)); auto. congruence.
  - exfalso. exact (Hno a Hin Hn).
Qed.

#[local] Arguments attachChannel : simpl never.

Section Images.
Variable unicodeLowerCase : list N -> list N.
Variable readImageDb : list N -> ImageDbFile.

Lemma attachChannel_same_raw cache cache' (entry entry' : list N * list Programme) :
  attachChannel unicodeLowerCase readImageDb cache entry
  = Normal (cache', entry') ->
  fst entry' = fst entry /\ Forall2 same_raw (snd entry) (snd entry').
Proof.
  unfold attachChannel.
  match goal with
  | |- match ?m with Throw => _ | Normal _ => _ end = _ -> _ =>
      destruct m as [|[c0 t0]]
  end; [discriminate|].
  intros [= _ <-]. simpl. split; [reflexivity|].
  induction (snd entry); simpl; constructor; auto. split; reflexivity.
Qed.

Lemma attach_from_same_raw (bk out : Buckets) cache :
  attach_from unicodeLowerCase readImageDb cache bk = Normal out ->
  Forall2 (fun e e' => fst e' = fst e /\ Forall2 same_raw (snd e) (snd e'))
          bk out.
Proof.
  revert cache out. induction bk as [|e bk IH]; intros cache out; simpl.
  - intros [= <-]. constructor.
  - destruct (attachChannel unicodeLowerCase readImageDb cache e)
      as [|[cache' e']] eqn:E; [discriminate|].
    destruct (attach_from unicodeLowerCase readImageDb cache' bk)
      as [|done] eqn:F; [discriminate|].
    intros [= <-]. constructor.
    + exact (attachChannel_same_raw _ _ _ _ E).
    + exact (IH _ _ F).
Qed.

Lemma attach_same_raw (bk out : Buckets) :
  attachImagesToProgrammes unicodeLowerCase readImageDb bk = Normal out ->
  Forall2 (fun e e' => fst e' = fst e /\ Forall2 same_raw (snd e) (snd e'))
          bk out.
Proof. apply attach_from_same_raw. Qed.

End Images.

Import ChannelGrouperFacts.

(** C8, as amended: in every record that the pipeline emits for a document
    of well-formed blocks, whose attributes are written [name="value"] with
    double quotes, [startRaw] and [stopRaw] are the values of the block's
    [start] and [stop] attributes as the document writes them, whether or
    not they are timestamps that the display fields could normalise;
    grouping keeps the records, and attaching images, when it completes,
    keeps both fields. *)
Theorem raw_timestamps_verbatim
        (LocalTZA : Z -> Z) (unicodeLowerCase : list N -> list N)
        (readImageDb : list N -> ImageDbFile)
        (items : list (list N * Block)) (tail : list N) :
  wf_doc items tail ->
  Forall2
    (fun it p =>
       (forall a, In a (b_attrs (snd it)) -> a_name a = lit "start" ->
                  startRaw p = a_value a) /\
       (forall a, In a (b_attrs (snd it)) -> a_name a = lit "stop" ->
                  stopRaw p = a_value a))
    items (parseEPGProgrammes LocalTZA (render_doc items tail)) /\
  (forall k l,
      In (k, l) (groupByChannel
                   (parseEPGProgrammes LocalTZA (render_doc items tail))) ->
      l = bucket_of k (parseEPGProgrammes LocalTZA (render_doc items tail))) /\
  (forall byChannel,
      attachImagesToProgrammes
        unicodeLowerCase readImageDb
        (groupByChannel (parseEPGProgrammes LocalTZA (render_doc items tail)))
      = Normal byChannel ->
      Forall2
        (fun e e' => fst e' = fst e /\ Forall2 same_raw (snd e) (snd e'))
        (groupByChannel (parseEPGProgrammes LocalTZA (render_doc items tail)))
        byChannel).
Proof.
  intros H. split; [|split].
  - rewrite extract_doc by exact H.
    apply Forall2_map_r. destruct H as [Hi _].
    eapply List.Forall_impl; [|exact Hi]. intros [f b] [_ Hb]. simpl.
    destruct (programme_of_block LocalTZA b Hb) as (H1 & H2 & _).
    split; intros a Hin Hn.
    + now apply (attr_is_unique b (lit "start")).
    + now apply (attr_is_unique b (lit "stop")).
  - intros k l Hin. rewrite groupByChannel_grouped in Hin.
    unfold grouped in Hin. apply in_map_iff in Hin.
    destruct Hin as (k' & E & _). now inversion E.
  - intros byChannel. apply attach_same_raw.
Qed.

(** C8 as stated fails for a block that writes its attributes with
    apostrophes: the record has the empty [startRaw] though the document
    writes a [start] attribute. *)
Lemma raw_lost_in_apostrophes :
  exists p,
    parseEPGProgrammes
      host_utc
      (lit "<programme"
           ++ render_attr_apos
                (mkAttr (lit " ") (lit "start") (lit "20240101000000 +0000"))
           ++ lit "></programme>")
    = [p] /\
    startRaw p = [] /\
    startRaw p
    <> a_value (mkAttr (lit " ") (lit "start") (lit "20240101000000 +0000")).
Proof.
  eexists. split; [vm_compute; reflexivity|].
  split; [reflexivity | discriminate].
Qed.

Lemma raw_timestamps_verbatim_witness :
  Forall2
    (fun it p =>
       (forall a, In a (b_attrs (snd it)) -> a_name a = lit "start" ->
                  startRaw p = a_value a) /\
       (forall a, In a (b_attrs (snd it)) -> a_name a = lit "stop" ->
                  stopRaw p = a_value a))
    sample_items
    (parseEPGProgrammes host_utc (render_doc sample_items (lit "</tv>"))).
Proof.
  apply (raw_timestamps_verbatim host_utc (fun s => s) (fun _ => NotFound)
                                 sample_items (lit "</tv>")).
  split; [|reflexivity]. constructor; [|constructor].
  split; [reflexivity|]. unfold wf_block, sample_block. simpl b_attrs.
  split; [reflexivity|]. split.
  { repeat constructor; simpl; try reflexivity; discriminate. }
  split.
  { simpl. repeat constructor; simpl; intuition discriminate. }
  repeat split; reflexivity.
Defined.

(** The sample block keeps its start attribute, which is no timestamp, in
    both [startRaw] and [start]. *)
Lemma sample_extract :
  List.map (fun p => (startRaw p, start p, stopRaw p, title p))
           (parseEPGProgrammes host_utc (render_doc sample_items (lit "</tv>")))
  = [(lit "garbage", lit "garbage", [], lit "Untitled")].
Proof. vm_compute. reflexivity. Qed.

(** The end-to-end scenario, on a host whose zone is UTC. *)
Lemma end_to_end_scenario :
  List.map (fun p => (startRaw p, start p, stop p, channel p, title p, subTitle p))
           (parseEPGProgrammes host_utc scenario_xml)
  = [(lit "20240101120000 +0530", lit "2024-01-01 12:00:00 IST",
      lit "2024-01-01 12:30:00 IST", lit "c1", lit "News", [])].
Proof. vm_compute. reflexivity. Qed.

End ExtractorClaims.

(** ** ChannelGrouper and ImageResolver: the claims *)

Module GroupingClaims.
Import ChannelGrouperFacts ImageResolverFacts.

(** C7: [groupByChannel] puts every programme whose channel is empty into
    the bucket of key ["unknown"], makes one bucket per distinct key in the
    order of first appearance, and keeps the extraction order inside every
    bucket; two [ch1] blocks around one [ch2] block give the two keys
    [ch1] and [ch2] with two programmes and one. *)
Theorem groupByChannel_buckets :
  (forall ps,
      groupByChannel ps
      = List.map (fun k => (k, bucket_of k ps))
                 (first_occurrences (List.map bucket_key ps))) /\
  (forall p, channel p = [] -> bucket_key p = lit "unknown") /\
  (forall ps p,
      In p ps -> channel p = [] ->
      exists l, In (lit "unknown", l) (groupByChannel ps) /\ In p l) /\
  (forall LocalTZA,
      List.map (fun e => (fst e, List.map title (snd e)))
               (groupByChannel (parseEPGProgrammes LocalTZA three_blocks))
      = [(lit "ch1", [lit "A"; lit "C"]); (lit "ch2", [lit "B"])]).
Proof.
  split; [exact groupByChannel_grouped|]. split; [|split].
  - intros p H. unfold bucket_key. now rewrite H.
  - intros ps p Hin Hc. exists (bucket_of (lit "unknown") ps).
    assert (Hk : bucket_key p = lit "unknown")
      by (unfold bucket_key; now rewrite Hc).
    split.
    + rewrite groupByChannel_grouped. unfold grouped.
      apply in_map_iff. exists (lit "unknown"). split; [reflexivity|].
      apply first_occurrences_In. rewrite <- Hk. now apply in_map.
    + unfold bucket_of. apply filter_In. split; [exact Hin|].
      rewrite Hk. apply str_eqb_refl.
  - intros LocalTZA. vm_compute. reflexivity.
Qed.

Lemma groupByChannel_buckets_witness :
  exists l,
    In (lit "unknown", l)
       (groupByChannel
          (parseEPGProgrammes host_utc (lit "<programme></programme>"))) /\
    In (mkProgramme [] [] [] [] [] (lit "Untitled") [] None) l.
Proof.
  apply (proj1 (proj2 (proj2 groupByChannel_buckets))).
  - simpl. left. reflexivity.
  - reflexivity.
Defined.

(** C9: the image of a programme is looked up under its title, trimmed and
    lower-cased, in the title index of its channel: the indexed URL when
    the index has that key, the default URL otherwise; with the index
    [{"the show": "http://img/1.png"}], the title ["  The Show  "] gives
    ["http://img/1.png"]. *)
Theorem resolveImage_lookup (unicodeLowerCase : list N -> list N) :
  (forall schedule title,
      resolveImage unicodeLowerCase
                   (Some (buildTitleMap unicodeLowerCase schedule)) title
      = default DEFAULT_IMAGE
                (buildTitleMap unicodeLowerCase schedule
                   !! toLowerCase unicodeLowerCase (trim title))) /\
  (forall (map : gmap (list N) (list N)) title,
      index_ok map ->
      resolveImage unicodeLowerCase (Some map) title
      = default DEFAULT_IMAGE
                (map !! toLowerCase unicodeLowerCase (trim title))) /\
  (forall title, resolveImage unicodeLowerCase None title = DEFAULT_IMAGE) /\
  resolveImage unicodeLowerCase
               (Some {[ lit "the show" := lit "http://img/1.png" ]})
               (lit "  The Show  ")
  = lit "http://img/1.png" /\
  resolveImage unicodeLowerCase
               (Some {[ lit "the show" := lit "http://img/1.png" ]})
               (lit "Another Show")
  = DEFAULT_IMAGE.
Proof.
  split; [|split; [|split; [|split]]].
  - intros schedule title.
    apply (resolveImage_index unicodeLowerCase), buildTitleMap_ok.
  - intros map title H. now apply (resolveImage_index unicodeLowerCase).
  - intros title. unfold resolveImage.
    now destruct (title_key unicodeLowerCase (Some title)).
  - unfold resolveImage.
    change (title_key unicodeLowerCase (Some (lit "  The Show  ")))
      with (lit "the show").
    cbv beta iota zeta. rewrite lookup_singleton_eq. reflexivity.
  - unfold resolveImage.
    change (title_key unicodeLowerCase (Some (lit "Another Show")))
      with (lit "another show").
    cbv beta iota zeta. rewrite lookup_singleton_ne by discriminate.
    reflexivity.
Qed.

Lemma resolveImage_lookup_witness :
  resolveImage (fun s => s)
               (Some {[ lit "the show" := lit "http://img/1.png" ]})
               (lit "THE SHOW ")
  = default DEFAULT_IMAGE
            (({[ lit "the show" := lit "http://img/1.png" ]}
                : gmap (list N) (list N))
               !! toLowerCase (fun s => s) (trim (lit "THE SHOW "))).
Proof.
  apply (proj1 (proj2 (resolveImage_lookup (fun s => s)))).
  intros k v H. apply lookup_singleton_Some in H. destruct H as [<- <-].
  split; discriminate.
Defined.

End GroupingClaims.

(** ** TimeCodec: what parses, and what the display shows *)

Module TimeCodecProps.
Import DateFacts TimeCodecFacts FormatFacts TagStripperFacts.

(** X1: surrounding whitespace is irrelevant to the parser, and the parser
    fails exactly on the inputs whose trimmed form does not begin with 14
    digits. *)
Theorem parse_succeeds_iff_digits (raw : list N) :
  parseXmltvTime (Some raw) = parseXmltvTime (Some (trim raw)) /\
  (parseXmltvTime (Some raw) <> None <->
   exists ds rest, all_digits 14 ds /\ trim raw = ds ++ rest).
Proof.
  split.
  - destruct raw as [|c raw]; [reflexivity|].
    unfold parseXmltvTime.
    destruct (trim (c :: raw)) as [|d t] eqn:E; [reflexivity|].
    rewrite <- E, trim_idem. reflexivity.
  - split.
    + intros H. destruct raw as [|c raw]; [now elim H|].
      unfold parseXmltvTime, match_timestamp, digits14 in H.
      destruct ((length (firstn 14 (trim (c :: raw))) =? 14)%nat
                && forallb is_digit (firstn 14 (trim (c :: raw)))) eqn:E;
        [|now elim H].
      apply andb_true_iff in E. destruct E as [El Ed].
      apply Nat.eqb_eq in El.
      exists (firstn 14 (trim (c :: raw))), (skipn 14 (trim (c :: raw))).
      split; [split; assumption|]. symmetry. apply firstn_skipn.
    + intros (ds & rest & Hds & Ht).
      rewrite (parse_digits raw ds rest Hds Ht). discriminate.
Qed.

Lemma parse_succeeds_iff_digits_witness :
  parseXmltvTime (Some (lit " 20240101120000Z ")) <> None.
Proof.
  apply (proj2 (proj2 (parse_succeeds_iff_digits (lit " 20240101120000Z ")))).
  exists (lit "20240101120000"), (lit "Z"). split; [split|]; reflexivity.
Defined.

(** The display string of a parsed instant: the wall clock of the instant
    plus 5 h 30 min plus the host's offset. *)
Lemma format_display (LocalTZA : Z -> Z) (raw : list N) (t : Z) :
  parseXmltvTime (Some raw) = Some (mkDate (Some t)) ->
  Z.abs (t + 19800000) <= 8640000000000000 ->
  1000 <= YearFromTime (t + 19800000 + LocalTZA (t + 19800000)) <= 9999 ->
  formatTimeIST LocalTZA (Some raw)
  = let '(y, mo, d, h, mi, s) :=
      utc_reading (t + 19800000 + LocalTZA (t + 19800000)) in
    display y mo d h mi s.
Proof.
  intros P Hb Hy. unfold formatTimeIST. rewrite P.
  simpl getTime. simpl option_map.
  assert (Hn : new_Date (Some (t + 19800000)) = mkDate (Some (t + 19800000))).
  { unfold new_Date, TimeClip.
    destruct (Z.leb_spec (Z.abs (t + 19800000)) 8640000000000000);
      [reflexivity | lia]. }
  rewrite Hn.
  unfold getFullYear, getMonth, getDate, getHours, getMinutes, getSeconds,
    LocalTime. simpl getTime. simpl option_map.
  set (u := t + 19800000 + LocalTZA (t + 19800000)) in *.
  pose proof (instant_of_reading u) as I. unfold utc_reading in *.
  destruct I as [(Imo & Id & Ih & Imi & Is) _].
  assert (Hdim : DaysInMonth (YearFromTime u) (MonthFromTime u + 1) <= 31).
  { unfold DaysInMonth.
    repeat match goal with
           | |- context [match ?x with _ => _ end] => destruct x
           end; lia. }
  rewrite year4 by lia. rewrite !pad2 by lia. reflexivity.
Qed.

(** X2: on any host, the display string of a parsed timestamp is the UTC
    wall-clock reading of its instant plus 5 h 30 min plus the offset of
    the host's zone at that moment, in the form [YYYY-MM-DD HH:MM:SS IST],
    whenever the year shown has four digits. *)
Theorem display_adds_host_offset (LocalTZA : Z -> Z) (raw : list N) (t : Z) :
  parseXmltvTime (Some raw) = Some (mkDate (Some t)) ->
  Z.abs (t + 19800000) <= 8640000000000000 ->
  1000 <= YearFromTime (t + 19800000 + LocalTZA (t + 19800000)) <= 9999 ->
  exists y mo d h mi s,
    utc_reading (t + 19800000 + LocalTZA (t + 19800000)) = (y, mo, d, h, mi, s) /\
    valid_civil y mo d h mi s /\
    formatTimeIST LocalTZA (Some raw) = display y mo d h mi s.
Proof.
  intros P Hb Hy.
  pose proof (format_display LocalTZA raw t P Hb Hy) as F.
  pose proof (instant_of_reading (t + 19800000 + LocalTZA (t + 19800000))) as I.
  unfold utc_reading in *. destruct I as [Iv _].
  eexists _, _, _, _, _, _. split; [reflexivity|]. split; [exact Iv | exact F].
Qed.

Lemma display_adds_host_offset_witness :
  exists y mo d h mi s,
    utc_reading (1704067200000 + 19800000 + host_kolkata (1704067200000 + 19800000))
    = (y, mo, d, h, mi, s) /\
    valid_civil y mo d h mi s /\
    formatTimeIST host_kolkata (Some (lit "20240101000000Z"))
    = display y mo d h mi s.
Proof.
  apply (display_adds_host_offset host_kolkata (lit "20240101000000Z")
                                  1704067200000).
  - reflexivity.
  - vm_compute. discriminate.
  - vm_compute. split; discriminate.
Defined.

(** X3: on a host whose zone is UTC, a valid timestamp with the offset
    [+0530] (in either spelling) is displayed with its own date and time:
    parsing and formatting give back the wall clock that the digits
    write. *)
Theorem display_of_ist_timestamp
        (LocalTZA : Z -> Z) (raw ds ws tok rest : list N) :
  (forall t, LocalTZA t = 0) ->
  all_digits 14 ds ->
  1000 <= field 0 4 ds <= 9999 ->
  valid_civil (field 0 4 ds) (field 4 2 ds) (field 6 2 ds)
              (field 8 2 ds) (field 10 2 ds) (field 12 2 ds) ->
  forallb is_ws ws = true ->
  is_numeric_offset tok -> offset_value tok = 330 ->
  trim raw = ds ++ ws ++ tok ++ rest ->
  formatTimeIST LocalTZA (Some raw)
  = display (field 0 4 ds) (field 4 2 ds) (field 6 2 ds)
            (field 8 2 ds) (field 10 2 ds) (field 12 2 ds).
Proof.
  intros Hz Hds Hy Hv Hws Htok Hoff Ht.
  destruct (parse_numeric raw ds ws tok rest Hds Hws Htok Ht)
    as (u & Hu & Hs & P).
  rewrite (Hs ltac:(lia)) in *. rewrite Hoff in P.
  assert (Hb : Z.abs (stamp_instant ds) <= 400000000000000).
  { destruct (fields_range ds Hds) as (Ry & Rmo & Rd & Rh & Rmi & Rs).
    destruct (Date_UTC_fields _ _ _ _ _ _ Ry Rmo Rd Rh Rmi Rs)
      as (u' & Hu' & Hb & _).
    rewrite Hu in Hu'. inversion Hu'. subst u'. exact Hb. }
  pose proof (reading_of_instant _ _ _ _ _ _ Hv) as R.
  fold (stamp_instant ds) in R.
  assert (E : stamp_instant ds - 330 * 60000 + 19800000
              + LocalTZA (stamp_instant ds - 330 * 60000 + 19800000)
              = stamp_instant ds) by (rewrite Hz; lia).
  rewrite (format_display LocalTZA raw _ P); rewrite ?E.
  - now rewrite R.
  - lia.
  - unfold utc_reading in R. inversion R as [[HY HM HD HH HMi HS]].
    rewrite HY. exact Hy.
Qed.

Lemma display_of_ist_timestamp_witness :
  formatTimeIST host_utc (Some (lit "20240229235959 +05:30"))
  = display 2024 2 29 23 59 59.
Proof.
  apply (display_of_ist_timestamp host_utc (lit "20240229235959 +05:30")
           (lit "20240229235959") (lit " ") (lit "+05:30") []).
  - reflexivity.
  - split; reflexivity.
  - vm_compute. split; discriminate.
  - vm_compute. repeat split; discriminate.
  - reflexivity.
  - exists 43%N, (lit "05"), (lit ":"), (lit "30"). repeat split; auto.
  - reflexivity.
  - reflexivity.
Defined.

End TimeCodecProps.

(** ** TagStripper: the normal form *)

Module TagStripperProps.
Import TagStripperFacts.

#[local] Arguments tag_match : simpl never.
#[local] Arguments removeTags : simpl never.
#[local] Arguments collapseSpaces : simpl never.

Lemma no_match_at {A} (m : list N -> option (A * nat)) (a b : list N) :
  no_match m (a ++ b) -> m b = None.
Proof.
  induction a as [|c a IH]; simpl.
  - destruct b; simpl; tauto.
  - intros [_ H]. apply IH, H.
Qed.

Lemma no_match_intro {A} (m : list N -> option (A * nat)) (s : list N) :
  (forall a b, s = a ++ b -> m b = None) -> no_match m s.
Proof.
  induction s as [|c s IH]; intros H.
  - simpl. split; [apply (H [] []); reflexivity | exact I].
  - split; [apply (H [] (c :: s)); reflexivity|].
    apply IH. intros a b ->. apply (H (c :: a) b). reflexivity.
Qed.

Lemma tag_match_tag (t b : list N) :
  is_tag t -> exists n, tag_match (t ++ b) = Some (tt, n).
Proof.
  intros (body & Hne & Hb & ->). unfold tag_match. simpl.
  rewrite <- app_assoc. simpl.
  rewrite (break_at_app is_gt body b 62%N Hb eq_refl).
  destruct body; [congruence | eauto].
Qed.

Lemma tag_match_Some (s : list N) (r : unit * nat) :
  tag_match s = Some r -> exists t b, is_tag t /\ s = t ++ b.
Proof.
  unfold tag_match. destruct s as [|c s]; [discriminate|].
  destruct (N.eqb_spec c 60) as [->|]; [|discriminate].
  destruct (break_at is_gt s) as [[[|x body] rest]|] eqn:E; try discriminate.
  intros _. destruct (break_at_Some _ _ _ _ E) as (g & Hg & -> & Hb).
  unfold is_gt in Hg. apply N.eqb_eq in Hg. subst g.
  exists (60%N :: (x :: body) ++ [62%N]), rest. split.
  - exists (x :: body). repeat split; [discriminate | exact Hb].
  - simpl. now rewrite <- app_assoc.
Qed.

(** No tag in a text: no position where the tag expression matches. *)
Lemma no_tag_iff (s : list N) :
  no_match tag_match s <-> (forall a t b, is_tag t -> s <> a ++ t ++ b).
Proof.
  split.
  - intros H a t b Ht ->. apply no_match_at in H.
    destruct (tag_match_tag t b Ht) as [n Hn]. congruence.
  - intros H. apply no_match_intro. intros a b ->.
    destruct (tag_match b) as [r|] eqn:E; [|reflexivity].
    destruct (tag_match_Some b r E) as (t & b' & Ht & ->).
    now elim (H a t b' Ht).
Qed.

Lemma last_char_cons (c : N) (s : list N) :
  last_char (c :: s) = match s with [] => Some c | _ => last_char s end.
Proof. unfold last_char. destruct s; reflexivity. Qed.

Lemma trimEnd_last (s : list N) :
  match last_char (trimEnd s) with None => True | Some c => is_ws c = false end.
Proof.
  induction s as [|c s IH]; [exact I|].
  simpl. destruct (trimEnd s) as [|x r] eqn:E.
  - destruct (is_ws c) eqn:Hc; [exact I | exact Hc].
  - rewrite last_char_cons. exact IH.
Qed.

Lemma trimEnd_id (s : list N) :
  match last_char s with None => True | Some c => is_ws c = false end ->
  trimEnd s = s.
Proof.
  induction s as [|c s IH]; [reflexivity|].
  rewrite last_char_cons. intros H. simpl.
  destruct s as [|d s].
  - simpl. now rewrite H.
  - rewrite IH by exact H. reflexivity.
Qed.

Lemma stripTags_plain (s : list N) : plain_text (stripTags s).
Proof.
  split; [apply no_tag_iff, stripTags_no_tag|].
  split; [unfold stripTags; apply trim_ws_normal, collapseSpaces_normal|].
  unfold stripTags, trim. split.
  - apply trimEnd_head, dropWhile_head.
  - apply trimEnd_last.
Qed.

Lemma plain_fixed (s : list N) : plain_text s -> stripTags s = s.
Proof.
  intros (Ht & Hw & Hh & Hl). unfold stripTags.
  rewrite removeTags_id by now apply no_tag_iff.
  rewrite collapseSpaces_id by exact Hw.
  unfold trim, trimStart. rewrite dropWhile_id by exact Hh.
  now apply trimEnd_id.
Qed.

(** X4: the result of [stripTags] never contains a tag, has only single
    spaces as whitespace and none at either end; and the texts that
    [stripTags] leaves unchanged are exactly the texts of that form. *)
Theorem stripTags_plain_text :
  (forall s, plain_text (stripTags s)) /\
  (forall s, stripTags s = s <-> plain_text s).
Proof.
  split; [exact stripTags_plain|]. intros s. split.
  - intros <-. apply stripTags_plain.
  - apply plain_fixed.
Qed.

Lemma stripTags_plain_text_witness :
  stripTags (lit "a > b < c") = lit "a > b < c".
Proof.
  apply (proj2 (proj2 stripTags_plain_text (lit "a > b < c"))).
  change (lit "a > b < c") with (stripTags (lit " a >  b <b>< c")).
  apply (proj1 stripTags_plain_text).
Defined.

End TagStripperProps.

(** ** ImageResolver: the cache of title indexes *)

Module ImageResolverProps.
Import ChannelGrouperFacts ImageResolverFacts.

#[local] Arguments attachChannel : simpl never.

Section Env.
Variable unicodeLowerCase : list N -> list N.
Variable readImageDb : list N -> ImageDbFile.

Lemma cache_step (cache : gmap FileId (option (gmap (list N) (list N))))
      (id : FileId) r :
  cache_ok unicodeLowerCase readImageDb cache ->
  r = match cache !! id with
      | Some (Some map) => Normal (cache, Some map)
      | _ =>
          match loadImageMapFile unicodeLowerCase readImageDb id with
          | Throw => Throw
          | Normal loaded => Normal (<[id := loaded]> cache, loaded)
          end
      end ->
  match loadImageMapFile unicodeLowerCase readImageDb id with
  | Throw => r = Throw
  | Normal loaded =>
      exists cache', r = Normal (cache', loaded) /\
                     cache_ok unicodeLowerCase readImageDb cache'
  end.
Proof.
  intros Hc ->.
  assert (Hi : forall loaded,
             loadImageMapFile unicodeLowerCase readImageDb id = Normal loaded ->
             cache_ok unicodeLowerCase readImageDb (<[id := loaded]> cache)).
  { intros loaded Hl id' m'. destruct (decide (id = id')) as [<-|Hne].
    - rewrite lookup_insert_eq. intros [= ->]. exact Hl.
    - rewrite lookup_insert_ne by exact Hne. apply Hc. }
  destruct (cache !! id) as [[m|]|] eqn:E.
  - rewrite (Hc _ _ E). eauto.
  - destruct (loadImageMapFile unicodeLowerCase readImageDb id); eauto.
  - destruct (loadImageMapFile unicodeLowerCase readImageDb id); eauto.
Qed.

Lemma index_for_id (k : list N) :
  index_for unicodeLowerCase readImageDb k
  = match
      match CHANNEL_IMAGE_ID_MAP k with
      | Some v => Some (inl v)
      | None =>
          match readImageDb (fileName (inr k)) with
          | NotFound => None
          | _ => match k with
                 | [] => None
                 | _ :: _ => Some (inr k)
                 end
          end
      end
    with
    | Some id => loadImageMapFile unicodeLowerCase readImageDb id
    | None => Normal None
    end.
Proof.
  unfold index_for. destruct (CHANNEL_IMAGE_ID_MAP k); [reflexivity|].
  destruct (readImageDb (fileName (inr k))); destruct k; reflexivity.
Qed.

Lemma found_spec cache (imageFileId : option FileId) :
  cache_ok unicodeLowerCase readImageDb cache ->
  match
    match imageFileId with
    | Some id => loadImageMapFile unicodeLowerCase readImageDb id
    | None => Normal None
    end
  with
  | Throw =>
      match imageFileId with
      | Some id =>
          match cache !! id with
          | Some (Some map) => Normal (cache, Some map)
          | _ =>
              match loadImageMapFile unicodeLowerCase readImageDb id with
              | Throw => Throw
              | Normal loaded => Normal (<[id := loaded]> cache, loaded)
              end
          end
      | None => Normal (cache, None)
      end = Throw
  | Normal index =>
      exists cache',
        match imageFileId with
        | Some id =>
            match cache !! id with
            | Some (Some map) => Normal (cache, Some map)
            | _ =>
                match loadImageMapFile unicodeLowerCase readImageDb id with
                | Throw => Throw
                | Normal loaded => Normal (<[id := loaded]> cache, loaded)
                end
            end
        | None => Normal (cache, None)
        end = Normal (cache', index) /\
        cache_ok unicodeLowerCase readImageDb cache'
  end.
Proof.
  intros Hc. destruct imageFileId as [id|].
  - exact (cache_step cache id _ Hc eq_refl).
  - exists cache. split; [reflexivity | exact Hc].
Qed.

Lemma attachChannel_spec cache (e : list N * list Programme) :
  cache_ok unicodeLowerCase readImageDb cache ->
  match with_images unicodeLowerCase readImageDb e with
  | Throw => attachChannel unicodeLowerCase readImageDb cache e = Throw
  | Normal e' =>
      exists cache',
        attachChannel unicodeLowerCase readImageDb cache e
        = Normal (cache', e') /\
        cache_ok unicodeLowerCase readImageDb cache'
  end.
Proof.
  intros Hc. unfold attachChannel, with_images. cbv zeta.
  rewrite index_for_id.
  match goal with
  | |- context [match ?o with
                | Some id => loadImageMapFile _ _ id
                | None => Normal None
                end] =>
      pose proof (found_spec cache o Hc) as H; revert H; generalize o
  end.
  intros o.
  destruct (match o with
            | Some id => loadImageMapFile unicodeLowerCase readImageDb id
            | None => Normal None
            end) as [|index].
  - intros H. now rewrite H.
  - intros (cache' & H & Hc'). rewrite H. exists cache'.
    split; [reflexivity | exact Hc'].
Qed.

Lemma attach_from_collect cache (bk : Buckets) :
  cache_ok unicodeLowerCase readImageDb cache ->
  attach_from unicodeLowerCase readImageDb cache bk
  = collect (List.map (with_images unicodeLowerCase readImageDb) bk).
Proof.
  revert cache. induction bk as [|e bk IH]; intros cache Hc; [reflexivity|].
  cbn [attach_from List.map collect].
  pose proof (attachChannel_spec cache e Hc) as H.
  destruct (with_images unicodeLowerCase readImageDb e) as [|e'].
  - now rewrite H.
  - destruct H as (cache' & -> & Hc'). now rewrite (IH cache' Hc').
Qed.

Lemma attach_uncached (bk : Buckets) :
  attachImagesToProgrammes unicodeLowerCase readImageDb bk
  = collect (List.map (with_images unicodeLowerCase readImageDb) bk).
Proof.
  apply attach_from_collect. intros id m H.
  rewrite lookup_empty in H. discriminate.
Qed.

Lemma collect_Normal {A} (l : list (Completion A)) (r : list A) :
  collect l = Normal r <-> l = List.map Normal r.
Proof.
  revert r. induction l as [|[|a] l IH]; intros r; simpl.
  - split; [intros [= <-]; reflexivity|]. destruct r; [reflexivity|discriminate].
  - split; [discriminate|]. destruct r; discriminate.
  - destruct (collect l) as [|r'] eqn:E.
    + split; [discriminate|]. destruct r as [|b r]; [discriminate|].
      simpl. intros [= -> H]. apply (IH r) in H. discriminate.
    + split.
      * intros [= <-]. simpl. f_equal. now apply IH.
      * destruct r as [|b r]; [discriminate|]. simpl. intros [= -> H].
        apply (IH r) in H. now inversion H.
Qed.

Lemma collect_Throw {A} (l : list (Completion A)) :
  collect l = Throw <-> In Throw l.
Proof.
  induction l as [|[|a] l IH]; simpl.
  - split; [discriminate | tauto].
  - split; auto.
  - destruct (collect l).
    + split; [intros _; right; now apply IH | reflexivity].
    + split; [discriminate|]. intros [H|H]; [discriminate|].
      now apply IH in H.
Qed.

End Env.
End ImageResolverProps.

(** ** ChannelGrouper and the driver: partition, files, index and counts *)

Module GroupingProps.
Import ChannelGrouperFacts ImageResolverFacts.


Lemma bucket_key_nonempty (p : Programme) : bucket_key p <> [].
Proof. unfold bucket_key. destruct (channel p); discriminate. Qed.

Lemma flat_map_bucket_cons (ks : list (list N)) (p : Programme) (ps : list Programme) :
  List.NoDup ks -> In (bucket_key p) ks ->
  Permutation (flat_map (fun k => bucket_of k (p :: ps)) ks)
              (p :: flat_map (fun k => bucket_of k ps) ks).
Proof.
  intros Hnd Hin. apply in_split in Hin. destruct Hin as (k1 & k2 & ->).
  assert (Hout : forall ks', ~ In (bucket_key p) ks' ->
             flat_map (fun k => bucket_of k (p :: ps)) ks'
             = flat_map (fun k => bucket_of k ps) ks').
  { induction ks' as [|k ks' IH]; cbn [flat_map]; intros H; [reflexivity|].
    rewrite IH by (simpl in H; tauto). f_equal.
    unfold bucket_of. cbn [List.filter].
    destruct (str_eqb k (bucket_key p)) eqn:E; [|reflexivity].
    apply str_eqb_eq in E. simpl in H. tauto. }
  apply List.NoDup_remove_2 in Hnd.
  rewrite !flat_map_app. cbn [flat_map].
  rewrite (Hout k1), (Hout k2) by (intros H; apply Hnd, in_or_app; tauto).
  replace (bucket_of (bucket_key p) (p :: ps))
    with (p :: bucket_of (bucket_key p) ps)
    by (unfold bucket_of; cbn [List.filter]; now rewrite str_eqb_refl).
  apply Permutation_sym, Permutation_middle.
Qed.

Lemma flat_map_bucket (ks : list (list N)) (ps : list Programme) :
  List.NoDup ks -> (forall p, In p ps -> In (bucket_key p) ks) ->
  Permutation (flat_map (fun k => bucket_of k ps) ks) ps.
Proof.
  intros Hnd. induction ps as [|p ps IH]; intros Hin.
  - clear. induction ks; simpl; auto.
  - rewrite flat_map_bucket_cons by (auto; apply Hin; now left).
    constructor. apply IH. intros q Hq. apply Hin. now right.
Qed.

Lemma grouped_concat (ps : list Programme) :
  Permutation (List.concat (List.map snd (grouped ps))) ps.
Proof.
  unfold grouped. rewrite List.map_map. simpl.
  rewrite <- flat_map_concat_map.
  apply flat_map_bucket; [apply first_occurrences_NoDup|].
  intros p Hp. apply first_occurrences_In. now apply in_map.
Qed.


Lemma grouped_keys (ps : list Programme) :
  List.map fst (grouped ps) = first_occurrences (List.map bucket_key ps).
Proof. unfold grouped. rewrite List.map_map. simpl. apply List.map_id. Qed.

Lemma grouped_buckets (ps : list Programme) :
  Forall (fun e => fst e <> [] /\ snd e <> [] /\
                   Forall (fun p => bucket_key p = fst e) (snd e))
         (grouped ps).
Proof.
  unfold grouped. apply List.Forall_forall. intros e He.
  apply in_map_iff in He. destruct He as (k & <- & Hk). simpl.
  apply first_occurrences_In, in_map_iff in Hk. destruct Hk as (p & <- & Hp).
  split; [apply bucket_key_nonempty|]. split.
  - intros H.
    assert (Hin : In p (bucket_of (bucket_key p) ps)).
    { apply filter_In. split; [exact Hp | apply str_eqb_refl]. }
    rewrite H in Hin. exact Hin.
  - apply List.Forall_forall. intros q Hq. apply filter_In in Hq.
    destruct Hq as [_ Hq]. apply str_eqb_eq in Hq. now symmetry.
Qed.

(** *** The sort of the channel index *)

Section Sort.
Variable localeCompare : list N -> list N -> Z.

Lemma sort_insert_perm (x : IndexEntry) (l : list IndexEntry) :
  Permutation (sort_insert localeCompare x l) (x :: l).
Proof.
  induction l as [|y l IH]; simpl; [reflexivity|].
  destruct (localeCompare (fst y) (fst x) <? 0); [|reflexivity].
  rewrite IH. apply perm_swap.
Qed.

Lemma sort_perm (l : list IndexEntry) : Permutation (sort localeCompare l) l.
Proof.
  induction l as [|x l IH]; simpl; [reflexivity|].
  rewrite sort_insert_perm. now constructor.
Qed.

Lemma sort_insert_sorted (x : IndexEntry) (l : list IndexEntry) :
  consistent localeCompare ->
  StronglySorted (in_order localeCompare) l ->
  StronglySorted (in_order localeCompare) (sort_insert localeCompare x l).
Proof.
  intros [Htot Htrans]. induction 1 as [|y l Hs IH Hy]; simpl.
  - constructor; constructor.
  - destruct (localeCompare (fst y) (fst x) <? 0) eqn:E.
    + apply Z.ltb_lt in E. constructor; [exact IH|].
      apply (Permutation_Forall (Permutation_sym (sort_insert_perm x l))).
      constructor; [unfold in_order; lia | exact Hy].
    + apply Z.ltb_ge in E.
      assert (Hxy : in_order localeCompare x y) by (apply Htot, E).
      constructor; [now constructor|].
      constructor; [exact Hxy|].
      eapply List.Forall_impl; [|exact Hy].
      intros z Hz. exact (Htrans _ _ _ Hxy Hz).
Qed.

Lemma sort_sorted (l : list IndexEntry) :
  consistent localeCompare ->
  StronglySorted (in_order localeCompare) (sort localeCompare l).
Proof.
  intros Hc. induction l as [|x l IH]; simpl; [constructor|].
  now apply sort_insert_sorted.
Qed.

Lemma sorted_counts (l : list IndexEntry) :
  list_sum (List.map snd (sort localeCompare l)) = list_sum (List.map snd l).
Proof. apply Permutation_list_sum, Permutation_map, sort_perm. Qed.

End Sort.

Lemma counts_sum (bk : Buckets) :
  list_sum (List.map snd (List.map index_entry bk))
  = length (List.concat (List.map snd bk)).
Proof.
  induction bk as [|e bk IH]; simpl; [reflexivity|].
  rewrite length_app. now rewrite IH.
Qed.

(** *** Images *)

Section Images.
Variable unicodeLowerCase : list N -> list N.
Variable readImageDb : list N -> ImageDbFile.

Lemma resolveImage_nonempty idx (t : list N) :
  resolveImage unicodeLowerCase idx t <> [].
Proof.
  unfold resolveImage.
  destruct (match idx with
            | Some map =>
                match title_key unicodeLowerCase (Some t) with
                | [] => None
                | _ :: _ => map !! title_key unicodeLowerCase (Some t)
                end
            | None => None
            end) as [[|c img]|]; discriminate.
Qed.

(** What attaching gives when it completes: every bucket with the images
    of some index. *)
Lemma attach_Normal (bk out : Buckets) :
  attachImagesToProgrammes unicodeLowerCase readImageDb bk = Normal out ->
  Forall2 (fun e e' =>
             exists index,
               index_for unicodeLowerCase readImageDb (fst e) = Normal index /\
               e' = set_images unicodeLowerCase index e)
          bk out.
Proof.
  rewrite ImageResolverProps.attach_uncached. intros H.
  apply (proj1 (ImageResolverProps.collect_Normal _ _)) in H.
  revert out H. induction bk as [|e bk IH]; intros [|e' out]; simpl;
    try discriminate; [constructor|].
  intros [= He Hout]. constructor; [|now apply IH].
  unfold with_images in He.
  destruct (index_for unicodeLowerCase readImageDb (fst e)) as [|index];
    [discriminate|].
  exists index. split; [reflexivity|]. now inversion He.
Qed.

Lemma attach_keys (bk out : Buckets) :
  attachImagesToProgrammes unicodeLowerCase readImageDb bk = Normal out ->
  List.map fst out = List.map fst bk /\
  List.map index_entry out = List.map index_entry bk /\
  List.map forget_image (List.concat (List.map snd out))
  = List.map forget_image (List.concat (List.map snd bk)).
Proof.
  intros H. apply attach_Normal in H.
  induction H as [|e e' bk out (index & _ & ->) _ (IH1 & IH2 & IH3)];
    [auto|].
  simpl. rewrite IH1, IH2, !List.map_app, IH3. split; [reflexivity|].
  split.
  - unfold index_entry, set_images. simpl. now rewrite length_map.
  - f_equal. unfold set_images. simpl. rewrite List.map_map. reflexivity.
Qed.

Lemma file_not_Malformed (k : list N) :
  readImageDb (fileName (image_file k)) <> Malformed ->
  exists index, index_for unicodeLowerCase readImageDb k = Normal index.
Proof.
  unfold image_file, index_for, loadImageMapFile.
  destruct (CHANNEL_IMAGE_ID_MAP k) as [v|].
  - destruct (readImageDb (fileName (inl v))); intros H; eauto. congruence.
  - destruct (readImageDb (fileName (inr k))); destruct k; intros H; eauto;
      congruence.
Qed.

Lemma unusable_index (k : list N) index (t : list N) :
  unusable (readImageDb (fileName (image_file k))) = true ->
  index_for unicodeLowerCase readImageDb k = Normal index ->
  resolveImage unicodeLowerCase index t = DEFAULT_IMAGE.
Proof.
  unfold image_file, index_for, loadImageMapFile.
  destruct (CHANNEL_IMAGE_ID_MAP k) as [v|].
  - destruct (readImageDb (fileName (inl v))) as [| | |[[|i l]|]];
      try discriminate; intros _ [= <-]; unfold resolveImage;
      destruct (title_key unicodeLowerCase (Some t)); reflexivity.
  - destruct (readImageDb (fileName (inr k))) as [| | |[[|i l]|]];
      try discriminate; destruct k; intros _ [= <-]; unfold resolveImage;
      destruct (title_key unicodeLowerCase (Some t)); reflexivity.
Qed.

End Images.

(** *** The writes of a run *)

Lemma read_back_snoc (w : Writes) (file : list N) (wr : list N * Content) :
  read_back (w ++ [wr]) file
  = if str_eqb (fst wr) file then Some (snd wr) else read_back w file.
Proof. unfold read_back. now rewrite fold_left_app. Qed.

Lemma read_back_app_other (w w' : Writes) (file : list N) :
  ~ In file (List.map fst w') -> read_back (w ++ w') file = read_back w file.
Proof.
  induction w' as [|wr w' IH] using rev_ind; intros H.
  - now rewrite app_nil_r.
  - rewrite app_assoc, read_back_snoc.
    rewrite List.map_app, in_app_iff in H. simpl in H.
    destruct (str_eqb (fst wr) file) eqn:E.
    + apply str_eqb_eq in E. tauto.
    + apply IH. tauto.
Qed.

Section Host.
Variable localeCompare : list N -> list N -> Z.
Variable epgPath rootPath : list N -> list N.
Variable dirsReady : bool.
Variable writable : list N -> bool.

Lemma write_channels_spec (entries : Buckets) (writes : Writes)
      (pushed : list IndexEntry) :
  match write_channels epgPath writable entries writes pushed with
  | (w, Some index) =>
      w = writes ++ List.map (channel_write epgPath) entries /\
      index = pushed ++ List.map index_entry entries
  | (w, None) =>
      exists done rest,
        entries = done ++ rest /\
        w = writes ++ List.map (channel_write epgPath) done
  end.
Proof.
  revert writes pushed.
  induction entries as [|[k l] entries IH]; intros writes pushed; simpl.
  - now rewrite !app_nil_r.
  - destruct (writable (epgPath (k ++ lit ".json"))).
    + specialize (IH (writes ++ [(epgPath (k ++ lit ".json"), ChannelJson l)])
                     (pushed ++ [(k, length l)])).
      destruct (write_channels _ _ entries _ _) as [w [index|]].
      * destruct IH as [-> ->]. now rewrite <- !app_assoc.
      * destruct IH as (done & rest & -> & ->).
        exists ((k, l) :: done), rest. now rewrite <- app_assoc.
    + exists [], ((k, l) :: entries). now rewrite app_nil_r.
Qed.

(** The writes of a run that completes. *)
Lemma write_all_Done (total : nat) (bk : Buckets) (w : Writes) :
  write_all localeCompare epgPath rootPath dirsReady writable total bk = Done w ->
  w = List.map (channel_write epgPath) bk
        ++ [(rootPath (lit "channels.json"),
             IndexJson (sort localeCompare (List.map index_entry bk)));
            (rootPath (lit "meta.json"),
             MetaJson {| totalProgrammes := total;
                         totalChannels := length bk |})].
Proof.
  unfold write_all. destruct dirsReady; [|discriminate]. simpl.
  pose proof (write_channels_spec bk [] []) as H.
  destruct (write_channels epgPath writable bk [] []) as [w0 [index|]];
    [|discriminate].
  destruct H as [-> ->]. simpl.
  destruct (writable (rootPath (lit "channels.json"))); [|discriminate].
  destruct (writable (rootPath (lit "meta.json"))); [|discriminate].
  intros [= <-]. rewrite <- app_assoc. simpl. repeat f_equal.
  rewrite (Permutation_length (sort_perm _ _)). apply length_map.
Qed.

(** The writes of any run: files of the first buckets; or those of all
    buckets and the index; or these and the meta. *)
Lemma write_all_writes (total : nat) (bk : Buckets) :
  exists done rest,
    bk = done ++ rest /\
    (write_all localeCompare epgPath rootPath dirsReady writable total bk
     = Exit1 (List.map (channel_write epgPath) done) \/
     write_all localeCompare epgPath rootPath dirsReady writable total bk
     = Exit1 (List.map (channel_write epgPath) bk
                ++ [(rootPath (lit "channels.json"),
                     IndexJson (sort localeCompare (List.map index_entry bk)))]) \/
     exists m,
       write_all localeCompare epgPath rootPath dirsReady writable total bk
       = Done (List.map (channel_write epgPath) bk
                 ++ [(rootPath (lit "channels.json"),
                      IndexJson (sort localeCompare (List.map index_entry bk)));
                     (rootPath (lit "meta.json"), MetaJson m)])).
Proof.
  unfold write_all. destruct dirsReady; simpl.
  - pose proof (write_channels_spec bk [] []) as H.
    destruct (write_channels epgPath writable bk [] []) as [w0 [index|]].
    + destruct H as [-> ->]. simpl. exists bk, []. rewrite app_nil_r.
      split; [reflexivity|].
      destruct (writable (rootPath (lit "channels.json"))); [|now left].
      right.
      destruct (writable (rootPath (lit "meta.json"))); simpl.
      * right. eexists. rewrite <- app_assoc. reflexivity.
      * now left.
    + destruct H as (done & rest & -> & ->). exists done, rest.
      split; [reflexivity|]. now left.
  - exists [], bk. split; [reflexivity|]. now left.
Qed.

Lemma channel_write_not_index (l : Buckets) (file : list N) (c : Content) :
  In (file, c) (List.map (channel_write epgPath) l) ->
  exists programmes, c = ChannelJson programmes.
Proof.
  intros Hin. apply in_map_iff in Hin. destruct Hin as (e & He & _).
  inversion He. eauto.
Qed.

Lemma Exit1_no_meta (total : nat) (bk : Buckets) (w : Writes) :
  write_all localeCompare epgPath rootPath dirsReady writable total bk
  = Exit1 w ->
  forall file m, ~ In (file, MetaJson m) w.
Proof.
  intros H file m Hin.
  destruct (write_all_writes total bk) as (done & rest & _ & [E|[E|[m' E]]]);
    rewrite E in H; [| |discriminate]; injection H as <-.
  - apply channel_write_not_index in Hin. destruct Hin as [? ?]. discriminate.
  - apply in_app_iff in Hin. destruct Hin as [Hin|[Hin|[]]]; [|discriminate].
    apply channel_write_not_index in Hin. destruct Hin as [? ?]. discriminate.
Qed.

Lemma read_back_channel (bk : Buckets) (e : list N * list Programme) :
  List.NoDup (List.map (fun e => fst (channel_write epgPath e)) bk) ->
  In e bk ->
  read_back (List.map (channel_write epgPath) bk)
            (fst (channel_write epgPath e))
  = Some (snd (channel_write epgPath e)).
Proof.
  induction bk as [|x bk IH] using rev_ind; intros Hd Hin; [destruct Hin|].
  rewrite List.map_app in Hd |- *. cbn [List.map] in Hd |- *.
  rewrite read_back_snoc. apply in_app_iff in Hin. cbn [In] in Hin.
  destruct (str_eqb (fst (channel_write epgPath x))
                    (fst (channel_write epgPath e))) eqn:E.
  - apply str_eqb_eq in E.
    destruct Hin as [Hin|[->|[]]]; [|reflexivity].
    exfalso. apply List.NoDup_remove_2 in Hd. rewrite app_nil_r in Hd.
    apply Hd. rewrite E. apply in_map_iff. eauto.
  - apply str_eqb_neq in E.
    destruct Hin as [Hin|[->|[]]]; [|congruence].
    apply IH; [|exact Hin].
    apply List.NoDup_remove_1 in Hd. now rewrite app_nil_r in Hd.
Qed.

End Host.

Lemma bucket_of_concat (k : list N) (sources : list (list Programme)) :
  bucket_of k (List.concat sources)
  = List.concat (List.map (bucket_of k) sources).
Proof.
  unfold bucket_of. induction sources as [|s sources IH]; simpl; [reflexivity|].
  now rewrite List.filter_app, IH.
Qed.

(** X5: [groupByChannel] partitions the programmes: the buckets together
    hold every programme exactly once, no key occurs twice, no key is
    the empty string, no bucket is empty, and every programme of a bucket
    has the bucket's key as its channel (or no channel, in the bucket
    ["unknown"]). *)
Theorem groupByChannel_partition (ps : list Programme) :
  Permutation (List.concat (List.map snd (groupByChannel ps))) ps /\
  List.NoDup (List.map fst (groupByChannel ps)) /\
  Forall (fun e => fst e <> [] /\ snd e <> [] /\
                   Forall (fun p => bucket_key p = fst e) (snd e))
         (groupByChannel ps).
Proof.
  rewrite groupByChannel_grouped. split; [apply grouped_concat|]. split.
  - rewrite grouped_keys. apply first_occurrences_NoDup.
  - apply grouped_buckets.
Qed.


Lemma Forall2_map_left {A B C} (R : B -> C -> Prop) (f : A -> B)
      (l : list A) (l' : list C) :
  Forall2 R (List.map f l) l' -> Forall2 (fun a c => R (f a) c) l l'.
Proof.
  revert l'. induction l as [|a l IH]; intros l' H; inversion H; subst;
    constructor; auto.
Qed.

Lemma Forall2_In_left {A B} (R : A -> B -> Prop) (l : list A) (l' : list B)
      (a : A) :
  Forall2 R l l' -> In a l -> exists b, In b l' /\ R a b.
Proof.
  induction 1 as [|x y l l' Hxy _ IH]; intros Hin; [destruct Hin|].
  destruct Hin as [->|Hin]; [exists y; split; [now left | exact Hxy]|].
  destruct (IH Hin) as (b & Hb & Hab). exists b. split; [now right | exact Hab].
Qed.

Section Attached.
Variable unicodeLowerCase : list N -> list N.
Variable readImageDb : list N -> ImageDbFile.

Lemma attach_grouped (ps : list Programme) (out : Buckets) :
  attachImagesToProgrammes unicodeLowerCase readImageDb (groupByChannel ps)
  = Normal out ->
  Forall2
    (fun k e' =>
       exists index,
         index_for unicodeLowerCase readImageDb k = Normal index /\
         e' = (k, List.map
                    (fun p => set_image
                                (resolveImage unicodeLowerCase index (title p))
                                p)
                    (bucket_of k ps)))
    (first_occurrences (List.map bucket_key ps)) out.
Proof.
  rewrite groupByChannel_grouped. intros H.
  apply attach_Normal in H. unfold grouped in H.
  apply Forall2_map_left in H. exact H.
Qed.

Lemma attached_images (bk out : Buckets) :
  attachImagesToProgrammes unicodeLowerCase readImageDb bk = Normal out ->
  Forall (fun e =>
            Forall (fun p => exists img, image p = Some img /\ img <> [])
                   (snd e))
         out.
Proof.
  intros H. apply attach_Normal in H.
  induction H as [|e e' bk out (index & _ & ->) _ IH]; constructor; [|exact IH].
  unfold set_images. simpl. apply List.Forall_forall. intros p Hp.
  apply in_map_iff in Hp. destruct Hp as (p0 & <- & _). simpl.
  eexists. split; [reflexivity | apply resolveImage_nonempty].
Qed.

End Attached.

(** X6: the cache of title indexes does not change what attaching images
    gives: it throws exactly when loading the index of some channel
    throws, and otherwise every channel has its programmes in order, each
    with the image that its title resolves to in the index of the
    channel's own file; the file is that of the table's value (an
    inherited one included), else the file named after the channel if
    there is one, else there is no index. *)
Theorem images_by_channel
        (unicodeLowerCase : list N -> list N)
        (readImageDb : list N -> ImageDbFile) :
  (forall bk,
      attachImagesToProgrammes unicodeLowerCase readImageDb bk
      = collect (List.map (with_images unicodeLowerCase readImageDb) bk)) /\
  (forall ps out,
      attachImagesToProgrammes unicodeLowerCase readImageDb (groupByChannel ps)
      = Normal out ->
      Forall2
        (fun k e' =>
           exists index,
             index_for unicodeLowerCase readImageDb k = Normal index /\
             e' = (k, List.map
                        (fun p =>
                           set_image
                             (resolveImage unicodeLowerCase index (title p)) p)
                        (bucket_of k ps)))
        (first_occurrences (List.map bucket_key ps)) out).
Proof.
  split.
  - apply ImageResolverProps.attach_uncached.
  - apply attach_grouped.
Qed.

Lemma images_by_channel_witness :
  Forall2
    (fun k e' =>
       exists index,
         index_for (fun s => s)
                   (fun name =>
                      if str_eqb name (lit "hbo.json")
                      then Parsed (Some [mkItem (Some (lit "News"))
                                                (Some (lit "http://i/1.png"))])
                      else NotFound)
                   k = Normal index /\
         e' = (k, List.map
                    (fun p => set_image
                                (resolveImage (fun s => s) index (title p)) p)
                    (bucket_of k
                       [mkProgramme [] [] [] [] (lit "hbo") (lit "news") [] None;
                        mkProgramme [] [] [] [] (lit "constructor") (lit "B") []
                                    None])))
    (first_occurrences
       (List.map bucket_key
                 [mkProgramme [] [] [] [] (lit "hbo") (lit "news") [] None;
                  mkProgramme [] [] [] [] (lit "constructor") (lit "B") []
                              None]))
    [(lit "hbo",
      [mkProgramme [] [] [] [] (lit "hbo") (lit "news") []
                   (Some (lit "http://i/1.png"))]);
     (lit "constructor",
      [mkProgramme [] [] [] [] (lit "constructor") (lit "B") []
                   (Some DEFAULT_IMAGE)])].
Proof.
  apply (proj2 (images_by_channel _ _)). vm_compute. reflexivity.
Defined.

(** X7: when attaching images completes, every programme has an image,
    which is not the empty string; apart from the image, the programmes of
    the buckets are the programmes extracted, each one once. *)
Theorem every_programme_gets_image
        (unicodeLowerCase : list N -> list N)
        (readImageDb : list N -> ImageDbFile)
        (ps : list Programme) (out : Buckets) :
  attachImagesToProgrammes unicodeLowerCase readImageDb (groupByChannel ps)
  = Normal out ->
  Forall (fun e =>
            Forall (fun p => exists img, image p = Some img /\ img <> [])
                   (snd e))
         out /\
  Permutation (List.map forget_image (List.concat (List.map snd out)))
              (List.map forget_image ps).
Proof.
  intros H. split; [exact (attached_images _ _ _ _ H)|].
  destruct (attach_keys _ _ _ _ H) as (_ & _ & ->).
  apply Permutation_map. rewrite groupByChannel_grouped.
  apply grouped_concat.
Qed.

Lemma every_programme_gets_image_witness :
  Forall (fun e =>
            Forall (fun p => exists img, image p = Some img /\ img <> [])
                   (snd e))
         [(lit "hbo",
           [mkProgramme [] [] [] [] (lit "hbo") (lit "B") []
                        (Some DEFAULT_IMAGE)])] /\
  Permutation
    (List.map forget_image
       (List.concat
          (List.map snd
             [(lit "hbo",
               [mkProgramme [] [] [] [] (lit "hbo") (lit "B") []
                            (Some DEFAULT_IMAGE)])])))
    (List.map forget_image
              [mkProgramme [] [] [] [] (lit "hbo") (lit "B") [] None]).
Proof.
  apply (every_programme_gets_image (fun s => s) (fun _ => BadJson)).
  vm_compute. reflexivity.
Defined.

(** X8: when a run completes, it has made one write per bucket, in order,
    then written [channels.json], then [meta.json]; [channels.json] lists every channel
    key once with the number of its programmes; the counts add up to
    [totalProgrammes] of [meta.json], which is the number of programmes
    extracted, and [totalChannels] is the number of channel keys. *)
Theorem index_matches_files
        (localeCompare : list N -> list N -> Z)
        (unicodeLowerCase : list N -> list N)
        (readImageDb : list N -> ImageDbFile)
        (epgPath rootPath : list N -> list N) (dirsReady : bool)
        (writable : list N -> bool) (ps : list Programme) (w : Writes) :
  run localeCompare unicodeLowerCase readImageDb epgPath rootPath dirsReady
      writable ps = Done w ->
  exists bk index m,
    attachImagesToProgrammes unicodeLowerCase readImageDb (groupByChannel ps)
    = Normal bk /\
    w = List.map (channel_write epgPath) bk
          ++ [(rootPath (lit "channels.json"), IndexJson index);
              (rootPath (lit "meta.json"), MetaJson m)] /\
    Permutation index (List.map index_entry bk) /\
    List.NoDup (List.map fst index) /\
    List.map fst bk = first_occurrences (List.map bucket_key ps) /\
    list_sum (List.map snd index) = totalProgrammes m /\
    totalProgrammes m = length ps /\
    totalChannels m = length index.
Proof.
  unfold run.
  destruct (attachImagesToProgrammes unicodeLowerCase readImageDb
                                     (groupByChannel ps)) as [|bk] eqn:E;
    [discriminate|].
  intros H. apply write_all_Done in H.
  destruct (attach_keys _ _ _ _ E) as (Hk & Hi & Hf).
  rewrite groupByChannel_grouped, grouped_keys in Hk.
  exists bk, (sort localeCompare (List.map index_entry bk)),
    {| totalProgrammes := length ps; totalChannels := length bk |}.
  split; [reflexivity|]. split; [exact H|].
  split; [apply sort_perm|]. split; [|split; [exact Hk|split; [|split]]].
  - apply (Permutation_NoDup
             (Permutation_sym (Permutation_map fst (sort_perm _ _)))).
    rewrite List.map_map. unfold index_entry. simpl.
    change (List.map (fun x : list N * list Programme => fst x) bk)
      with (List.map fst bk).
    rewrite Hk. apply first_occurrences_NoDup.
  - rewrite sorted_counts, counts_sum. simpl.
    rewrite <- (length_map forget_image), Hf, length_map.
    apply Permutation_length. rewrite groupByChannel_grouped.
    apply grouped_concat.
  - reflexivity.
  - simpl. rewrite (Permutation_length (sort_perm _ _)).
    symmetry. apply length_map.
Qed.

Lemma index_matches_files_witness :
  exists bk index m,
    attachImagesToProgrammes
      (fun s => s) (fun _ => NotFound)
      (groupByChannel
         [mkProgramme [] [] [] [] (lit "zee") (lit "A") [] None;
          mkProgramme [] [] [] [] (lit "hbo") (lit "B") [] None;
          mkProgramme [] [] [] [] (lit "zee") (lit "C") [] None])
    = Normal bk /\
    writes_of
      (run by_length (fun s => s) (fun _ => NotFound)
           (fun n => lit "public/epg/" ++ n) (fun n => lit "public/" ++ n)
           true (fun _ => true)
           [mkProgramme [] [] [] [] (lit "zee") (lit "A") [] None;
            mkProgramme [] [] [] [] (lit "hbo") (lit "B") [] None;
            mkProgramme [] [] [] [] (lit "zee") (lit "C") [] None])
    = List.map (channel_write (fun n => lit "public/epg/" ++ n)) bk
        ++ [(lit "public/" ++ lit "channels.json", IndexJson index);
            (lit "public/" ++ lit "meta.json", MetaJson m)] /\
    Permutation index (List.map index_entry bk) /\
    List.NoDup (List.map fst index) /\
    List.map fst bk
    = first_occurrences
        (List.map bucket_key
           [mkProgramme [] [] [] [] (lit "zee") (lit "A") [] None;
            mkProgramme [] [] [] [] (lit "hbo") (lit "B") [] None;
            mkProgramme [] [] [] [] (lit "zee") (lit "C") [] None]) /\
    list_sum (List.map snd index) = totalProgrammes m /\
    totalProgrammes m = 3%nat /\
    totalChannels m = length index.
Proof.
  apply (index_matches_files by_length (fun s => s) (fun _ => NotFound)
                             (fun n => lit "public/epg/" ++ n)
                             (fun n => lit "public/" ++ n)
                             true (fun _ => true)).
  vm_compute. reflexivity.
Defined.

(** X9: a channel whose image file is missing, is not JSON, or has no
    schedule or an empty one has the default image on every programme; and
    attaching images completes unless the file of some channel is
    malformed. *)
Theorem unusable_file_gives_default
        (unicodeLowerCase : list N -> list N)
        (readImageDb : list N -> ImageDbFile) (bk : Buckets) :
  (forall out e,
      attachImagesToProgrammes unicodeLowerCase readImageDb bk = Normal out ->
      In e out ->
      unusable (readImageDb (fileName (image_file (fst e)))) = true ->
      Forall (fun p => image p = Some DEFAULT_IMAGE) (snd e)) /\
  ((forall e, In e bk ->
              readImageDb (fileName (image_file (fst e))) <> Malformed) ->
   exists out,
     attachImagesToProgrammes unicodeLowerCase readImageDb bk = Normal out).
Proof.
  split.
  - intros out e H Hin Hu. apply attach_Normal in H.
    assert (Hr : exists e0 index,
               index_for unicodeLowerCase readImageDb (fst e0) = Normal index /\
               e = set_images unicodeLowerCase index e0).
    { clear Hu. induction H as [|x y l l' (index & Hi & ->) _ IH];
        [destruct Hin|].
      destruct Hin as [<-|Hin]; eauto. }
    destruct Hr as (e0 & index & Hi & ->). unfold set_images in *.
    cbn [fst snd] in *. apply List.Forall_forall. intros p Hp.
    apply in_map_iff in Hp. destruct Hp as (p0 & <- & _).
    cbn [image set_image]. f_equal.
    exact (unusable_index _ _ _ _ _ Hu Hi).
  - intros H. rewrite ImageResolverProps.attach_uncached.
    induction bk as [|e l IH]; [exists []; reflexivity|].
    cbn [List.map collect].
    destruct (file_not_Malformed unicodeLowerCase readImageDb (fst e))
      as [index Hi]; [apply H; now left|].
    unfold with_images at 1. rewrite Hi.
    destruct IH as [out ->]; [intros x Hx; apply H; now right|].
    eexists. reflexivity.
Qed.

Lemma unusable_file_gives_default_witness :
  Forall (fun p => image p = Some DEFAULT_IMAGE)
         [set_image DEFAULT_IMAGE
                    (mkProgramme [] [] [] [] (lit "hbo") (lit "B") [] None)].
Proof.
  apply (proj1 (unusable_file_gives_default
                  (fun s => s) (fun _ => BadJson)
                  [(lit "hbo",
                    [mkProgramme [] [] [] [] (lit "hbo") (lit "B") [] None])])
               [(lit "hbo",
                 [set_image DEFAULT_IMAGE
                            (mkProgramme [] [] [] [] (lit "hbo") (lit "B") []
                                         None)])]
               (lit "hbo",
                [set_image DEFAULT_IMAGE
                           (mkProgramme [] [] [] [] (lit "hbo") (lit "B") []
                                        None)])).
  - vm_compute. reflexivity.
  - left. reflexivity.
  - reflexivity.
Defined.

(** X10: under a comparator that is consistent, the sort of the channel
    index puts any index in order, and the entries of [channels.json] are
    in order whenever a run writes it. *)
Theorem index_sorted (localeCompare : list N -> list N -> Z) :
  consistent localeCompare ->
  (forall pushed,
      StronglySorted (in_order localeCompare) (sort localeCompare pushed)) /\
  (forall unicodeLowerCase readImageDb epgPath rootPath dirsReady writable
          ps file index,
      In (file, IndexJson index)
         (writes_of (run localeCompare unicodeLowerCase readImageDb
                         epgPath rootPath dirsReady writable ps)) ->
      StronglySorted (in_order localeCompare) index).
Proof.
  intros Hc. split; [intros pushed; now apply sort_sorted|].
  intros ulc read epgPath rootPath dirsReady writable ps file index.
  unfold run.
  destruct (attachImagesToProgrammes ulc read (groupByChannel ps)) as [|bk];
    [intros []|].
  destruct (write_all_writes localeCompare epgPath rootPath dirsReady writable
                             (length ps) bk)
    as (done & rest & _ & [E|[E|[m E]]]); rewrite E; simpl; intros Hin.
  - apply channel_write_not_index in Hin. destruct Hin as [? ?]. discriminate.
  - apply in_app_iff in Hin. destruct Hin as [Hin|[Hin|[]]].
    + apply channel_write_not_index in Hin. destruct Hin as [? ?].
      discriminate.
    + inversion Hin; subst. now apply sort_sorted.
  - apply in_app_iff in Hin. destruct Hin as [Hin|[Hin|[Hin|[]]]].
    + apply channel_write_not_index in Hin. destruct Hin as [? ?].
      discriminate.
    + inversion Hin; subst. now apply sort_sorted.
    + discriminate.
Qed.

Lemma index_sorted_witness :
  StronglySorted
    (in_order by_length)
    (sort by_length [(lit "zee-tv", 2%nat); (lit "hbo", 1%nat)]).
Proof.
  apply index_sorted. unfold consistent, by_length. split; intros; lia.
Defined.

(** X11: the second script groups the programmes of all sources together:
    a channel key has one bucket, with its programmes of the first source
    before those of the later ones; and when the run completes it has
    made one write per bucket, then written [channels.json] and
    [meta.json], with
    [totalProgrammes] the sum over the sources and the counts of
    [channels.json] adding up to it. *)
Theorem merged_sources (sources : list (list Programme)) :
  groupByChannel (List.concat sources)
  = List.map
      (fun k => (k, List.concat (List.map (bucket_of k) sources)))
      (first_occurrences
         (List.concat (List.map (List.map bucket_key) sources))) /\
  (forall localeCompare epgPath rootPath dirsReady writable w,
      run_sources localeCompare epgPath rootPath dirsReady writable sources
      = Done w ->
      exists index m,
        w = List.map (channel_write epgPath)
                     (groupByChannel (List.concat sources))
              ++ [(rootPath (lit "channels.json"), IndexJson index);
                  (rootPath (lit "meta.json"), MetaJson m)] /\
        totalProgrammes m
        = list_sum (List.map (@length Programme) sources) /\
        list_sum (List.map snd index) = totalProgrammes m).
Proof.
  split.
  - rewrite groupByChannel_grouped. unfold grouped.
    rewrite List.concat_map. apply List.map_ext. intros k.
    now rewrite bucket_of_concat.
  - intros localeCompare epgPath rootPath dirsReady writable w H.
    unfold run_sources in H. apply write_all_Done in H.
    eexists. eexists. split; [exact H|]. simpl. split.
    + apply length_concat.
    + rewrite sorted_counts, counts_sum. apply Permutation_length.
      rewrite groupByChannel_grouped. apply grouped_concat.
Qed.

Lemma merged_sources_witness :
  exists index m,
    writes_of
      (run_sources by_length
                   (fun n => lit "public/epg/" ++ n) (fun n => lit "public/" ++ n)
                   true (fun _ => true)
                   [[mkProgramme [] [] [] [] (lit "zee") (lit "A") [] None];
                    [mkProgramme [] [] [] [] (lit "zee") (lit "B") [] None]])
    = List.map (channel_write (fun n => lit "public/epg/" ++ n))
               (groupByChannel
                  (List.concat
                     [[mkProgramme [] [] [] [] (lit "zee") (lit "A") [] None];
                      [mkProgramme [] [] [] [] (lit "zee") (lit "B") [] None]]))
        ++ [(lit "public/" ++ lit "channels.json", IndexJson index);
            (lit "public/" ++ lit "meta.json", MetaJson m)] /\
    totalProgrammes m
    = list_sum
        (List.map (@length Programme)
           [[mkProgramme [] [] [] [] (lit "zee") (lit "A") [] None];
            [mkProgramme [] [] [] [] (lit "zee") (lit "B") [] None]]) /\
    list_sum (List.map snd index) = totalProgrammes m.
Proof.
  apply (proj2 (merged_sources
                  [[mkProgramme [] [] [] [] (lit "zee") (lit "A") [] None];
                   [mkProgramme [] [] [] [] (lit "zee") (lit "B") [] None]])
               by_length
               (fun n => lit "public/epg/" ++ n) (fun n => lit "public/" ++ n)
               true (fun _ => true)).
  vm_compute. reflexivity.
Defined.

(** X22: when a run completes and no two channel keys denote the same
    file, nor one of them the file of [channels.json] or [meta.json], the
    file of every channel holds the programmes of that channel, in the order
    of extraction, each with the image that its title resolves to in the
    index of the channel. *)
Theorem files_hold_their_channels
        (localeCompare : list N -> list N -> Z)
        (unicodeLowerCase : list N -> list N)
        (readImageDb : list N -> ImageDbFile)
        (epgPath rootPath : list N -> list N) (dirsReady : bool)
        (writable : list N -> bool) (ps : list Programme) (w : Writes) :
  run localeCompare unicodeLowerCase readImageDb epgPath rootPath dirsReady
      writable ps = Done w ->
  List.NoDup (List.map (fun k => epgPath (k ++ lit ".json"))
                       (first_occurrences (List.map bucket_key ps))) ->
  (forall k, In k (first_occurrences (List.map bucket_key ps)) ->
             epgPath (k ++ lit ".json") <> rootPath (lit "channels.json") /\
             epgPath (k ++ lit ".json") <> rootPath (lit "meta.json")) ->
  forall k,
    In k (first_occurrences (List.map bucket_key ps)) ->
    exists index,
      index_for unicodeLowerCase readImageDb k = Normal index /\
      read_back w (epgPath (k ++ lit ".json"))
      = Some (ChannelJson
                (List.map
                   (fun p => set_image
                               (resolveImage unicodeLowerCase index (title p))
                               p)
                   (bucket_of k ps))).
Proof.
  unfold run.
  destruct (attachImagesToProgrammes unicodeLowerCase readImageDb
                                     (groupByChannel ps)) as [|bk] eqn:E;
    [discriminate|].
  intros H Hd Hr k Hk. apply write_all_Done in H. subst w.
  destruct (attach_keys _ _ _ _ E) as (Hkeys & _ & _).
  rewrite groupByChannel_grouped, grouped_keys in Hkeys.
  destruct (Forall2_In_left _ _ _ k (attach_grouped _ _ _ _ E) Hk)
    as (e & He & index & Hi & ->).
  exists index. split; [exact Hi|].
  rewrite read_back_app_other.
  - apply (read_back_channel
             epgPath bk
             (k, List.map
                   (fun p => set_image
                               (resolveImage unicodeLowerCase index (title p)) p)
                   (bucket_of k ps))); [|exact He].
    unfold channel_write. cbn [fst].
    rewrite <- Hkeys, List.map_map in Hd. exact Hd.
  - destruct (Hr k Hk) as [H1 H2]. simpl. intros Hin.
    destruct Hin as [Hin|[Hin|Hin]]; [congruence | congruence | exact Hin].
Qed.

Lemma files_hold_their_channels_witness :
  exists index,
    index_for (fun s => s) (fun _ => NotFound) (lit "hbo") = Normal index /\
    read_back
      (writes_of
         (run by_length (fun s => s) (fun _ => NotFound)
              (fun n => lit "public/epg/" ++ n) (fun n => lit "public/" ++ n)
              true (fun _ => true)
              [mkProgramme [] [] [] [] (lit "zee") (lit "A") [] None;
               mkProgramme [] [] [] [] (lit "hbo") (lit "B") [] None]))
      (lit "public/epg/" ++ lit "hbo" ++ lit ".json")
    = Some (ChannelJson
              (List.map
                 (fun p => set_image
                             (resolveImage (fun s => s) index (title p)) p)
                 (bucket_of
                    (lit "hbo")
                    [mkProgramme [] [] [] [] (lit "zee") (lit "A") [] None;
                     mkProgramme [] [] [] [] (lit "hbo") (lit "B") [] None]))).
Proof.
  apply (files_hold_their_channels
           by_length (fun s => s) (fun _ => NotFound)
           (fun n => lit "public/epg/" ++ n) (fun n => lit "public/" ++ n)
           true (fun _ => true)
           [mkProgramme [] [] [] [] (lit "zee") (lit "A") [] None;
            mkProgramme [] [] [] [] (lit "hbo") (lit "B") [] None]).
  - vm_compute. reflexivity.
  - vm_compute. repeat constructor; simpl; intuition discriminate.
  - intros k Hk. vm_compute in Hk.
    destruct Hk as [<-|[<-|[]]]; split; vm_compute; discriminate.
  - vm_compute. right. left. reflexivity.
Defined.

(** X23: a run that ends in the [catch] has not written [meta.json]: it
    wrote nothing, or the files of the first buckets only, or those of all
    buckets and [channels.json]. *)
Theorem failed_run_writes_no_meta
        (localeCompare : list N -> list N -> Z)
        (unicodeLowerCase : list N -> list N)
        (readImageDb : list N -> ImageDbFile)
        (epgPath rootPath : list N -> list N) (dirsReady : bool)
        (writable : list N -> bool) (ps : list Programme) (w : Writes) :
  run localeCompare unicodeLowerCase readImageDb epgPath rootPath dirsReady
      writable ps = Exit1 w ->
  (forall file m, ~ In (file, MetaJson m) w) /\
  (w = [] \/
   exists bk done rest,
     attachImagesToProgrammes unicodeLowerCase readImageDb (groupByChannel ps)
     = Normal bk /\
     bk = done ++ rest /\
     (w = List.map (channel_write epgPath) done \/
      w = List.map (channel_write epgPath) bk
            ++ [(rootPath (lit "channels.json"),
                 IndexJson (sort localeCompare (List.map index_entry bk)))])).
Proof.
  unfold run.
  destruct (attachImagesToProgrammes unicodeLowerCase readImageDb
                                     (groupByChannel ps)) as [|bk] eqn:E.
  - intros [= <-]. split; [intros ? ? []|now left].
  - intros H. pose proof (Exit1_no_meta _ _ _ _ _ _ _ _ H) as Hm.
    split; [exact Hm|]. right.
    destruct (write_all_writes localeCompare epgPath rootPath dirsReady
                               writable (length ps) bk)
      as (done & rest & Hb & [Hw|[Hw|[m Hw]]]);
      rewrite Hw in H; [| |discriminate]; injection H as <-.
    + exists bk, done, rest. auto.
    + exists bk, bk, []. rewrite app_nil_r. auto.
Qed.

Lemma failed_run_writes_no_meta_witness :
  writes_of
    (run by_length (fun s => s) (fun _ => NotFound)
         (fun n => lit "public/epg/" ++ n) (fun n => lit "public/" ++ n)
         true (fun file => negb (str_eqb file (lit "public/epg/a/b.json")))
         [mkProgramme [] [] [] [] (lit "zee") (lit "A") [] None;
          mkProgramme [] [] [] [] (lit "a/b") (lit "B") [] None])
  = [] \/
  exists bk done rest,
    attachImagesToProgrammes
      (fun s => s) (fun _ => NotFound)
      (groupByChannel
         [mkProgramme [] [] [] [] (lit "zee") (lit "A") [] None;
          mkProgramme [] [] [] [] (lit "a/b") (lit "B") [] None])
    = Normal bk /\
    bk = done ++ rest /\
    (writes_of
       (run by_length (fun s => s) (fun _ => NotFound)
            (fun n => lit "public/epg/" ++ n) (fun n => lit "public/" ++ n)
            true (fun file => negb (str_eqb file (lit "public/epg/a/b.json")))
            [mkProgramme [] [] [] [] (lit "zee") (lit "A") [] None;
             mkProgramme [] [] [] [] (lit "a/b") (lit "B") [] None])
     = List.map (channel_write (fun n => lit "public/epg/" ++ n)) done \/
     writes_of
       (run by_length (fun s => s) (fun _ => NotFound)
            (fun n => lit "public/epg/" ++ n) (fun n => lit "public/" ++ n)
            true (fun file => negb (str_eqb file (lit "public/epg/a/b.json")))
            [mkProgramme [] [] [] [] (lit "zee") (lit "A") [] None;
             mkProgramme [] [] [] [] (lit "a/b") (lit "B") [] None])
     = List.map (channel_write (fun n => lit "public/epg/" ++ n)) bk
         ++ [(lit "public/" ++ lit "channels.json",
              IndexJson (sort by_length (List.map index_entry bk)))]).
Proof.
  apply (proj2 (failed_run_writes_no_meta
                  by_length (fun s => s) (fun _ => NotFound)
                  (fun n => lit "public/epg/" ++ n) (fun n => lit "public/" ++ n)
                  true
                  (fun file => negb (str_eqb file (lit "public/epg/a/b.json")))
                  [mkProgramme [] [] [] [] (lit "zee") (lit "A") [] None;
                   mkProgramme [] [] [] [] (lit "a/b") (lit "B") [] None]
                  _ eq_refl)).
Defined.

End GroupingProps.

(** ** The image database: the title index and the accumulator *)

Module ImageDbProps.
Import ImageResolverFacts TagStripperFacts.

Section Index.
Variable unicodeLowerCase : list N -> list N.

Lemma buildTitleMap_from (schedule : list ScheduleItem)
      (map : gmap (list N) (list N)) (k : list N) :
  fold_left
    (fun map item =>
       let title := title_key unicodeLowerCase (item_title item) in
       let img := default [] (boxCoverImage item) in
       match title, img with
       | [], _ | _, [] => map
       | _, _ =>
           match map !! title with
           | Some _ => map
           | None => <[title := img]> map
           end
       end)
    schedule map !! k
  = match map !! k with
    | Some v => Some v
    | None => first_image unicodeLowerCase k schedule
    end.
Proof.
  revert map. induction schedule as [|item schedule IH]; intros map.
  - simpl. unfold first_image. simpl. now destruct (map !! k).
  - cbn [fold_left]. rewrite IH. clear IH.
    unfold first_image. cbn [List.find]. unfold indexable.
    destruct (title_key unicodeLowerCase (item_title item)) as [|c t] eqn:Et.
    { simpl. reflexivity. }
    destruct (default [] (boxCoverImage item)) as [|i img] eqn:Ei.
    { simpl. reflexivity. }
    cbv beta iota zeta. cbn [andb].
    destruct (str_eqb (c :: t) k) eqn:E.
    + apply str_eqb_eq in E. subst k.
      destruct (map !! (c :: t)) as [v|] eqn:Em.
      * now rewrite Em.
      * rewrite lookup_insert_eq. now rewrite Ei.
    + apply str_eqb_neq in E.
      destruct (map !! (c :: t)) as [v|] eqn:Em.
      * reflexivity.
      * rewrite lookup_insert_ne by exact E. reflexivity.
Qed.

Lemma buildTitleMap_first (schedule : list ScheduleItem) (k : list N) :
  buildTitleMap unicodeLowerCase schedule !! k
  = first_image unicodeLowerCase k schedule.
Proof.
  unfold buildTitleMap. rewrite buildTitleMap_from.
  now rewrite lookup_empty.
Qed.

End Index.

(** X12: the title index of a schedule gives, for a key, the image of the
    first entry of the schedule that has this key and an image; entries
    without a title or without an image are passed over. *)
Theorem first_entry_of_a_title_wins
        (unicodeLowerCase : list N -> list N)
        (schedule : list ScheduleItem) (k : list N) :
  buildTitleMap unicodeLowerCase schedule !! k
  = match List.find
            (fun item =>
               indexable unicodeLowerCase item
               && str_eqb (title_key unicodeLowerCase (item_title item)) k)
            schedule with
    | Some item => Some (default [] (boxCoverImage item))
    | None => None
    end.
Proof. apply buildTitleMap_first. Qed.

End ImageDbProps.

(** ** The accumulator of [update-epg-db.mjs] *)

Module DbUpdaterProps.
Import TagStripperFacts ImageResolverFacts.

Lemma merge_step_cases (st : MergeState) (r : ScheduleItem) :
  (storable r = true /\ ~ stored_title r ∈ existingTitles st /\
   merge_step st r
   = {| schedule := schedule st ++ [stored r];
        existingTitles := {[stored_title r]} ∪ existingTitles st;
        addedCount := S (addedCount st) |}) \/
  ((storable r = false \/ stored_title r ∈ existingTitles st) /\
   merge_step st r = st).
Proof.
  unfold merge_step, storable, stored, stored_title.
  destruct (trim (default [] (item_title r))) as [|c t]; [right; auto|].
  destruct (default [] (boxCoverImage r)) as [|i img]; [right; auto|].
  cbv beta iota zeta.
  destruct (bool_decide (Some (c :: t) ∈ existingTitles st)) eqn:E.
  - apply bool_decide_eq_true in E. right. auto.
  - apply bool_decide_eq_false in E. left. auto.
Qed.

Lemma stored_title_stored (r : ScheduleItem) :
  item_title (stored r) = stored_title r.
Proof. reflexivity. Qed.

Lemma titles_app (l1 l2 : list ScheduleItem) :
  titles (l1 ++ l2) = titles l1 ++ titles l2.
Proof. apply List.map_app. Qed.

Lemma titles_seen_init (existing : list ScheduleItem) :
  titles_seen {| schedule := existing;
                 existingTitles := list_to_set (List.map item_title existing);
                 addedCount := 0 |}.
Proof.
  intros t. simpl. rewrite elem_of_list_to_set.
  unfold titles. apply list_elem_of_In.
Qed.

(** The loop from any state in which the set of titles seen is that of the
    schedule. *)
Lemma merge_from (raw : list ScheduleItem) (st : MergeState) :
  titles_seen st ->
  exists added,
    schedule (fold_left merge_step raw st) = schedule st ++ added /\
    addedCount (fold_left merge_step raw st) = (addedCount st + length added)%nat /\
    titles_seen (fold_left merge_step raw st) /\
    Forall (fun it => exists r, In r raw /\ storable r = true /\ it = stored r)
           added /\
    List.NoDup (titles added) /\
    Forall (fun it => ~ In (item_title it) (titles (schedule st))) added /\
    absorbed (schedule (fold_left merge_step raw st)) raw.
Proof.
  revert st. induction raw as [|r raw IH]; intros st Hst.
  - exists []. simpl. rewrite app_nil_r.
    split; [reflexivity|]. split; [lia|]. split; [exact Hst|].
    split; [constructor|]. split; [constructor|]. split; [constructor|].
    intros r [].
  - cbn [fold_left].
    destruct (merge_step_cases st r) as [(Hs & Hn & E)|(Hs & E)]; rewrite E.
    + assert (Hst' : titles_seen
                {| schedule := schedule st ++ [stored r];
                   existingTitles := {[stored_title r]} ∪ existingTitles st;
                   addedCount := S (addedCount st) |}).
      { intros t. simpl. rewrite titles_app, in_app_iff, elem_of_union,
          elem_of_singleton, (Hst t). simpl. unfold stored_title.
        intuition congruence. }
      destruct (IH _ Hst') as (added & H1 & H2 & H3 & H4 & H5 & H6 & H7).
      simpl in H1, H2, H6.
      exists (stored r :: added).
      split; [|split; [|split; [|split; [|split; [|split]]]]].
      * rewrite H1, <- app_assoc. reflexivity.
      * rewrite H2. simpl. lia.
      * exact H3.
      * constructor.
        -- exists r. split; [now left|]. split; [exact Hs | reflexivity].
        -- eapply List.Forall_impl; [|exact H4].
           intros it (r' & Hr' & Hx). exists r'. split; [now right | exact Hx].
      * simpl. constructor; [|exact H5].
        intros Hin. apply in_map_iff in Hin. destruct Hin as (it & Hit & Hin).
        rewrite List.Forall_forall in H6. apply (H6 it Hin).
        rewrite titles_app, in_app_iff. right. simpl. left.
        rewrite Hit. reflexivity.
      * constructor.
        -- intros Hin. apply Hn, Hst. exact Hin.
        -- eapply List.Forall_impl; [|exact H6].
           intros it Hit Hin. apply Hit. rewrite titles_app, in_app_iff.
           now left.
      * intros r' [<-|Hr'] Hs'; [|now apply H7].
        rewrite H1, !titles_app, !in_app_iff. left. right. simpl. now left.
    + destruct (IH _ Hst) as (added & H1 & H2 & H3 & H4 & H5 & H6 & H7).
      exists added.
      split; [|split; [|split; [|split; [|split; [|split]]]]]; auto.
      * eapply List.Forall_impl; [|exact H4].
        intros it (r' & Hr' & Hx). exists r'. split; [now right | exact Hx].
      * intros r' [<-|Hr'] Hs'; [|now apply H7].
        destruct Hs as [Hs|Hs]; [congruence|].
        rewrite H1, titles_app, in_app_iff. left. now apply Hst.
Qed.

(** The loop adds nothing when the schedule has every title that it
    takes. *)
Lemma merge_absorbed (raw : list ScheduleItem) (st : MergeState) :
  titles_seen st -> absorbed (schedule st) raw ->
  fold_left merge_step raw st = st.
Proof.
  intros Hst. induction raw as [|r raw IH]; intros Ha; [reflexivity|].
  cbn [fold_left].
  destruct (merge_step_cases st r) as [(Hs & Hn & E)|(Hs & E)].
  - exfalso. apply Hn, Hst, Ha; [now left | exact Hs].
  - rewrite E. apply IH. intros r' Hr'. apply Ha. now right.
Qed.

Lemma absorbed_app (l added raw : list ScheduleItem) :
  absorbed l raw -> absorbed (l ++ added) raw.
Proof.
  intros H r Hr Hs. rewrite titles_app, in_app_iff. left. now apply H.
Qed.

Lemma mergeSchedule_spec (existing raw : list ScheduleItem) :
  exists added,
    schedule (mergeSchedule existing raw) = existing ++ added /\
    addedCount (mergeSchedule existing raw) = length added /\
    Forall (fun it => exists r, In r raw /\ storable r = true /\ it = stored r)
           added /\
    List.NoDup (titles added) /\
    Forall (fun it => ~ In (item_title it) (titles existing)) added /\
    absorbed (schedule (mergeSchedule existing raw)) raw.
Proof.
  destruct (merge_from raw _ (titles_seen_init existing))
    as (added & H1 & H2 & H3 & H4 & H5 & H6 & H7).
  exists added. unfold mergeSchedule.
  split; [|split; [|split; [|split; [|split]]]]; auto.
Qed.

Lemma mergeSchedule_absorbed (l raw : list ScheduleItem) :
  absorbed l raw ->
  schedule (mergeSchedule l raw) = l /\ addedCount (mergeSchedule l raw) = 0%nat.
Proof.
  intros H. unfold mergeSchedule.
  rewrite merge_absorbed; [split; reflexivity | apply titles_seen_init | exact H].
Qed.

(** *** One channel, and the run *)

Section Fetch.
Variable fetchChannel : Z -> Fetched.

Lemma processChannel_shape (p : Z) :
  (forall d, processChannel fetchChannel d p = None) \/
  (forall d, processChannel fetchChannel d p = Some d) \/
  (exists id name raw,
      forall d, processChannel fetchChannel d p
                = Some (<[id := Object (written d id name raw)]> d)).
Proof.
  unfold processChannel.
  destruct (fetchChannel p) as [| |apiData]; [left; auto | right; left; auto|].
  destruct (negb (code apiData =? 0)); [right; left; auto|].
  destruct (data apiData) as [payload|]; [|right; left; auto].
  destruct (channelMeta payload) as [cm|]; [|right; left; auto].
  destruct (meta_id cm) as [[|id|id]|]; [right; left; auto| | |right; left; auto].
  - right. right. exists (Z.pos id), (default [] (meta_name cm)),
                         (default [] (api_schedule payload)).
    reflexivity.
  - right. right. exists (Z.neg id), (default [] (meta_name cm)),
                         (default [] (api_schedule payload)).
    reflexivity.
Qed.

Lemma keeps_refl (f : ChannelFile) : keeps f f.
Proof.
  split; [|split]; auto. intros l H. exists []. now rewrite app_nil_r.
Qed.

Lemma keeps_trans (f g h : ChannelFile) : keeps f g -> keeps g h -> keeps f h.
Proof.
  intros (A1 & A2 & A3) (B1 & B2 & B3). split; [|split]; auto.
  intros l Hl. destruct (A1 l Hl) as (a & Ha).
  destruct (B1 _ Ha) as (b & Hb). exists (a ++ b). now rewrite app_assoc.
Qed.

Lemma dir_keeps_refl (d : DataDir) : dir_keeps d d.
Proof.
  intros id. destruct (d !! id) as [[|f]|] eqn:E; auto.
  exists f. split; [reflexivity | apply keeps_refl].
Qed.

Lemma dir_keeps_trans (d1 d2 d3 : DataDir) :
  dir_keeps d1 d2 -> dir_keeps d2 d3 -> dir_keeps d1 d3.
Proof.
  intros H12 H23 id. specialize (H12 id). specialize (H23 id).
  destruct (d1 !! id) as [[|f]|]; auto.
  - destruct H12 as [x Hx]. rewrite Hx in H23.
    destruct x as [|g]; [exact H23|]. destruct H23 as (h & -> & _). eauto.
  - destruct H12 as (g & Hg & Hfg). rewrite Hg in H23.
    destruct H23 as (h & Hh & Hgh). exists h. split; [exact Hh|].
    eapply keeps_trans; eassumption.
Qed.

Lemma keeps_written (d : DataDir) (id : Z) (name : list N)
      (raw : list ScheduleItem) (f : ChannelFile) :
  d !! id = Some (Object f) -> keeps f (written d id name raw).
Proof.
  intros E. unfold written, loadExistingChannelFile. rewrite E. simpl.
  split; [|split].
  - intros l Hl. rewrite Hl. simpl.
    destruct (mergeSchedule_spec l raw) as (added & H1 & _).
    exists added. now rewrite H1.
  - intros c Hc. now rewrite Hc.
  - intros n Hn. now rewrite Hn.
Qed.

Lemma dir_keeps_write (d : DataDir) (id : Z) (name : list N)
      (raw : list ScheduleItem) :
  dir_keeps d (<[id := Object (written d id name raw)]> d).
Proof.
  intros k. destruct (decide (id = k)) as [<-|Hne].
  - rewrite lookup_insert_eq.
    destruct (d !! id) as [[|f]|] eqn:E; auto.
    exists (written d id name raw). split; [reflexivity|].
    now apply keeps_written.
  - rewrite lookup_insert_ne by exact Hne.
    destruct (d !! k) as [[|f]|] eqn:E; auto.
    exists f. split; [reflexivity | apply keeps_refl].
Qed.

Lemma dir_keeps_step (d d' : DataDir) (p : Z) :
  processChannel fetchChannel d p = Some d' -> dir_keeps d d'.
Proof.
  destruct (processChannel_shape p) as [H|[H|(id & name & raw & H)]];
    rewrite H; intros [= <-].
  - apply dir_keeps_refl.
  - apply dir_keeps_write.
Qed.

Lemma main_from_keeps (ids : list Z) (d : DataDir) :
  dir_keeps d (main_from fetchChannel ids d).
Proof.
  revert d. induction ids as [|p ids IH]; intros d; simpl.
  - apply dir_keeps_refl.
  - destruct (processChannel fetchChannel d p) as [d'|] eqn:E.
    + eapply dir_keeps_trans; [exact (dir_keeps_step _ _ _ E) | apply IH].
    + apply dir_keeps_refl.
Qed.

(** The file [id] of [d] is one that writing the schedule [raw] to it
    does not change. *)
Lemma written_fixed (d : DataDir) (id : Z) (name : list N)
      (raw : list ScheduleItem) (f : ChannelFile) (c : Z) (n : list N)
      (l : list ScheduleItem) :
  d !! id = Some (Object f) ->
  channelId f = Some c -> channelName f = Some n ->
  channelScheduleData f = Some l -> absorbed l raw ->
  written d id name raw = f.
Proof.
  intros E Hc Hn Hl Ha. unfold written, loadExistingChannelFile.
  rewrite E. simpl. rewrite Hc, Hn, Hl. simpl.
  destruct (mergeSchedule_absorbed l raw Ha) as [-> _].
  destruct f. simpl in *. congruence.
Qed.

Lemma written_full (d : DataDir) (id : Z) (name : list N)
      (raw : list ScheduleItem) :
  exists c n l,
    channelId (written d id name raw) = Some c /\
    channelName (written d id name raw) = Some n /\
    channelScheduleData (written d id name raw) = Some l /\
    absorbed l raw.
Proof.
  unfold written, loadExistingChannelFile.
  destruct (d !! id) as [[|f]|]; simpl; do 3 eexists;
    (split; [reflexivity|]; split; [reflexivity|]; split; [reflexivity|]);
    match goal with
    | |- absorbed (schedule (mergeSchedule ?l _)) _ =>
        destruct (mergeSchedule_spec l raw) as (? & _ & _ & _ & _ & _ & H);
          exact H
    end.
Qed.

Lemma write_settled (d : DataDir) (id : Z) (name : list N)
      (raw : list ScheduleItem) (f : ChannelFile) (c : Z) (n : list N)
      (l : list ScheduleItem) :
  d !! id = Some (Object f) ->
  channelId f = Some c -> channelName f = Some n ->
  channelScheduleData f = Some l -> absorbed l raw ->
  <[id := Object (written d id name raw)]> d = d.
Proof.
  intros E Hc Hn Hl Ha.
  rewrite (written_fixed d id name raw f c n l E Hc Hn Hl Ha).
  now apply insert_id.
Qed.

Lemma settled_full (d : DataDir) (id : Z) (name : list N)
      (raw : list ScheduleItem) :
  <[id := Object (written d id name raw)]> d = d ->
  exists f c n l,
    d !! id = Some (Object f) /\
    channelId f = Some c /\ channelName f = Some n /\
    channelScheduleData f = Some l /\ absorbed l raw.
Proof.
  intros H.
  assert (E : d !! id = Some (Object (written d id name raw))).
  { rewrite <- H at 1. apply lookup_insert_eq. }
  destruct (written_full d id name raw) as (c & n & l & H1 & H2 & H3 & H4).
  exists (written d id name raw), c, n, l. auto.
Qed.

Lemma step_settles (d d' : DataDir) (p : Z) :
  processChannel fetchChannel d p = Some d' -> settled fetchChannel d' p.
Proof.
  unfold settled.
  destruct (processChannel_shape p) as [H|[H|(id & name & raw & H)]];
    rewrite !H; intros [= <-]; [now left|]. left. f_equal.
  destruct (written_full d id name raw) as (c & n & l & H1 & H2 & H3 & H4).
  eapply write_settled; eauto. apply lookup_insert_eq.
Qed.

Lemma settled_preserved (d d' : DataDir) (p q : Z) :
  settled fetchChannel d p ->
  processChannel fetchChannel d q = Some d' ->
  settled fetchChannel d' p.
Proof.
  unfold settled. intros Hs Hq. apply dir_keeps_step in Hq.
  destruct (processChannel_shape p) as [H|[H|(id & name & raw & H)]];
    rewrite !H in *; [now right | now left|].
  left. f_equal. destruct Hs as [Hs|Hs]; [|discriminate].
  injection Hs as Hs.
  destruct (settled_full d id name raw Hs) as (f & c & n & l & E & Hc & Hn & Hl & Ha).
  specialize (Hq id). rewrite E in Hq.
  destruct Hq as (f' & E' & K1 & K2 & K3).
  destruct (K1 l Hl) as (added & Hl').
  eapply write_settled; eauto. now apply absorbed_app.
Qed.

Lemma main_from_settled (ids : list Z) (d : DataDir) (done : list Z) :
  Forall (settled fetchChannel d) done ->
  Forall (settled fetchChannel (main_from fetchChannel ids d)) done /\
  main_from fetchChannel ids (main_from fetchChannel ids d)
  = main_from fetchChannel ids d.
Proof.
  revert d done. induction ids as [|p ids IH]; intros d done Hd.
  - simpl. auto.
  - cbn [main_from].
    destruct (processChannel fetchChannel d p) as [d1|] eqn:E.
    + assert (H1 : Forall (settled fetchChannel d1) (p :: done)).
      { constructor; [exact (step_settles _ _ _ E)|].
        eapply List.Forall_impl; [|exact Hd].
        intros q Hq. exact (settled_preserved _ _ _ _ Hq E). }
      destruct (IH d1 (p :: done) H1) as [H2 H3].
      split; [now inversion H2|].
      cbn [main_from]. inversion H2 as [|? ? Hp _]; subst.
      destruct Hp as [Hp|Hp]; rewrite Hp; [exact H3 | reflexivity].
    + split; [exact Hd|]. cbn [main_from]. now rewrite E.
Qed.

End Fetch.

(** *** What the accumulator stores, the converter finds *)

Section Index.
Variable unicodeLowerCase : list N -> list N.
Hypothesis lower_nonempty : forall s, s <> [] -> unicodeLowerCase s <> [].

Lemma toLowerCase_nonempty (s : list N) :
  s <> [] -> toLowerCase unicodeLowerCase s <> [].
Proof.
  intros H. unfold toLowerCase.
  destruct (forallb (fun c => (c <? 128)%N) s); [|now apply lower_nonempty].
  destruct s; [congruence | discriminate].
Qed.

Lemma stored_indexable (r : ScheduleItem) :
  storable r = true -> indexable unicodeLowerCase (stored r) = true.
Proof.
  unfold storable, indexable, stored, title_key. simpl.
  rewrite trim_idem.
  destruct (trim (default [] (item_title r))) as [|c t] eqn:Et; [discriminate|].
  destruct (default [] (boxCoverImage r)) as [|i img]; [discriminate|].
  intros _.
  destruct (toLowerCase unicodeLowerCase (c :: t)) eqn:E; [|reflexivity].
  now apply toLowerCase_nonempty in E.
Qed.

Lemma indexable_image (it : ScheduleItem) :
  indexable unicodeLowerCase it = true -> default [] (boxCoverImage it) <> [].
Proof.
  unfold indexable.
  destruct (title_key unicodeLowerCase (item_title it)); [discriminate|].
  destruct (default [] (boxCoverImage it)); [discriminate|]. discriminate.
Qed.

Lemma first_image_found (k : list N) (l : list ScheduleItem) (it : ScheduleItem) :
  In it l -> indexable unicodeLowerCase it = true ->
  title_key unicodeLowerCase (item_title it) = k ->
  exists img, first_image unicodeLowerCase k l = Some img /\ img <> [].
Proof.
  intros Hin Hi Hk. unfold first_image.
  destruct (List.find _ l) as [y|] eqn:E.
  - apply List.find_some in E. destruct E as [_ E].
    apply andb_true_iff in E. destruct E as [E _].
    eexists. split; [reflexivity | now apply indexable_image].
  - apply (List.find_none _ _ E) in Hin. cbv beta in Hin.
    rewrite Hi, Hk, str_eqb_refl in Hin. discriminate.
Qed.

Lemma merged_resolves (existing raw : list ScheduleItem)
      (item : ScheduleItem) (t : list N) :
  Forall (fun it => indexable unicodeLowerCase it = true) existing ->
  In item raw -> storable item = true -> item_title item = Some t ->
  exists img,
    buildTitleMap unicodeLowerCase (schedule (mergeSchedule existing raw))
      !! title_key unicodeLowerCase (Some t) = Some img /\
    img <> [] /\
    resolveImage unicodeLowerCase
      (Some (buildTitleMap unicodeLowerCase
               (schedule (mergeSchedule existing raw)))) t = img.
Proof.
  intros Hex Hin Hs Ht.
  destruct (mergeSchedule_spec existing raw)
    as (added & H1 & _ & H3 & _ & _ & H6).
  assert (Hall : Forall (fun it => indexable unicodeLowerCase it = true)
                        (schedule (mergeSchedule existing raw))).
  { rewrite H1. apply Forall_app. split; [exact Hex|].
    eapply List.Forall_impl; [|exact H3].
    intros it (r & _ & Hr & ->). now apply stored_indexable. }
  specialize (H6 item Hin Hs). unfold titles in H6.
  apply in_map_iff in H6. destruct H6 as (it & Hit & Hit_in).
  assert (Hk : title_key unicodeLowerCase (item_title it)
               = title_key unicodeLowerCase (Some t)).
  { rewrite Hit. unfold stored_title, title_key. rewrite Ht. simpl.
    now rewrite trim_idem. }
  rewrite List.Forall_forall in Hall.
  destruct (first_image_found _ _ it Hit_in (Hall it Hit_in) Hk)
    as (img & Himg & Hne).
  exists img. rewrite resolveImage_index by apply buildTitleMap_ok.
  rewrite ImageDbProps.buildTitleMap_first, Himg. auto.
Qed.

End Index.

(** X13: the accumulator keeps the schedule of the file and appends to it:
    the entries added come from entries of the API's schedule that have a
    title, once trimmed, and an image; their titles are trimmed, differ from
    one another and from the titles that the file had; the count reported
    is their number. *)
Theorem merge_appends_new_titles (existing raw : list ScheduleItem) :
  exists added,
    schedule (mergeSchedule existing raw) = existing ++ added /\
    addedCount (mergeSchedule existing raw) = length added /\
    Forall (fun it => exists r, In r raw /\ storable r = true /\ it = stored r)
           added /\
    List.NoDup (titles added) /\
    Forall (fun it => ~ In (item_title it) (titles existing)) added.
Proof.
  destruct (mergeSchedule_spec existing raw)
    as (added & H1 & H2 & H3 & H4 & H5 & _).
  exists added. auto.
Qed.

(** X14: after the accumulator has run, the file has the title of every
    entry of the API's schedule that has a title and an image; running it
    again on the same schedule adds nothing. *)
Theorem merge_complete_and_idempotent (existing raw : list ScheduleItem) :
  let st := mergeSchedule existing raw in
  (forall r, In r raw -> storable r = true ->
             In (stored_title r) (titles (schedule st))) /\
  schedule (mergeSchedule (schedule st) raw) = schedule st /\
  addedCount (mergeSchedule (schedule st) raw) = 0%nat.
Proof.
  cbv zeta.
  destruct (mergeSchedule_spec existing raw) as (added & _ & _ & _ & _ & _ & H).
  split; [exact H|]. now apply mergeSchedule_absorbed.
Qed.

Lemma merge_complete_and_idempotent_witness :
  In (Some (lit "News"))
     (titles (schedule (mergeSchedule
                          [mkItem (Some (lit "Sport")) (Some (lit "http://i/0.png"))]
                          [mkItem (Some (lit " News ")) (Some (lit "http://i/1.png"))]))).
Proof.
  apply (proj1 (merge_complete_and_idempotent
                  [mkItem (Some (lit "Sport")) (Some (lit "http://i/0.png"))]
                  [mkItem (Some (lit " News ")) (Some (lit "http://i/1.png"))])
               (mkItem (Some (lit " News ")) (Some (lit "http://i/1.png")))).
  - simpl. left. reflexivity.
  - reflexivity.
Defined.

(** X15: a run of the accumulator removes no file, and a file that could
    be read keeps its id, its name and its schedule, to which entries are
    only appended; this holds whatever the API answers, also when a request
    throws and ends the run. *)
Theorem main_keeps_what_files_have
        (fetchChannel : Z -> Fetched) (d : gmap Z DbFile) :
  (forall id, is_Some (d !! id) -> is_Some (main fetchChannel d !! id)) /\
  (forall id f,
      d !! id = Some (Object f) ->
      exists f', main fetchChannel d !! id = Some (Object f') /\
                 (forall l, channelScheduleData f = Some l ->
                            exists added,
                              channelScheduleData f' = Some (l ++ added)) /\
                 (forall c, channelId f = Some c -> channelId f' = Some c) /\
                 (forall n, channelName f = Some n -> channelName f' = Some n)).
Proof.
  pose proof (main_from_keeps fetchChannel CHANNEL_IDS d) as H.
  unfold main. split.
  - intros id [x Hx]. specialize (H id). rewrite Hx in H.
    destruct x as [|f]; [exact H|]. destruct H as (f' & -> & _). eauto.
  - intros id f Hf. specialize (H id). rewrite Hf in H. exact H.
Qed.

Lemma main_keeps_what_files_have_witness :
  exists f', main (fun _ =>
                     Body (mkApiData 0
                             (Some (mkApiPayload
                                      (Some (mkChannelMeta (Some 239) (Some (lit "Pogo"))))
                                      (Some [mkItem (Some (lit " News "))
                                                    (Some (lit "http://i/1.png"))])))))
                  {[ 239 := Object (mkChannelFile (Some 239) (Some (lit "POGO"))
                                      (Some [mkItem (Some (lit "Sport")) None])) ]}
               !! 239 = Some (Object f') /\
    (forall l, Some [mkItem (Some (lit "Sport")) None] = Some l ->
               exists added, channelScheduleData f' = Some (l ++ added)) /\
    (forall c, Some 239 = Some c -> channelId f' = Some c) /\
    (forall n, Some (lit "POGO") = Some n -> channelName f' = Some n).
Proof.
  apply (proj2 (main_keeps_what_files_have _ _) 239
               (mkChannelFile (Some 239) (Some (lit "POGO"))
                              (Some [mkItem (Some (lit "Sport")) None]))).
  apply lookup_singleton_eq.
Defined.

(** X16: running the accumulator a second time with the same answers of
    the API leaves the data directory as the first run left it. *)
Theorem main_idempotent (fetchChannel : Z -> Fetched) (d : gmap Z DbFile) :
  main fetchChannel (main fetchChannel d) = main fetchChannel d.
Proof.
  unfold main.
  apply (main_from_settled fetchChannel CHANNEL_IDS d []). constructor.
Qed.

(** X17: when every entry that the file had has a title and an image, a
    title of the API's schedule that has an image is found by the converter
    in the index of the file after the accumulator has run: a programme of
    this title, up to case and surrounding whitespace, gets an image of the
    file, not the default one by lack of an entry. *)
Theorem stored_titles_resolve
        (unicodeLowerCase : list N -> list N)
        (existing raw : list ScheduleItem) (item : ScheduleItem) (t : list N) :
  (forall s, s <> [] -> unicodeLowerCase s <> []) ->
  Forall (fun it => indexable unicodeLowerCase it = true) existing ->
  In item raw -> storable item = true -> item_title item = Some t ->
  exists img,
    buildTitleMap unicodeLowerCase (schedule (mergeSchedule existing raw))
      !! title_key unicodeLowerCase (Some t) = Some img /\
    img <> [] /\
    resolveImage unicodeLowerCase
      (Some (buildTitleMap unicodeLowerCase
               (schedule (mergeSchedule existing raw)))) t = img.
Proof. intros. eapply merged_resolves; eauto. Qed.

Lemma stored_titles_resolve_witness :
  exists img,
    buildTitleMap (fun s => s)
      (schedule (mergeSchedule
                   [] [mkItem (Some (lit " News ")) (Some (lit "http://i/1.png"))]))
      !! title_key (fun s => s) (Some (lit " News ")) = Some img /\
    img <> [] /\
    resolveImage (fun s => s)
      (Some (buildTitleMap (fun s => s)
               (schedule (mergeSchedule
                            [] [mkItem (Some (lit " News "))
                                       (Some (lit "http://i/1.png"))]))))
      (lit " News ") = img.
Proof.
  apply (stored_titles_resolve
           (fun s => s) []
           [mkItem (Some (lit " News ")) (Some (lit "http://i/1.png"))]
           (mkItem (Some (lit " News ")) (Some (lit "http://i/1.png")))).
  - intros s H. exact H.
  - constructor.
  - simpl. left. reflexivity.
  - reflexivity.
  - reflexivity.
Defined.

End DbUpdaterProps.

(** ** ProgrammeExtractor: truncated documents, titles, repeated attributes *)

Module ExtractorProps.
Import TagStripperFacts TimeCodecFacts ScanFacts.

Lemma matchAll_none {A} (m : list N -> option (A * nat)) (s : list N) :
  (forall a b, s = a ++ b -> m b = None) -> matchAll m s = [].
Proof.
  intros H. rewrite <- (app_nil_r s).
  rewrite matchAll_through.
  - apply matchAll_nil. apply (H s []). now rewrite app_nil_r.
  - intros a b -> _. rewrite app_nil_r. now apply (H a b).
Qed.

Lemma prog_match_unclosed (a b : list N) :
  occurs_ci (lit "</programme>") (a ++ b) = false -> prog_match b = None.
Proof.
  intros H. unfold prog_match.
  destruct (strip_prefix_ci (lit "<programme") b) as [r1|] eqn:E1;
    [|reflexivity].
  destruct (match r1 with [] => true | c :: _ => negb (is_word c) end);
    [|reflexivity].
  destruct (break_at is_gt r1) as [[x r2]|] eqn:E2; [|reflexivity].
  destruct (strip_prefix_ci_suffix _ _ _ E1) as [o ->].
  destruct (break_at_Some _ _ _ _ E2) as (c & _ & -> & _).
  rewrite find_ci_absent; [reflexivity|].
  apply (occurs_ci_suffix _ (a ++ o ++ x ++ [c]) r2).
  replace ((a ++ o ++ x ++ [c]) ++ r2) with (a ++ o ++ x ++ c :: r2);
    [exact H|].
  repeat rewrite <- app_assoc. reflexivity.
Qed.

Lemma matchAll_blocks (items : list (list N * Block)) (tail : list N) :
  Forall (fun it => occurs_ci (lit "<programme") (fst it) = false /\
                    wf_block (snd it)) items ->
  matchAll prog_match (render_doc items tail)
  = List.map (fun it => (attr_text (snd it), b_inner (snd it))) items
      ++ matchAll prog_match tail.
Proof.
  intros Hi. unfold render_doc.
  induction Hi as [|[f b] items [Hf Hb] Hi IH]; [reflexivity|].
  cbn [List.map List.concat fst snd app] in *. rewrite <- !app_assoc.
  destruct (render_block_head b
              (List.concat (List.map (fun it => fst it ++ render_block (snd it)) items)
               ++ tail) Hb) as [t Et].
  rewrite matchAll_through
    by (apply prog_never_in; [rewrite Et; reflexivity | exact Hf]).
  rewrite (matchAll_at_match prog_match (render_block b) _
                             (attr_text b, b_inner b)).
  - f_equal. exact IH.
  - intros E. destruct Hb as (Ho & _).
    destruct (same_ci_head _ _ _ Ho eq_refl eq_refl) as [o' Eo].
    unfold render_block in E. rewrite Eo in E. discriminate.
  - now apply prog_match_block.
Qed.

Lemma matchFirst_through {A} (m : list N -> option (A * nat)) (f rest : list N) :
  never_in m f rest -> matchFirst m (f ++ rest) = matchFirst m rest.
Proof.
  induction f as [|c f IH]; intros H; [reflexivity|].
  change ((c :: f) ++ rest) with (c :: f ++ rest). cbn [matchFirst].
  rewrite (never_in_head _ _ _ _ H).
  apply IH. exact (never_in_tail _ _ _ _ H).
Qed.

Lemma matchFirst_here {A} (m : list N -> option (A * nat)) (s : list N)
      (a : A) (n : nat) :
  m s = Some (a, n) -> matchFirst m s = Some a.
Proof. intros H. destruct s; simpl; now rewrite H. Qed.

Lemma title_never_in (pre x : list N) :
  match x with [] => True | c :: _ => c = 60%N end ->
  occurs_ci (lit "<title") pre = false ->
  never_in title_match pre x.
Proof.
  intros Hx Ho a b E Hb. unfold title_match.
  now rewrite (occurs_never (lit "<title") pre x eq_refl Hx Ho a b).
Qed.

Lemma title_match_element (o a content c post : list N) :
  same_ci (lit "<title") o ->
  forallb (fun x => negb (is_gt x)) a = true ->
  occurs_ci (lit "</title>") content = false ->
  same_ci (lit "</title>") c ->
  exists n,
    title_match (o ++ a ++ [62%N] ++ content ++ c ++ post) = Some (content, n).
Proof.
  intros Ho Ha Hc Hcl. unfold title_match.
  rewrite strip_prefix_ci_app by exact Ho.
  change (a ++ [62%N] ++ content ++ c ++ post)
    with (a ++ 62%N :: content ++ c ++ post).
  rewrite break_at_app by (exact Ha || reflexivity).
  unfold find_ci.
  rewrite (find_with_app _ content (c ++ post) post).
  - eexists. reflexivity.
  - destruct (same_ci_head _ _ _ Hcl eq_refl eq_refl) as [c' ->].
    now apply occurs_never.
  - now apply strip_prefix_ci_app.
Qed.

Lemma fromEntries_last (attrs : list Attr) (name : list N) :
  default [] (fromEntries (List.map (fun a => (a_name a, a_value a)) attrs)
                !! name)
  = last_value name attrs.
Proof.
  induction attrs as [|a attrs IH] using rev_ind.
  - reflexivity.
  - rewrite List.map_app. cbn [List.map]. rewrite fromEntries_snoc.
    unfold last_value. rewrite rev_app_distr. cbn [rev app List.find].
    destruct (str_eqb (a_name a) name) eqn:E.
    + apply str_eqb_eq in E. subst name. now rewrite lookup_insert_eq.
    + apply str_eqb_neq in E. rewrite lookup_insert_ne by exact E.
      exact IH.
Qed.

(** X18: a document in which [<programme] does not occur, or in which
    [</programme>] does not occur (a download cut before the first block
    ends), gives no record; the extractor does not fail on it. *)
Theorem unclosed_document_gives_nothing (LocalTZA : Z -> Z) (xml : list N) :
  occurs_ci (lit "<programme") xml = false \/
  occurs_ci (lit "</programme>") xml = false ->
  parseEPGProgrammes LocalTZA xml = [].
Proof.
  intros H. unfold parseEPGProgrammes.
  rewrite matchAll_none; [reflexivity|]. intros a b ->.
  destruct H as [H|H].
  - apply prog_match_None. exact (proj1 (occurs_ci_false _ _) H a b eq_refl).
  - exact (prog_match_unclosed a b H).
Qed.

Lemma unclosed_document_gives_nothing_witness :
  parseEPGProgrammes host_utc
    (litq "<tv><programme channel='c1' start='20240101000000 +0000'><title>News</title></progr")
  = [].
Proof.
  apply unclosed_document_gives_nothing. right. vm_compute. reflexivity.
Defined.

(** X21: a document cut off inside a block gives the records of the
    complete blocks before the cut: after well-formed blocks, a rest in
    which [</programme>] does not occur adds no record and changes none. *)
Theorem cut_off_block_is_dropped
        (LocalTZA : Z -> Z) (items : list (list N * Block)) (tail : list N) :
  Forall (fun it => occurs_ci (lit "<programme") (fst it) = false /\
                    wf_block (snd it)) items ->
  occurs_ci (lit "</programme>") tail = false ->
  parseEPGProgrammes LocalTZA (render_doc items tail)
  = List.map (fun it => programme_of LocalTZA
                          (attr_text (snd it), b_inner (snd it)))
             items.
Proof.
  intros Hi Ht. unfold parseEPGProgrammes.
  rewrite matchAll_blocks by exact Hi.
  rewrite (matchAll_none prog_match tail).
  - now rewrite app_nil_r, List.map_map.
  - intros a b ->. exact (prog_match_unclosed a b Ht).
Qed.

Lemma cut_off_block_is_dropped_witness :
  parseEPGProgrammes
    host_utc
    (render_doc sample_items
                (litq "<programme channel='c2' start='20240101000000 +0000'><title>Ne"))
  = [programme_of host_utc (attr_text sample_block, b_inner sample_block)].
Proof.
  apply (cut_off_block_is_dropped host_utc sample_items).
  - exact (proj1 ExtractorClaims.sample_wf).
  - vm_compute. reflexivity.
Defined.

(** X19: the title of a record is the content of the first title element of
    the block, whatever the case of its tags and whatever its attributes,
    with the tags inside removed, runs of whitespace collapsed and the ends
    trimmed. *)
Theorem title_of_first_element
        (LocalTZA : Z -> Z)
        (attrText pre o a content c post : list N) :
  occurs_ci (lit "<title") pre = false ->
  same_ci (lit "<title") o ->
  forallb (fun x => negb (is_gt x)) a = true ->
  occurs_ci (lit "</title>") content = false ->
  same_ci (lit "</title>") c ->
  title (programme_of LocalTZA
           (attrText, pre ++ o ++ a ++ [62%N] ++ content ++ c ++ post))
  = stripTags content.
Proof.
  intros Hpre Ho Ha Hc Hcl. unfold programme_of. cbn [title snd].
  destruct (title_match_element o a content c post Ho Ha Hc Hcl) as [n Hn].
  rewrite matchFirst_through.
  - rewrite (matchFirst_here _ _ _ _ Hn). unfold stripTags. apply trim_idem.
  - apply title_never_in; [|exact Hpre].
    destruct (same_ci_head _ _ _ Ho eq_refl eq_refl) as [o' ->]. reflexivity.
Qed.

Lemma title_of_first_element_witness :
  title (programme_of host_utc
           (litq " channel='c1'",
            lit "<desc>x</desc>" ++ lit "<TITLE" ++ litq " lang='en'" ++ [62%N]
              ++ lit " The <b>Late</b>   Show " ++ lit "</Title>"
              ++ lit "<title>Other</title>"))
  = lit "The Late Show".
Proof.
  change (lit "The Late Show")
    with (stripTags (lit " The <b>Late</b>   Show ")).
  apply title_of_first_element; reflexivity.
Defined.

(** X20: when an attribute is written more than once in the opening tag,
    the record has the value of the last one; an attribute that is not
    written gives the empty string. *)
Theorem last_attribute_wins
        (LocalTZA : Z -> Z) (attrs : list Attr) (tail inner : list N) :
  Forall wf_attr attrs ->
  forallb (fun c => negb (is_name c)) tail = true ->
  let p := programme_of LocalTZA
             (List.concat (List.map render_attr attrs) ++ tail, inner) in
  startRaw p = last_value (lit "start") attrs /\
  stopRaw p = last_value (lit "stop") attrs /\
  channel p = last_value (lit "channel") attrs.
Proof.
  intros Ha Ht. cbv zeta. unfold programme_of.
  cbn [startRaw stopRaw channel fst].
  rewrite matchAll_attrs by assumption.
  rewrite !fromEntries_last. auto.
Qed.

Lemma last_attribute_wins_witness :
  let p := programme_of host_utc
             (List.concat
                (List.map render_attr
                          [mkAttr (lit " ") (lit "channel") (lit "one");
                           mkAttr (lit " ") (lit "channel") (lit "two")])
                ++ lit " ",
              []) in
  startRaw p = [] /\ stopRaw p = [] /\ channel p = lit "two".
Proof.
  apply (last_attribute_wins
           host_utc
           [mkAttr (lit " ") (lit "channel") (lit "one");
            mkAttr (lit " ") (lit "channel") (lit "two")]
           (lit " ") []).
  - repeat constructor; discriminate.
  - reflexivity.
Defined.

End ExtractorProps.
